(** * A shallow embedding of [advanced-vector/vector.h]

    The header defines two class templates: [RawMemory<T>], which owns a
    buffer of raw storage, and [Vector<T>], which keeps the first [size_]
    slots of such a buffer constructed.  The embedding keeps the two
    layers apart the way the code does:

    - storage is a heap of blocks of cells, a cell being either raw or
      holding a live object;
    - [Vector] objects live in a store and are named by their identity, so
      that [this != &rhs] and the aliasing of [v = v] can be expressed;
    - every member function is a computation in a state monad whose
      outcomes are a normal return, a propagating C++ exception, a failed
      [assert], or undefined behaviour;
    - constructors, assignments and [operator new] may throw, as decided
      by an oracle that sees the history of the run.

    What the embedding abstracts from:

    - a block of storage is a list of cells of [sizeof(T)] bytes each:
      [operator new] is asked for a number of bytes and returns room for
      as many whole objects as fit in them; a request above [PTRDIFF_MAX]
      bytes always fails, as no object can be that large;
    - the values of [T] are opaque; a move leaves [moved_from v] behind;
    - an object exists in a cell after a constructor ran there, or, for an
      implicit-lifetime type such as [int], as soon as something is
      assigned to the cell; using a cell that holds no object is undefined
      behaviour;
    - the arguments of [PushBack], [Insert] and [Emplace] are values: a
      reference into the vector itself is not modelled. *)

From stdpp Require Import base list numbers.
From Stdlib Require Import ZArith Lia.

Local Open Scope Z_scope.

(** ** Machine integers and pointers *)

(** [size_t] is a 64-bit unsigned integer: arithmetic wraps. *)
Definition SIZE_MOD : Z := 2 ^ 64.
Definition size_t (z : Z) : Z := z mod SIZE_MOD.

(** No object, and so no block of storage, is larger than [PTRDIFF_MAX]
    bytes. *)
Definition PTRDIFF_MAX : Z := 2 ^ 63 - 1.

(** A [T*]: the block it points into ([None] for a pointer derived from
    [nullptr]) and the element offset inside the block. *)
Record ptr := Ptr { base : option nat; off : Z }.

Definition nullptr : ptr := Ptr None 0.

Definition ptr_add (p : ptr) (k : Z) : ptr := Ptr (base p) (off p + k).

Notation "p +ₚ k" := (ptr_add p k) (at level 50, left associativity).

Global Instance ptr_eq_dec : EqDecision ptr.
Proof. solve_decision. Defined.

Definition ptr_eqb (p q : ptr) : bool := bool_decide (p = q).

(** The exceptions that travel through the container. *)
Inductive exn := bad_alloc | elem_exception.

(** The type traits and special values of the element type [T] that the
    template consults. *)
Class ElemTraits (T : Type) := {
  value_init : T;                          (* the value of [T()] *)
  moved_from : T → T;                      (* what a move leaves behind *)
  is_nothrow_move_constructible : bool;
  is_copy_constructible : bool;
  (* scalars and trivial classes: storage obtained from [operator new]
     already holds an object of such a type, with an indeterminate value *)
  is_implicit_lifetime : bool;
  (* [sizeof(T)], at least 1 and at most [PTRDIFF_MAX] *)
  sizeof_T : Z;
  sizeof_T_range : (0 <? sizeof_T) && (sizeof_T <=? PTRDIFF_MAX) = true;
}.

(** The largest number of objects of type [T] that one block can hold. *)
Definition MAX_ELEMS {T} `{ElemTraits T} : Z := PTRDIFF_MAX / sizeof_T.

(** The number of bytes of [n] objects, before it is cut to a [size_t]. *)
Definition byte_size {T} `{ElemTraits T} (n : Z) : Z := n * sizeof_T.

(** ** Storage *)

Inductive cell (T : Type) := Raw | Live (v : T).
Global Arguments Raw {T}.
Global Arguments Live {T} v.

(** A block keeps its cells after it is released, so that objects that
    were never destroyed stay visible. *)
Inductive block (T : Type) :=
| Block (cells : list (cell T))
| Freed (cells : list (cell T)).
Global Arguments Block {T} cells.
Global Arguments Freed {T} cells.

(** The constructor of [T] that a placement [new] runs, with the value
    of its argument. *)
Inductive ctor (T : Type) :=
| CopyCtor (v : T)      (* T(const T&) *)
| MoveCtor (v : T)      (* T(T&&) *)
| ValueCtor             (* T() *)
| ArgsCtor (v : T).     (* T(args...), building the value v *)
Global Arguments CopyCtor {T} v.
Global Arguments MoveCtor {T} v.
Global Arguments ValueCtor {T}.
Global Arguments ArgsCtor {T} v.

(** What may throw. *)
Inductive action (T : Type) :=
| AAlloc (size : Z)      (* operator new(size) *)
| ACtor (c : ctor T)
| ACopyAssign (v : T)
| AMoveAssign (v : T).
Global Arguments AAlloc {T} size.
Global Arguments ACtor {T} c.
Global Arguments ACopyAssign {T} v.
Global Arguments AMoveAssign {T} v.

Inductive event (T : Type) :=
| EvAlloc (size : Z) (b : nat)       (* operator new(size) returned block b *)
| EvDealloc (b : nat)                (* operator delete released block b *)
| EvCtor (c : ctor T) (p : ptr)      (* a constructor completed at p *)
| EvAssign (a : action T) (p : ptr)  (* an assignment completed at p *)
| EvDtor (p : ptr)                   (* the destructor ran at p *)
| EvLocalCtor (c : ctor T)           (* a local T was constructed *)
| EvLocalDtor                        (* ... and destroyed *)
| EvThrow (a : action T).            (* the action threw *)
Global Arguments EvAlloc {T} size b.
Global Arguments EvDealloc {T} b.
Global Arguments EvCtor {T} c p.
Global Arguments EvAssign {T} a p.
Global Arguments EvDtor {T} p.
Global Arguments EvLocalCtor {T} c.
Global Arguments EvLocalDtor {T}.
Global Arguments EvThrow {T} a.

Record RawMemory := { buffer_ : ptr; capacity_ : Z }.

Record Vector := { data_ : RawMemory; size_ : Z }.

Record World (T : Type) := {
  heap : list (block T);
  vecs : list Vector;        (* the Vector objects, by identity *)
  trace : list (event T);
}.
Global Arguments Build_World {T} _ _ _.
Global Arguments heap {T} w.
Global Arguments vecs {T} w.
Global Arguments trace {T} w.

Definition empty_world {T} : World T := {| heap := []; vecs := []; trace := [] |}.

(** ** The monad *)

Inductive result (T A : Type) :=
| Ok (a : A) (w : World T)         (* normal return *)
| Throw (e : exn) (w : World T)    (* an exception propagates *)
| AssertFail                       (* assert() aborted the program *)
| Undefined.                       (* undefined behaviour *)
Global Arguments Ok {T A} a w.
Global Arguments Throw {T A} e w.
Global Arguments AssertFail {T A}.
Global Arguments Undefined {T A}.

Definition M (T A : Type) : Type := World T → result T A.

Definition ret {T A} (a : A) : M T A := λ w, Ok a w.

Definition bind {T A B} (m : M T A) (k : A → M T B) : M T B :=
  λ w, match m w with
       | Ok a w' => k a w'
       | Throw e w' => Throw e w'
       | AssertFail => AssertFail
       | Undefined => Undefined
       end.

Definition throw {T A} (e : exn) : M T A := λ w, Throw e w.

Definition undefined {T A} : M T A := λ _, Undefined.

(** [try { m } catch (...) { h }] *)
Definition try_catch {T A} (m : M T A) (h : exn → M T A) : M T A :=
  λ w, match m w with
       | Throw e w' => h e w'
       | r => r
       end.

Notation "x <- c1 ;; c2" := (bind c1 (λ x, c2))
  (at level 100, c1 at next level, right associativity).
Notation "c1 ;; c2" := (bind c1 (λ _, c2))
  (at level 100, right associativity).

Section Operations.

Context {T : Type} `{ElemTraits T}.

(** The environment: which actions throw, given the history so far, and
    whether [assert] is compiled in (no [NDEBUG]). *)
Variable throws : list (event T) → action T → bool.
Variable debug : bool.

Local Abbreviation M := (M T).
Local Abbreviation World := (World T).

Definition built (c : ctor T) : T :=
  match c with
  | CopyCtor v | MoveCtor v | ArgsCtor v => v
  | ValueCtor => value_init
  end.

(** Stack unwinding: a local whose destructor is [cleanup] is in scope
    while [m] runs; an exception leaving [m] runs it and goes on. *)
Definition unwinding {A} (cleanup : M unit) (m : M A) : M A :=
  try_catch m (λ e, cleanup ;; throw e).

Definition assert_ (c : bool) : M unit :=
  λ w, if debug && negb c then AssertFail else Ok tt w.

Definition emit (e : event T) : M unit :=
  λ w, Ok tt {| heap := heap w; vecs := vecs w; trace := trace w ++ [e] |}.

Definition exn_of (a : action T) : exn :=
  match a with AAlloc _ => bad_alloc | _ => elem_exception end.

(** A [noexcept] move constructor does not throw. *)
Definition can_throw (a : action T) : bool :=
  match a with
  | ACtor (MoveCtor _) => negb is_nothrow_move_constructible
  | _ => true
  end.

Definition may_throw (a : action T) : M unit :=
  λ w, if can_throw a && throws (trace w) a
       then Throw (exn_of a)
              {| heap := heap w; vecs := vecs w; trace := trace w ++ [EvThrow a] |}
       else Ok tt w.

(** *** Cells *)

Definition cells_of (w : World) (b : nat) : option (list (cell T)) :=
  match heap w !! b with
  | Some (Block cs) => Some cs
  | _ => None
  end.

Definition set_block (w : World) (b : nat) (bl : block T) : World :=
  {| heap := <[b := bl]> (heap w); vecs := vecs w; trace := trace w |}.

Definition read_cell (p : ptr) : M (cell T) :=
  λ w, match base p with
       | Some b =>
           match cells_of w b with
           | Some cs =>
               if 0 <=? off p then
                 match cs !! Z.to_nat (off p) with
                 | Some c => Ok c w
                 | None => Undefined
                 end
               else Undefined
           | None => Undefined
           end
       | None => Undefined
       end.

Definition write_cell (p : ptr) (c : cell T) : M unit :=
  λ w, match base p with
       | Some b =>
           match cells_of w b with
           | Some cs =>
               if (0 <=? off p) && (off p <? Z.of_nat (length cs))
               then Ok tt (set_block w b (Block (<[Z.to_nat (off p) := c]> cs)))
               else Undefined
           | None => Undefined
           end
       | None => Undefined
       end.

(** Reading the value of the object at [p]; there must be one. *)
Definition load (p : ptr) : M T :=
  c <- read_cell p ;;
  match c with Live v => ret v | Raw => undefined end.

(** [new (p) T(...)]: the storage must exist; whatever it held is
    overwritten without a destructor call. *)
Definition construct_at (p : ptr) (c : ctor T) : M unit :=
  read_cell p ;;
  may_throw (ACtor c) ;;
  write_cell p (Live (built c)) ;;
  emit (EvCtor c p).

(** Placement [new] at [dst], copying or moving from the object at [src]. *)
Definition copy_construct (src dst : ptr) : M unit :=
  v <- load src ;;
  construct_at dst (CopyCtor v).

Definition move_construct (src dst : ptr) : M unit :=
  v <- load src ;;
  construct_at dst (MoveCtor v) ;;
  write_cell src (Live (moved_from v)).

(** Assignment to the object at [dst].  The operator runs on an object:
    in raw storage there is one only for an implicit-lifetime type. *)
Definition assign_at (dst : ptr) (a : action T) (v : T) : M unit :=
  c <- read_cell dst ;;
  match c with
  | Live _ => may_throw a ;; write_cell dst (Live v) ;; emit (EvAssign a dst)
  | Raw =>
      if is_implicit_lifetime
      then may_throw a ;; write_cell dst (Live v) ;; emit (EvAssign a dst)
      else undefined
  end.

Definition copy_assign_cell (src dst : ptr) : M unit :=
  v <- load src ;;
  assign_at dst (ACopyAssign v) v.

Definition move_assign_cell (src dst : ptr) : M unit :=
  v <- load src ;;
  assign_at dst (AMoveAssign v) v ;;
  write_cell src (Live (moved_from v)).

(** [Vector::Destroy]: [buf->~T()].  Destructors do not throw. *)
Definition Destroy (buf : ptr) : M unit :=
  c <- read_cell buf ;;
  match c with
  | Live _ => write_cell buf Raw ;; emit (EvDtor buf)
  | Raw => undefined
  end.

(** *** [operator new] and [operator delete] *)

(** [operator new(size)], asked for [size] bytes.  It throws [bad_alloc]
    when the environment says so, and for every request above
    [PTRDIFF_MAX] bytes, which no implementation can meet; otherwise the
    new block has room for [size / sizeof(T)] objects, none for a request
    of 0 bytes. *)
Definition operator_new (size : Z) : M ptr :=
  λ w, if (PTRDIFF_MAX <? size) || throws (trace w) (AAlloc size)
       then Throw bad_alloc
              {| heap := heap w; vecs := vecs w;
                 trace := trace w ++ [EvThrow (AAlloc size)] |}
       else let b := length (heap w) in
            Ok (Ptr (Some b) 0)
              {| heap := heap w ++ [Block (replicate (Z.to_nat (size / sizeof_T)) Raw)];
                 vecs := vecs w;
                 trace := trace w ++ [EvAlloc size b] |}.

Definition operator_delete (buf : ptr) : M unit :=
  match base buf with
  | None => if off buf =? 0 then ret tt else undefined
  | Some b =>
      λ w, if off buf =? 0 then
             match heap w !! b with
             | Some (Block cs) =>
                 Ok tt {| heap := <[b := Freed cs]> (heap w); vecs := vecs w;
                          trace := trace w ++ [EvDealloc b] |}
             | _ => Undefined
             end
           else Undefined
  end.

(** ** [RawMemory<T>] *)

(** [RawMemory::Allocate]: the product [n * sizeof(T)] is computed in
    [size_t]. *)
Definition Allocate (n : Z) : M ptr :=
  if n =? 0 then ret nullptr else operator_new (size_t (n * sizeof_T)).

(** [RawMemory::Deallocate] *)
Definition Deallocate (buf : ptr) : M unit := operator_delete buf.

(** [RawMemory() = default] *)
Definition RawMemory_default : RawMemory :=
  {| buffer_ := nullptr; capacity_ := 0 |}.

(** [explicit RawMemory(size_t capacity)] *)
Definition RawMemory_new (capacity : Z) : M RawMemory :=
  buf <- Allocate capacity ;;
  ret {| buffer_ := buf; capacity_ := capacity |}.

(** [~RawMemory()] *)
Definition RawMemory_delete (m : RawMemory) : M unit :=
  Deallocate (buffer_ m).

(** [T* operator+(size_t offset)] *)
Definition RawMemory_plus (m : RawMemory) (offset : Z) : M ptr :=
  assert_ (offset <=? capacity_ m) ;;
  ret (buffer_ m +ₚ offset).

(** [T& operator[](size_t index)] *)
Definition RawMemory_index (m : RawMemory) (index : Z) : M ptr :=
  assert_ (index <? capacity_ m) ;;
  ret (buffer_ m +ₚ index).

(** ** The Vector objects *)

Definition get_vec (this : nat) : M Vector :=
  λ w, match vecs w !! this with
       | Some v => Ok v w
       | None => Undefined
       end.

Definition set_vec (this : nat) (v : Vector) : M unit :=
  λ w, Ok tt {| heap := heap w; vecs := <[this := v]> (vecs w); trace := trace w |}.

Definition new_vec (v : Vector) : M nat :=
  λ w, Ok (length (vecs w))
         {| heap := heap w; vecs := vecs w ++ [v]; trace := trace w |}.

Definition get_data (this : nat) : M RawMemory :=
  v <- get_vec this ;; ret (data_ v).

Definition set_data (this : nat) (d : RawMemory) : M unit :=
  v <- get_vec this ;; set_vec this {| data_ := d; size_ := size_ v |}.

Definition get_size (this : nat) : M Z :=
  v <- get_vec this ;; ret (size_ v).

Definition set_size (this : nat) (n : Z) : M unit :=
  v <- get_vec this ;; set_vec this {| data_ := data_ v; size_ := n |}.

(** ** The algorithms of [<memory>] and [<algorithm>] *)

(** A pair of pointers is a range when they point into one array, the
    second not before the first. *)
Definition range_length (first last : ptr) : M Z :=
  if bool_decide (base first = base last) && (off first <=? off last)
  then ret (off last - off first)
  else undefined.

(** [std::distance] of two pointers, read as a [size_t]. *)
Definition distance (first last : ptr) : M Z :=
  if bool_decide (base first = base last)
  then ret (size_t (off last - off first))
  else undefined.

Fixpoint destroy_loop (first : ptr) (i : Z) (k : nat) : M unit :=
  match k with
  | O => ret tt
  | S k' => Destroy (first +ₚ i) ;; destroy_loop first (i + 1) k'
  end.

Definition destroy_n (first : ptr) (n : Z) : M unit :=
  destroy_loop first 0 (Z.to_nat n).

Definition destroy (first last : ptr) : M unit :=
  n <- range_length first last ;; destroy_n first n.

Definition destroy_at (p : ptr) : M unit := Destroy p.

(** The loop shared by the [uninitialized_*_n] algorithms: construct the
    objects one by one; when a constructor throws, destroy what was
    constructed in the destination and let the exception go on. *)
Fixpoint uninitialized_loop (step : ptr → ptr → M unit)
    (first result : ptr) (i : Z) (k : nat) : M unit :=
  match k with
  | O => ret tt
  | S k' =>
      try_catch (step (first +ₚ i) (result +ₚ i))
        (λ e, destroy result (result +ₚ i) ;; throw e) ;;
      uninitialized_loop step first result (i + 1) k'
  end.

Definition uninitialized_copy_n (first : ptr) (n : Z) (result : ptr) : M unit :=
  uninitialized_loop copy_construct first result 0 (Z.to_nat n).

Definition uninitialized_move_n (first : ptr) (n : Z) (result : ptr) : M unit :=
  uninitialized_loop move_construct first result 0 (Z.to_nat n).

Definition uninitialized_value_construct_n (first : ptr) (n : Z) : M unit :=
  uninitialized_loop (λ _ dst, construct_at dst ValueCtor) first first 0 (Z.to_nat n).

(** [std::move], [std::move_backward] and [std::copy_backward] assign. *)
Fixpoint assign_forward (step : ptr → ptr → M unit)
    (first d_first : ptr) (i : Z) (k : nat) : M unit :=
  match k with
  | O => ret tt
  | S k' => step (first +ₚ i) (d_first +ₚ i) ;;
            assign_forward step first d_first (i + 1) k'
  end.

Fixpoint assign_backward (step : ptr → ptr → M unit)
    (first d_first : ptr) (k : nat) : M unit :=
  match k with
  | O => ret tt
  | S k' => step (first +ₚ Z.of_nat k') (d_first +ₚ Z.of_nat k') ;;
            assign_backward step first d_first k'
  end.

Definition std_move (first last d_first : ptr) : M unit :=
  n <- range_length first last ;;
  assign_forward move_assign_cell first d_first 0 (Z.to_nat n).

Definition move_backward (first last d_last : ptr) : M unit :=
  n <- range_length first last ;;
  assign_backward move_assign_cell first (d_last +ₚ (- n)) (Z.to_nat n).

Definition copy_backward (first last d_last : ptr) : M unit :=
  n <- range_length first last ;;
  assign_backward copy_assign_cell first (d_last +ₚ (- n)) (Z.to_nat n).

(** ** [Vector<T>] *)

Definition Size (this : nat) : M Z := get_size this.

Definition Capacity (this : nat) : M Z :=
  d <- get_data this ;; ret (capacity_ d).

(** [T& operator[](size_t index)]: the reference returned is the address
    of the slot. *)
Definition index (this : nat) (i : Z) : M ptr :=
  v <- get_vec this ;;
  assert_ (i <? size_ v) ;;
  RawMemory_index (data_ v) i.

(** The transfer rule: move when moving cannot throw or copying is
    impossible, copy otherwise. *)
Definition use_move : bool :=
  is_nothrow_move_constructible || negb is_copy_constructible.

Definition SafeCopyingOrMoving (from : ptr) (n_el : Z) (to : ptr) : M unit :=
  if use_move
  then uninitialized_move_n from n_el to
  else uninitialized_copy_n from n_el to.

Definition begin (this : nat) : M ptr :=
  d <- get_data this ;; ret (buffer_ d).

Definition end_ (this : nat) : M ptr :=
  v <- get_vec this ;; RawMemory_plus (data_ v) (size_ v).

Definition cbegin (this : nat) : M ptr := begin this.

Definition cend (this : nat) : M ptr := end_ this.

(** [Vector() = default] *)
Definition Vector_default : M nat :=
  new_vec {| data_ := RawMemory_default; size_ := 0 |}.

(** [explicit Vector(size_t size)] *)
Definition Vector_sized (size : Z) : M nat :=
  data <- RawMemory_new size ;;
  unwinding (RawMemory_delete data)
    (uninitialized_value_construct_n (buffer_ data) size) ;;
  new_vec {| data_ := data; size_ := size |}.

(** [Vector(const Vector& other)] *)
Definition Vector_copy (other : nat) : M nat :=
  o <- get_vec other ;;
  data <- RawMemory_new (size_ o) ;;
  unwinding (RawMemory_delete data)
    (uninitialized_copy_n (buffer_ (data_ o)) (size_ o) (buffer_ data)) ;;
  new_vec {| data_ := data; size_ := size_ o |}.

(** [std::swap] of the two [data_] members, through the move constructor
    and the move assignment of [RawMemory]. *)
Definition swap_data (a b : nat) : M unit :=
  (* RawMemory tmp(std::move(a.data_)); *)
  tmp <- get_data a ;;
  set_data a RawMemory_default ;;
  (* a.data_ = std::move(b.data_); *)
  da <- get_data a ;;
  db <- get_data b ;;
  (if ptr_eqb (buffer_ da) (buffer_ db) then ret tt
   else set_data a db ;; set_data b da) ;;
  (* b.data_ = std::move(tmp); *)
  db <- get_data b ;;
  tmp <- (if ptr_eqb (buffer_ db) (buffer_ tmp) then ret tmp
          else set_data b tmp ;; ret db) ;;
  (* ~tmp *)
  RawMemory_delete tmp.

Definition swap_size (a b : nat) : M unit :=
  tmp <- get_size a ;;
  sb <- get_size b ;;
  set_size a sb ;;
  set_size b tmp.

(** [void Swap(Vector& other) noexcept] *)
Definition Swap (this other : nat) : M unit :=
  swap_data this other ;;
  swap_size this other.

(** [Vector(Vector&& other) noexcept] *)
Definition Vector_move (other : nat) : M nat :=
  this <- Vector_default ;;
  Swap this other ;;
  ret this.

(** [~Vector()], followed by the destructor of the member [data_]. *)
Definition Vector_destroy (this : nat) : M unit :=
  v <- get_vec this ;;
  destroy_n (buffer_ (data_ v)) (size_ v) ;;
  RawMemory_delete (data_ v).

(** The loop [for (i = 0; i < n; i++) data_[i] = rhs[i];] *)
Fixpoint assign_elements (this rhs : nat) (i : Z) (k : nat) : M unit :=
  match k with
  | O => ret tt
  | S k' =>
      src <- index rhs i ;;
      d <- get_data this ;;
      dst <- RawMemory_index d i ;;
      copy_assign_cell src dst ;;
      assign_elements this rhs (i + 1) k'
  end.

(** [Vector& operator=(const Vector& rhs)] *)
Definition copy_assign (this rhs : nat) : M unit :=
  if bool_decide (this = rhs) then ret tt
  else
    d <- get_vec this ;;
    r <- get_vec rhs ;;
    (if capacity_ (data_ d) <? size_ r then
       rhs_copy <- Vector_copy rhs ;;
       Swap this rhs_copy ;;
       Vector_destroy rhs_copy
     else if size_ d <? size_ r then
       assign_elements this rhs 0 (Z.to_nat (size_ d)) ;;
       src <- RawMemory_plus (data_ r) (size_ d) ;;
       dst <- RawMemory_plus (data_ d) (size_ d) ;;
       uninitialized_copy_n src (size_t (size_ r - size_ d)) dst
     else
       assign_elements this rhs 0 (Z.to_nat (size_ r)) ;;
       p <- RawMemory_plus (data_ d) (size_ r) ;;
       destroy_n p (size_t (size_ d - size_ r))) ;;
    set_size this (size_ r).

(** [Vector& operator=(Vector&& rhs) noexcept] *)
Definition move_assign (this rhs : nat) : M unit :=
  if bool_decide (this = rhs) then ret tt
  else Swap this rhs.

(** [void Reserve(size_t new_capacity)] *)
Definition Reserve (this : nat) (new_capacity : Z) : M unit :=
  v <- get_vec this ;;
  if new_capacity <=? capacity_ (data_ v) then ret tt
  else
    new_data <- RawMemory_new new_capacity ;;
    unwinding (RawMemory_delete new_data)
      (if use_move
       then uninitialized_move_n (buffer_ (data_ v)) (size_ v) (buffer_ new_data)
       else uninitialized_copy_n (buffer_ (data_ v)) (size_ v) (buffer_ new_data)) ;;
    (* data_.Swap(new_data): the local now holds the old block *)
    set_data this new_data ;;
    destroy_n (buffer_ (data_ v)) (size_ v) ;;
    RawMemory_delete (data_ v).

(** [void Resize(size_t new_size)] *)
Definition Resize (this : nat) (new_size : Z) : M unit :=
  v <- get_vec this ;;
  (if new_size <? size_ v then
     p <- RawMemory_plus (data_ v) new_size ;;
     destroy_n p (size_t (size_ v - new_size))
   else
     Reserve this new_size ;;
     v <- get_vec this ;;
     p <- RawMemory_plus (data_ v) (size_ v) ;;
     uninitialized_value_construct_n p (size_t (new_size - size_ v))) ;;
  set_size this new_size.

(** The capacity that the growing insertions ask for. *)
Definition grown_capacity (size : Z) : Z :=
  if size =? 0 then 1 else size_t (size * 2).

(** [T& EmplaceBack(Args&&... args)] *)
Definition EmplaceBack (this : nat) (args : ctor T) : M ptr :=
  v <- get_vec this ;;
  (if size_ v =? capacity_ (data_ v) then
     let new_capacity := grown_capacity (size_ v) in
     new_data <- RawMemory_new new_capacity ;;
     unwinding (RawMemory_delete new_data)
       (p <- RawMemory_plus new_data (size_ v) ;;
        construct_at p args ;;
        SafeCopyingOrMoving (buffer_ (data_ v)) (size_ v) (buffer_ new_data)) ;;
     set_data this new_data ;;
     destroy_n (buffer_ (data_ v)) (size_ v) ;;
     RawMemory_delete (data_ v)
   else
     p <- RawMemory_plus (data_ v) (size_ v) ;;
     construct_at p args) ;;
  set_size this (size_t (size_ v + 1)) ;;
  v <- get_vec this ;;
  RawMemory_index (data_ v) (size_t (size_ v - 1)).

(** [void PushBack(const T& value)] and [void PushBack(T&& value)] *)
Definition PushBack (this : nat) (value : T) : M unit :=
  EmplaceBack this (CopyCtor value) ;; ret tt.

Definition PushBack_move (this : nat) (value : T) : M unit :=
  EmplaceBack this (MoveCtor value) ;; ret tt.

(** [void PopBack() noexcept] *)
Definition PopBack (this : nat) : M unit :=
  v <- get_vec this ;;
  p <- RawMemory_plus (data_ v) (size_ v) ;;
  destroy_n (p +ₚ (-1)) 1 ;;
  set_size this (size_t (size_ v - 1)).

(** [iterator Emplace(const_iterator pos, Args&&... args)] *)
Definition Emplace (this : nat) (pos : ptr) (args : ctor T) : M ptr :=
  cb <- cbegin this ;;
  pos_index <- distance cb pos ;;
  v <- get_vec this ;;
  (if size_ v =? capacity_ (data_ v) then
     let new_capacity := grown_capacity (size_ v) in
     new_data <- RawMemory_new new_capacity ;;
     unwinding (RawMemory_delete new_data)
       (p <- RawMemory_plus new_data pos_index ;;
        construct_at p args ;;
        try_catch
          (b <- begin this ;;
           SafeCopyingOrMoving b pos_index (buffer_ new_data))
          (λ _, p <- RawMemory_plus new_data pos_index ;;
                destroy_at p) ;;
        try_catch
          (b <- begin this ;;
           p <- RawMemory_plus new_data pos_index ;;
           SafeCopyingOrMoving (b +ₚ pos_index) (size_t (size_ v - pos_index))
             (p +ₚ 1))
          (λ _, p <- RawMemory_plus new_data pos_index ;;
                destroy (buffer_ new_data) p)) ;;
     set_data this new_data ;;
     destroy_n (buffer_ (data_ v)) (size_ v) ;;
     set_size this (size_t (size_ v + 1)) ;;
     RawMemory_delete (data_ v)
   else if size_ v =? 0 then
     p <- RawMemory_plus (data_ v) pos_index ;;
     construct_at p args ;;
     set_size this (size_t (size_ v + 1))
   else
     e <- end_ this ;;
     std_move (e +ₚ (-1)) e e ;;
     set_size this (size_t (size_ v + 1)) ;;
     (* T new_el(std::forward<Args>(args)...); *)
     may_throw (ACtor args) ;;
     emit (EvLocalCtor args) ;;
     let new_el := built args in
     unwinding (emit EvLocalDtor)
       (b <- begin this ;;
        e <- end_ this ;;
        (if use_move
         then move_backward (b +ₚ pos_index) (e +ₚ (-2)) (e +ₚ (-1))
         else copy_backward (b +ₚ pos_index) (e +ₚ (-2)) (e +ₚ (-1))) ;;
        d <- get_data this ;;
        p <- RawMemory_plus d pos_index ;;
        construct_at p (MoveCtor new_el)) ;;
     emit EvLocalDtor) ;;
  d <- get_data this ;;
  RawMemory_plus d pos_index.

(** [iterator Insert(const_iterator pos, const T& value)] and
    [iterator Insert(const_iterator pos, T&& value)] *)
Definition Insert (this : nat) (pos : ptr) (value : T) : M ptr :=
  Emplace this pos (CopyCtor value).

Definition Insert_move (this : nat) (pos : ptr) (value : T) : M ptr :=
  Emplace this pos (MoveCtor value).

(** [iterator Erase(const_iterator pos)] *)
Definition Erase (this : nat) (pos : ptr) : M ptr :=
  cb <- cbegin this ;;
  pos_index <- distance cb pos ;;
  b <- begin this ;;
  e <- end_ this ;;
  std_move (b +ₚ pos_index +ₚ 1) e (b +ₚ pos_index) ;;
  e <- end_ this ;;
  destroy_at (e +ₚ (-1)) ;;
  v <- get_vec this ;;
  set_size this (size_t (size_ v - 1)) ;;
  b <- begin this ;;
  ret (b +ₚ pos_index).

End Operations.

(** ** Concrete element types *)

(** [int]: four bytes, value-initialised to zero, moved by copying. *)
Definition int_traits : ElemTraits Z :=
  {| value_init := 0; moved_from := λ v, v;
     is_nothrow_move_constructible := true; is_copy_constructible := true;
     is_implicit_lifetime := true;
     sizeof_T := 4; sizeof_T_range := eq_refl |}.

(** A class carrying an integer whose copy constructor may throw and
    whose move constructor is not [noexcept]; a move leaves 0 behind. *)
Definition thrower_traits : ElemTraits Z :=
  {| value_init := 0; moved_from := λ _, 0;
     is_nothrow_move_constructible := false; is_copy_constructible := true;
     is_implicit_lifetime := false;
     sizeof_T := 4; sizeof_T_range := eq_refl |}.

(** Nothing ever throws. *)
Definition never {T} : list (event T) → action T → bool := λ _ _, false.

(** The number of copy-constructor invocations in a history. *)
Definition is_copy_invocation {T} (e : event T) : bool :=
  match e with
  | EvCtor (CopyCtor _) _ | EvThrow (ACtor (CopyCtor _)) => true
  | _ => false
  end.

Definition copy_invocations {T} (tr : list (event T)) : nat :=
  length (List.filter is_copy_invocation tr).

(** The copy constructor throws on its invocation number [n] (from 0). *)
Definition copy_throws_at {T} (n : nat) : list (event T) → action T → bool :=
  λ tr a, match a with
          | ACtor (CopyCtor _) => Nat.eqb (copy_invocations tr) n
          | _ => false
          end.


(** ** The representation invariant *)

Section Representation.

Context {T : Type} `{ElemTraits T}.

(** The record [v] owns a block whose first [size_] cells hold the live
    objects [vs], in order, and whose other cells are raw; an empty
    buffer is the null pointer. *)
Definition owns (w : World T) (v : Vector) (vs : list T) : Prop :=
  size_ v = Z.of_nat (length vs) ∧
  Z.of_nat (length vs) ≤ capacity_ (data_ v) ≤ MAX_ELEMS ∧
  match base (buffer_ (data_ v)) with
  | None => buffer_ (data_ v) = nullptr ∧ capacity_ (data_ v) = 0
  | Some b =>
      off (buffer_ (data_ v)) = 0 ∧ 0 < capacity_ (data_ v) ∧
      heap w !! b =
        Some (Block ((Live <$> vs) ++
                     replicate (Z.to_nat (capacity_ (data_ v)) - length vs)%nat Raw))
  end.

(** The object [this] is a vector of capacity [cap] holding [vs]. *)
Definition holds (w : World T) (this : nat) (vs : list T) (cap : Z) : Prop :=
  ∃ v, vecs w !! this = Some v ∧ capacity_ (data_ v) = cap ∧ owns w v vs.

(** [0 <= size <= capacity], the slots below [size] constructed, the
    slots from [size] on raw. *)
Definition invariant (w : World T) (this : nat) : Prop :=
  ∃ vs cap, holds w this vs cap.

(** The constructor and destructor calls of a loop that walks up from
    slot [i]. *)
Fixpoint ctor_events (mk : T → ctor T) (result : ptr) (i : Z) (vs : list T)
    : list (event T) :=
  match vs with
  | [] => []
  | v :: vs' => EvCtor (mk v) (result +ₚ i) :: ctor_events mk result (i + 1) vs'
  end.

Fixpoint dtor_events (first : ptr) (i : Z) (k : nat) : list (event T) :=
  match k with
  | O => []
  | S k' => EvDtor (first +ₚ i) :: dtor_events first (i + 1) k'
  end.

(** [operator delete] leaves an event unless the pointer is null. *)
Definition release_events (buf : ptr) : list (event T) :=
  match base buf with
  | Some b => [EvDealloc b]
  | None => []
  end.

(** The outcome of a growing insertion that asked for [n'] elements: a
    normal return leaves the vector in the new block [bnew] of capacity
    [n'], and every outcome with a history shows the request. *)
Definition grown (this : nat) (tr : list (event T)) (bnew : nat) (n' : Z)
    {A} (r : result T A) : Prop :=
  match r with
  | Ok _ w' =>
      (∃ v', vecs w' !! this = Some v' ∧
             data_ v' = {| buffer_ := Ptr (Some bnew) 0; capacity_ := n' |}) ∧
      tr ++ [EvAlloc (byte_size n') bnew] `prefix_of` trace w'
  | Throw e w' =>
      trace w' = tr ++ [EvThrow (AAlloc (byte_size n'))] ∨
      tr ++ [EvAlloc (byte_size n') bnew] `prefix_of` trace w'
  | _ => True
  end.

End Representation.

(** ** The transfer rule, seen as one loop *)

Section Transfer.

Context {T : Type} `{ElemTraits T}.
Variable throws : list (event T) → action T → bool.

(** The constructor that the transfer rule runs on [v], and what it
    leaves in the source. *)
Definition transfer_ctor (v : T) : ctor T :=
  if use_move then MoveCtor v else CopyCtor v.

Definition source_after (v : T) : T :=
  if use_move then moved_from v else v.

Definition transfer_step : ptr → ptr → M T unit :=
  if use_move then move_construct throws else copy_construct throws.

End Transfer.

(** ** Predicates used in the proofs *)

Section Predicates.

Context {T : Type} `{ElemTraits T}.
Variable throws : list (event T) → action T → bool.

(** What one step of a transfer does: it reads the source object [v],
    runs the constructor [mk v] on the destination cell, and leaves
    [sa v] in the source. *)
Definition step_spec (step : ptr → ptr → M T unit) (mk : T → ctor T) (sa : T → T) : Prop :=
  ∀ (w : World T) bs bd spre v spost dpre c0 dpost so do_,
    bs ≠ bd →
    heap w !! bs = Some (Block (spre ++ Live v :: spost)) →
    heap w !! bd = Some (Block (dpre ++ c0 :: dpost)) →
    so = Z.of_nat (length spre) →
    do_ = Z.of_nat (length dpre) →
    step (Ptr (Some bs) so) (Ptr (Some bd) do_) w =
      if can_throw (ACtor (mk v)) && throws (trace w) (ACtor (mk v))
      then Throw elem_exception
             {| heap := heap w; vecs := vecs w;
                trace := trace w ++ [EvThrow (ACtor (mk v))] |}
      else Ok tt
             {| heap := <[bs := Block (spre ++ Live (sa v) :: spost)]>
                          (<[bd := Block (dpre ++ Live v :: dpost)]> (heap w));
                vecs := vecs w;
                trace := trace w ++ [EvCtor (mk v) (Ptr (Some bd) do_)] |}.

(** A record whose buffer is a null pointer is the empty record. *)
Definition null_is_empty (v : Vector) : Prop :=
  base (buffer_ (data_ v)) = None → data_ v = RawMemory_default.

(** A computation that changes no [Vector] object and only adds to the
    history, whether it returns or throws. *)
Definition frame {A} (m : M T A) : Prop :=
  ∀ w, match m w with
       | Ok _ w' | Throw _ w' => vecs w' = vecs w ∧ trace w `prefix_of` trace w'
       | _ => True
       end.

End Predicates.

(** ** Sample states *)

(** Three elements in a block that is full. *)
Definition full3 : World Z :=
  {| heap := [Block [Live 1; Live 2; Live 3]];
     vecs := [{| data_ := {| buffer_ := Ptr (Some 0%nat) 0; capacity_ := 3 |};
                 size_ := 3 |}];
     trace := [] |}.

(** A vector holding 7 and a vector holding 1, 2. *)
Definition two_vectors : World Z :=
  {| heap := [Block [Live 7]; Block [Live 1; Live 2]];
     vecs := [{| data_ := {| buffer_ := Ptr (Some 0%nat) 0; capacity_ := 1 |};
                 size_ := 1 |};
              {| data_ := {| buffer_ := Ptr (Some 1%nat) 0; capacity_ := 2 |};
                 size_ := 2 |}];
     trace := [] |}.

(** One default-constructed vector. *)
Definition one_empty : World Z :=
  {| heap := [];
     vecs := [{| data_ := RawMemory_default; size_ := 0 |}];
     trace := [] |}.

(** Two elements in a block that is full, and one element in a block of
    two. *)
Definition full2 : World Z :=
  {| heap := [Block [Live 1; Live 2]];
     vecs := [{| data_ := {| buffer_ := Ptr (Some 0%nat) 0; capacity_ := 2 |};
                 size_ := 2 |}];
     trace := [] |}.

Definition spare1 : World Z :=
  {| heap := [Block [Live 1; Raw]];
     vecs := [{| data_ := {| buffer_ := Ptr (Some 0%nat) 0; capacity_ := 2 |};
                 size_ := 1 |}];
     trace := [] |}.


(** ** More element types and oracles *)

(** A class that can be moved but not copied, whose move constructor is
    not [noexcept] and leaves 0 behind. *)
Definition move_only_traits : ElemTraits Z :=
  {| value_init := 0; moved_from := λ _, 0;
     is_nothrow_move_constructible := false; is_copy_constructible := false;
     is_implicit_lifetime := false;
     sizeof_T := 4; sizeof_T_range := eq_refl |}.

(** The move constructor throws when it is given the object [x]. *)
Definition move_throws_on {T} (is_x : T → bool) : list (event T) → action T → bool :=
  λ _ a, match a with
         | ACtor (MoveCtor v) => is_x v
         | _ => false
         end.

(** ** Predicates on several vectors and on outcomes *)

(** Two vectors that do not share storage. *)
Definition separate {T} (w : World T) (a b : nat) : Prop :=
  ∀ va vb, vecs w !! a = Some va → vecs w !! b = Some vb →
    base (buffer_ (data_ va)) = base (buffer_ (data_ vb)) →
    base (buffer_ (data_ va)) = None.

(** What an operation on the vector [this], whose record was [v], leaves
    alone: the vector keeps its buffer and its capacity, the other
    vectors and every block but its own are as they were, released blocks
    included, and no block is added. *)
Definition elsewhere_unchanged {T} (w w' : World T) (this : nat) (v : Vector) : Prop :=
  (∃ v', vecs w' !! this = Some v' ∧ data_ v' = data_ v) ∧
  (∀ o, o ≠ this → vecs w' !! o = vecs w !! o) ∧
  length (heap w') = length (heap w) ∧
  (∀ b, base (buffer_ (data_ v)) ≠ Some b → heap w' !! b = heap w !! b).

(** The operation returned or threw: no assertion failed and nothing
    undefined happened. *)
Definition returns_or_throws {T A} (r : result T A) : Prop :=
  match r with
  | Ok _ _ | Throw _ _ => True
  | AssertFail | Undefined => False
  end.

(** The outcome of an operation leaves the vector valid: the operation
    returned or threw, and the invariant holds in the state it left. *)
Definition keeps_invariant {T} `{ElemTraits T} {A} (this : nat) (r : result T A) : Prop :=
  match r with
  | Ok _ w' | Throw _ w' => invariant w' this
  | AssertFail | Undefined => False
  end.


(** * Properties *)

(** ** Sizes *)

Section Sizes.

Context {T : Type} `{ElemTraits T}.

Lemma sizeof_T_bounds : 0 < sizeof_T ≤ PTRDIFF_MAX.
Proof.
  pose proof sizeof_T_range as E. apply andb_true_iff in E as [E1 E2].
  apply Z.ltb_lt in E1. apply Z.leb_le in E2. done.
Qed.

Lemma PTRDIFF_MAX_twice : 2 * PTRDIFF_MAX < SIZE_MOD.
Proof. by vm_compute. Qed.

(** [n] objects fit in a block exactly when [n <= MAX_ELEMS]. *)
Lemma MAX_ELEMS_spec n : n ≤ MAX_ELEMS ↔ byte_size n ≤ PTRDIFF_MAX.
Proof.
  pose proof sizeof_T_bounds as [Hpos _]. unfold MAX_ELEMS, byte_size. split.
  - intros Hn. pose proof (Z.mul_div_le PTRDIFF_MAX sizeof_T Hpos). nia.
  - intros Hn. apply Z.div_le_lower_bound; [done | lia].
Qed.

Lemma MAX_ELEMS_bounds : 1 ≤ MAX_ELEMS ≤ PTRDIFF_MAX.
Proof.
  pose proof sizeof_T_bounds as [Hpos Hle]. split.
  - apply MAX_ELEMS_spec. unfold byte_size. lia.
  - unfold MAX_ELEMS. apply Z.div_le_upper_bound; [done |].
    assert (0 ≤ PTRDIFF_MAX) by (by vm_compute). nia.
Qed.

Lemma size_t_id z : 0 ≤ z < SIZE_MOD → size_t z = z.
Proof. intros Hz. unfold size_t. by apply Z.mod_small. Qed.

Lemma byte_size_cells n : byte_size n / sizeof_T = n.
Proof.
  pose proof sizeof_T_bounds as [Hpos _]. unfold byte_size.
  apply Z.div_mul. lia.
Qed.

Lemma byte_size_nonneg n : 0 ≤ n → 0 ≤ byte_size n.
Proof. pose proof sizeof_T_bounds. unfold byte_size. nia. Qed.

(** The byte count of up to [2 * MAX_ELEMS] objects is not cut by
    [size_t]: doubling the capacity of a block that exists cannot wrap. *)
Lemma byte_size_twice n : n ≤ 2 * MAX_ELEMS → byte_size n < SIZE_MOD.
Proof.
  intros Hn. pose proof sizeof_T_bounds as [Hpos _].
  pose proof (proj1 (MAX_ELEMS_spec MAX_ELEMS) (Z.le_refl _)) as Hmax.
  pose proof PTRDIFF_MAX_twice. unfold byte_size in *.
  assert (n * sizeof_T ≤ 2 * MAX_ELEMS * sizeof_T)
    by (apply Z.mul_le_mono_nonneg_r; lia).
  lia.
Qed.

End Sizes.

(** The side conditions on sizes: arithmetic, with the bounds on
    [MAX_ELEMS] and on the byte count of a doubled capacity. *)
Ltac solve_fits :=
  first
    [ done
    | lia
    | pose proof MAX_ELEMS_bounds; lia
    | apply byte_size_twice; pose proof MAX_ELEMS_bounds; lia ].

Section Proofs.

Context {T : Type} `{ElemTraits T}.
Variable throws : list (event T) → action T → bool.
Variable debug : bool.

Local Abbreviation World := (World T).
Local Abbreviation step_spec := (step_spec throws).
Local Abbreviation frame := (frame (T := T)).

(** ** Cells *)

Lemma insert_middle {A} (pre post : list A) (x y : A) :
  <[length pre := y]> (pre ++ x :: post) = pre ++ y :: post.
Proof. induction pre as [|a pre IH]; simpl; [done | by rewrite IH]. Qed.

Lemma heap_lookup_lt (w : World) b bl :
  heap w !! b = Some bl → (b < length (heap w))%nat.
Proof. intros Hb. by eapply lookup_lt_Some. Qed.

Lemma read_cell_middle (w : World) b pre c post o :
  heap w !! b = Some (Block (pre ++ c :: post)) →
  o = Z.of_nat (length pre) →
  read_cell (Ptr (Some b) o) w = Ok c w.
Proof.
  intros Hb ->. unfold read_cell, cells_of. simpl. rewrite Hb.
  rewrite (proj2 (Z.leb_le _ _)) by lia.
  rewrite Nat2Z.id. by rewrite list_lookup_middle.
Qed.

Lemma write_cell_middle (w : World) b pre c c' post o :
  heap w !! b = Some (Block (pre ++ c :: post)) →
  o = Z.of_nat (length pre) →
  write_cell (Ptr (Some b) o) c' w =
    Ok tt {| heap := <[b := Block (pre ++ c' :: post)]> (heap w);
             vecs := vecs w; trace := trace w |}.
Proof.
  intros Hb ->. unfold write_cell, cells_of, set_block. simpl. rewrite Hb.
  rewrite Nat2Z.id, insert_middle.
  rewrite (proj2 (Z.leb_le _ _)) by lia.
  rewrite (proj2 (Z.ltb_lt _ _)); [done |].
  rewrite length_app. simpl. lia.
Qed.

Lemma load_middle (w : World) b pre v post o :
  heap w !! b = Some (Block (pre ++ Live v :: post)) →
  o = Z.of_nat (length pre) →
  load (Ptr (Some b) o) w = Ok v w.
Proof.
  intros Hb Ho. unfold load, bind. by rewrite (read_cell_middle _ _ _ _ _ _ Hb Ho).
Qed.

Lemma Destroy_middle (w : World) b pre v post o :
  heap w !! b = Some (Block (pre ++ Live v :: post)) →
  o = Z.of_nat (length pre) →
  Destroy (Ptr (Some b) o) w =
    Ok tt {| heap := <[b := Block (pre ++ Raw :: post)]> (heap w);
             vecs := vecs w;
             trace := trace w ++ [EvDtor (Ptr (Some b) o)] |}.
Proof.
  intros Hb Ho. unfold Destroy, bind.
  rewrite (read_cell_middle _ _ _ _ _ _ Hb Ho).
  by rewrite (write_cell_middle _ _ _ _ Raw _ _ Hb Ho).
Qed.

Lemma Destroy_raw (w : World) b pre post o :
  heap w !! b = Some (Block (pre ++ Raw :: post)) →
  o = Z.of_nat (length pre) →
  Destroy (Ptr (Some b) o) w = Undefined.
Proof.
  intros Hb Ho. unfold Destroy, bind.
  by rewrite (read_cell_middle _ _ _ _ _ _ Hb Ho).
Qed.

(** Placement [new] on a cell of a live block: it throws when the oracle
    says so, and constructs the object otherwise. *)
Lemma construct_at_middle (w : World) b pre c0 post o (c : ctor T) :
  heap w !! b = Some (Block (pre ++ c0 :: post)) →
  o = Z.of_nat (length pre) →
  construct_at throws (Ptr (Some b) o) c w =
    if can_throw (ACtor c) && throws (trace w) (ACtor c)
    then Throw elem_exception
           {| heap := heap w; vecs := vecs w;
              trace := trace w ++ [EvThrow (ACtor c)] |}
    else Ok tt {| heap := <[b := Block (pre ++ Live (built c) :: post)]> (heap w);
                  vecs := vecs w;
                  trace := trace w ++ [EvCtor c (Ptr (Some b) o)] |}.
Proof.
  intros Hb Ho. unfold construct_at, bind.
  rewrite (read_cell_middle _ _ _ _ _ _ Hb Ho).
  unfold may_throw.
  destruct (can_throw (ACtor c) && throws (trace w) (ACtor c)); [done |].
  by rewrite (write_cell_middle _ _ _ _ (Live (built c)) _ _ Hb Ho).
Qed.

(** ** Destruction loops *)

Lemma destroy_loop_spec b o post : ∀ (vs : list T) pre (w : World) i,
  heap w !! b = Some (Block (pre ++ (Live <$> vs) ++ post)) →
  o + i = Z.of_nat (length pre) →
  destroy_loop (Ptr (Some b) o) i (length vs) w =
    Ok tt {| heap := <[b := Block (pre ++ replicate (length vs) Raw ++ post)]> (heap w);
             vecs := vecs w;
             trace := trace w ++ dtor_events (Ptr (Some b) o) i (length vs) |}.
Proof.
  induction vs as [|v vs IH]; intros pre w i Hb Hi; simpl.
  - unfold ret. destruct w; simpl in *. f_equal. f_equal.
    + symmetry. by apply list_insert_id.
    + by rewrite app_nil_r.
  - unfold bind. change (Ptr (Some b) o +ₚ i) with (Ptr (Some b) (o + i)).
    simpl in Hb. rewrite (Destroy_middle _ _ _ _ _ _ Hb Hi).
    rewrite (IH (pre ++ [Raw])).
    + simpl. f_equal. f_equal.
      * by rewrite list_insert_insert_eq, <- app_assoc.
      * by rewrite <- app_assoc.
    + simpl. rewrite list_lookup_insert_eq by (by eapply heap_lookup_lt).
      by rewrite <- app_assoc.
    + rewrite length_app. simpl. lia.
Qed.

Lemma destroy_n_spec b o post (vs : list T) pre (w : World) n :
  heap w !! b = Some (Block (pre ++ (Live <$> vs) ++ post)) →
  o = Z.of_nat (length pre) →
  n = Z.of_nat (length vs) →
  destroy_n (Ptr (Some b) o) n w =
    Ok tt {| heap := <[b := Block (pre ++ replicate (length vs) Raw ++ post)]> (heap w);
             vecs := vecs w;
             trace := trace w ++ dtor_events (Ptr (Some b) o) 0 (length vs) |}.
Proof.
  intros Hb Ho ->. unfold destroy_n. rewrite Nat2Z.id.
  apply destroy_loop_spec; [done | lia].
Qed.

Lemma destroy_spec b o post (vs : list T) pre (w : World) i :
  heap w !! b = Some (Block (pre ++ (Live <$> vs) ++ post)) →
  o = Z.of_nat (length pre) →
  i = Z.of_nat (length vs) →
  destroy (Ptr (Some b) o) (Ptr (Some b) (o + i)) w =
    Ok tt {| heap := <[b := Block (pre ++ replicate (length vs) Raw ++ post)]> (heap w);
             vecs := vecs w;
             trace := trace w ++ dtor_events (Ptr (Some b) o) 0 (length vs) |}.
Proof.
  intros Hb Ho Hi. unfold destroy, bind, range_length. simpl.
  rewrite bool_decide_eq_true_2 by done.
  rewrite (proj2 (Z.leb_le _ _)) by lia. simpl. unfold ret.
  apply destroy_n_spec; [done | done | lia].
Qed.

Lemma destroy_n_zero (p : ptr) (w : World) : destroy_n p 0 w = Ok tt w.
Proof. done. Qed.

(** ** Transfers into fresh storage *)

Lemma copy_construct_step : step_spec (copy_construct throws) CopyCtor id.
Proof.
  intros w bs bd spre v spost dpre c0 dpost so do_ Hne Hs Hd Hso Hdo.
  unfold copy_construct, bind. rewrite (load_middle _ _ _ _ _ _ Hs Hso).
  rewrite (construct_at_middle _ _ _ _ _ _ _ Hd Hdo).
  destruct (can_throw _ && _); [done |]. simpl.
  do 2 f_equal. symmetry. apply list_insert_id.
  by rewrite list_lookup_insert_ne.
Qed.

Lemma move_construct_step : step_spec (move_construct throws) MoveCtor moved_from.
Proof.
  intros w bs bd spre v spost dpre c0 dpost so do_ Hne Hs Hd Hso Hdo.
  unfold move_construct, bind. rewrite (load_middle _ _ _ _ _ _ Hs Hso).
  rewrite (construct_at_middle _ _ _ _ _ _ _ Hd Hdo).
  destruct (can_throw _ && _); [done |].
  erewrite write_cell_middle; [done | | done].
  simpl. by rewrite list_lookup_insert_ne.
Qed.

Lemma insert_insert_collapse {A} (h : list A) bs bd x y x' y' :
  bs ≠ bd →
  <[bs := x]> (<[bd := y]> (<[bs := x']> (<[bd := y']> h))) = <[bs := x]> (<[bd := y]> h).
Proof.
  intros Hne.
  rewrite (list_insert_insert_ne _ bd bs y x') by done.
  by rewrite !list_insert_insert_eq.
Qed.

Lemma fresh_block_update {A} (h : list A) b x y z z' :
  (b < length h)%nat →
  <[length h := z]> (<[b := x]> (<[length h := y]> (h ++ [z']))) = <[b := x]> h ++ [z].
Proof.
  intros Hb.
  rewrite (list_insert_insert_ne _ b (length h)) by lia.
  rewrite list_insert_insert_eq, insert_app_l by done.
  rewrite <- (length_insert h b x) at 1.
  by rewrite (insert_middle _ []).
Qed.

Lemma replicate_split {A} (x : A) (k n : nat) :
  (k ≤ n)%nat → replicate k x ++ replicate (n - k) x = replicate n x.
Proof. intros Hk. rewrite <- replicate_add. f_equal. lia. Qed.

Lemma transfer_loop_spec step mk sa :
  step_spec step mk sa →
  ∀ bs bd spre0 spost dpre0 dpost so do_,
  bs ≠ bd → so = Z.of_nat (length spre0) → do_ = Z.of_nat (length dpre0) →
  ∀ (todo done : list T) (w : World) scs dcs,
    heap w !! bs = Some (Block scs) →
    scs = spre0 ++ (Live <$> (sa <$> done)) ++ (Live <$> todo) ++ spost →
    heap w !! bd = Some (Block dcs) →
    dcs = dpre0 ++ (Live <$> done) ++ replicate (length todo) Raw ++ dpost →
    match uninitialized_loop step (Ptr (Some bs) so) (Ptr (Some bd) do_)
            (Z.of_nat (length done)) (length todo) w with
    | Ok _ w' =>
        w' = {| heap := <[bs := Block (spre0 ++ (Live <$> (sa <$> (done ++ todo))) ++ spost)]>
                          (<[bd := Block (dpre0 ++ (Live <$> (done ++ todo)) ++ dpost)]> (heap w));
                vecs := vecs w;
                trace := trace w ++
                  ctor_events mk (Ptr (Some bd) do_) (Z.of_nat (length done)) todo |}
    | Throw e w' =>
        e = elem_exception ∧
        ∃ t1 v t2, todo = t1 ++ v :: t2 ∧
          throws (trace w ++ ctor_events mk (Ptr (Some bd) do_) (Z.of_nat (length done)) t1)
                 (ACtor (mk v)) = true ∧
          w' = {| heap := <[bs := Block (spre0 ++ (Live <$> (sa <$> (done ++ t1))) ++
                                         (Live <$> (v :: t2)) ++ spost)]>
                            (<[bd := Block (dpre0 ++
                                 replicate (length done + length todo) Raw ++ dpost)]> (heap w));
                  vecs := vecs w;
                  trace := trace w ++
                    ctor_events mk (Ptr (Some bd) do_) (Z.of_nat (length done)) t1 ++
                    [EvThrow (ACtor (mk v))] ++
                    dtor_events (Ptr (Some bd) do_) 0 (length done + length t1) |}
    | _ => False
    end.
Proof.
  intros Hstep bs bd spre0 spost dpre0 dpost so do_ Hne Hso Hdo.
  induction todo as [|v todo IH]; intros done w scs dcs Hs Hscs Hd Hdcs.
  - simpl. unfold ret. destruct w as [h vs tr]; simpl in *. f_equal.
    + rewrite !app_nil_r. subst scs dcs. simpl in Hd.
      rewrite (list_insert_id h bd) by done. by rewrite list_insert_id.
    + by rewrite app_nil_r.
  - simpl. unfold bind at 1. unfold try_catch.
    change (Ptr (Some bs) so +ₚ Z.of_nat (length done))
      with (Ptr (Some bs) (so + Z.of_nat (length done))).
    change (Ptr (Some bd) do_ +ₚ Z.of_nat (length done))
      with (Ptr (Some bd) (do_ + Z.of_nat (length done))).
    assert (Hs' : heap w !! bs =
      Some (Block ((spre0 ++ (Live <$> (sa <$> done))) ++ Live v :: ((Live <$> todo) ++ spost)))).
    { rewrite Hs, Hscs. by rewrite <- app_assoc. }
    assert (Hd' : heap w !! bd =
      Some (Block ((dpre0 ++ (Live <$> done)) ++ Raw :: (replicate (length todo) Raw ++ dpost)))).
    { rewrite Hd, Hdcs. by rewrite <- app_assoc. }
    rewrite (Hstep w bs bd _ _ _ _ _ _ _ _ Hne Hs' Hd')
      by (rewrite length_app, !length_fmap; lia).
    destruct (can_throw (ACtor (mk v)) && throws (trace w) (ACtor (mk v))) eqn:Ethrow.
    + (* the constructor throws: what was built is destroyed *)
      unfold bind at 1.
      erewrite (destroy_spec bd do_ _ done dpre0);
        [ | simpl; rewrite Hd, Hdcs; reflexivity | done | reflexivity ].
      unfold throw. split; [done |].
      exists [], v, todo. split; [done |]. split.
      { simpl. rewrite app_nil_r. by apply andb_true_iff in Ethrow as [_ ->]. }
      simpl. f_equal.
      * rewrite app_nil_r.
        rewrite (list_insert_id _ bs).
        { by rewrite replicate_add, <- app_assoc. }
        rewrite list_lookup_insert_ne by done. rewrite Hs'. by rewrite <- app_assoc.
      * rewrite Nat.add_0_r. by rewrite <- app_assoc.
    + (* the constructor returns: go on with the next element *)
      set (w1 := {| heap := _; vecs := _; trace := _ |}).
      assert (Hlen : Z.of_nat (length (done ++ [v])) = Z.of_nat (length done) + 1)
        by (rewrite length_app; simpl; lia).
      rewrite <- Hlen.
      assert (Hb : (bd < length (heap w))%nat) by (by eapply heap_lookup_lt).
      assert (Hb' : (bs < length (heap w))%nat) by (by eapply heap_lookup_lt).
      assert (Hs1 : heap w1 !! bs = Some (Block
        ((spre0 ++ (Live <$> (sa <$> done))) ++ Live (sa v) :: ((Live <$> todo) ++ spost)))).
      { simpl. by rewrite list_lookup_insert_eq by (by rewrite length_insert). }
      assert (Hd1 : heap w1 !! bd = Some (Block
        ((dpre0 ++ (Live <$> done)) ++ Live v :: (replicate (length todo) Raw ++ dpost)))).
      { simpl. rewrite list_lookup_insert_ne by done.
        by rewrite list_lookup_insert_eq by done. }
      assert (IH' := λ E1 E2, IH (done ++ [v]) w1 _ _ Hs1 E1 Hd1 E2).
      specialize (IH' ltac:(by rewrite !fmap_app, <- !app_assoc)
                      ltac:(by rewrite !fmap_app, <- !app_assoc)).
      clear IH. rename IH' into IH.
      destruct (uninitialized_loop _ _ _ _ _ w1) as [[] w' | e w' | |]; try done.
      * rewrite IH. simpl. f_equal.
        -- rewrite insert_insert_collapse by done. rewrite <- !app_assoc. reflexivity.
        -- by rewrite Hlen, <- app_assoc.
      * destruct IH as [-> (t1 & v' & t2 & -> & Hthrow & ->)].
        split; [done |]. exists (v :: t1), v', t2. split; [done |]. split.
        { rewrite Hlen in Hthrow. simpl in *. by rewrite <- app_assoc in Hthrow. }
        rewrite Hlen. simpl. f_equal.
        -- rewrite insert_insert_collapse by done.
           rewrite <- !app_assoc. simpl.
           rewrite !length_app. simpl.
           by replace (length done + 1 + (length t1 + S (length t2)))%nat
             with (length done + S (length t1 + S (length t2)))%nat by lia.
        -- rewrite <- !app_assoc. simpl. rewrite !length_app. simpl.
           by replace (length done + 1 + length t1)%nat
             with (length done + S (length t1))%nat by lia.
Qed.

(** ** Value-initialisation of fresh storage *)

Lemma value_loop_spec bd dpre0 dpost do_ (first : ptr) :
  do_ = Z.of_nat (length dpre0) →
  ∀ (k j : nat) (w : World) dcs,
    heap w !! bd = Some (Block dcs) →
    dcs = dpre0 ++ (Live <$> replicate j value_init) ++ replicate k Raw ++ dpost →
    match uninitialized_loop (λ _ dst, construct_at throws dst ValueCtor)
            first (Ptr (Some bd) do_) (Z.of_nat j) k w with
    | Ok _ w' =>
        w' = {| heap := <[bd := Block (dpre0 ++ (Live <$> replicate (j + k) value_init)
                                         ++ dpost)]> (heap w);
                vecs := vecs w;
                trace := trace w ++
                  ctor_events (λ _, ValueCtor) (Ptr (Some bd) do_) (Z.of_nat j)
                    (replicate k value_init) |}
    | Throw e w' =>
        e = elem_exception ∧
        ∃ k1, (k1 < k)%nat ∧
          throws (trace w ++ ctor_events (λ _, ValueCtor) (Ptr (Some bd) do_) (Z.of_nat j)
                               (replicate k1 value_init))
                 (ACtor ValueCtor) = true ∧
          w' = {| heap := <[bd := Block (dpre0 ++ replicate (j + k) Raw ++ dpost)]> (heap w);
                  vecs := vecs w;
                  trace := trace w ++
                    ctor_events (λ _, ValueCtor) (Ptr (Some bd) do_) (Z.of_nat j)
                      (replicate k1 value_init) ++
                    [EvThrow (ACtor ValueCtor)] ++
                    dtor_events (Ptr (Some bd) do_) 0 (j + k1) |}
    | _ => False
    end.
Proof.
  intros Hdo.
  induction k as [|k IH]; intros j w dcs Hd Hdcs.
  - simpl. unfold ret. destruct w as [h vs tr]; simpl in *. f_equal.
    + rewrite Nat.add_0_r. subst dcs. by rewrite list_insert_id.
    + by rewrite app_nil_r.
  - simpl. unfold bind at 1. unfold try_catch.
    change (Ptr (Some bd) do_ +ₚ Z.of_nat j) with (Ptr (Some bd) (do_ + Z.of_nat j)).
    assert (Hd' : heap w !! bd =
      Some (Block ((dpre0 ++ (Live <$> replicate j value_init)) ++
                   Raw :: (replicate k Raw ++ dpost)))).
    { rewrite Hd, Hdcs. by rewrite <- app_assoc. }
    rewrite (construct_at_middle _ _ _ _ _ _ _ Hd')
      by (rewrite length_app, length_fmap, length_replicate; lia).
    destruct (can_throw (ACtor ValueCtor) && throws (trace w) (ACtor ValueCtor)) eqn:Ethrow.
    + unfold bind at 1.
      erewrite (destroy_spec bd do_ _ (replicate j value_init) dpre0);
        [ | simpl; rewrite Hd, Hdcs; reflexivity | done
          | by rewrite length_replicate ].
      unfold throw. split; [done |].
      exists 0%nat. split; [lia |]. split.
      { simpl. rewrite app_nil_r. by apply andb_true_iff in Ethrow as [_ ->]. }
      rewrite length_replicate. simpl. f_equal.
      * by rewrite replicate_add, <- app_assoc.
      * rewrite Nat.add_0_r. by rewrite <- app_assoc.
    + set (w1 := {| heap := _; vecs := _; trace := _ |}).
      assert (Hlen : Z.of_nat (S j) = Z.of_nat j + 1) by lia.
      rewrite <- Hlen.
      assert (Hb : (bd < length (heap w))%nat) by (by eapply heap_lookup_lt).
      assert (Hd1 : heap w1 !! bd = Some (Block
        ((dpre0 ++ (Live <$> replicate j value_init)) ++
         Live value_init :: (replicate k Raw ++ dpost)))).
      { simpl. by rewrite list_lookup_insert_eq by done. }
      assert (Hsnoc : replicate (S j) value_init = replicate j value_init ++ [value_init]).
      { clear. induction j; simpl; [done | by f_equal]. }
      assert (IH' := λ E, IH (S j) w1 _ Hd1 E).
      specialize (IH' ltac:(by rewrite Hsnoc, !fmap_app, <- !app_assoc)).
      clear IH. rename IH' into IH.
      destruct (uninitialized_loop _ _ _ _ _ w1) as [[] w' | e w' | |]; try done.
      * rewrite IH. simpl. f_equal.
        -- rewrite list_insert_insert_eq.
           by replace (j + S k)%nat with (S (j + k))%nat by lia.
        -- by rewrite Hlen, <- app_assoc.
      * destruct IH as [-> (k1 & Hk1 & Hthrow & ->)].
        split; [done |]. exists (S k1). split; [lia |]. split.
        { rewrite Hlen in Hthrow. simpl in *. by rewrite <- app_assoc in Hthrow. }
        rewrite Hlen. simpl. f_equal.
        -- rewrite list_insert_insert_eq.
           by replace (j + S k)%nat with (S (j + k))%nat by lia.
        -- rewrite <- !app_assoc. simpl.
           by replace (j + S k1)%nat with (S (j + k1))%nat by lia.
Qed.

Lemma transfer_step_spec :
  step_spec (transfer_step throws) transfer_ctor source_after.
Proof.
  unfold transfer_step, transfer_ctor, source_after.
  destruct use_move; [apply move_construct_step | apply copy_construct_step].
Qed.

Lemma SafeCopyingOrMoving_loop from n to :
  SafeCopyingOrMoving throws from n to =
  uninitialized_loop (transfer_step throws) from to 0 (Z.to_nat n).
Proof.
  unfold SafeCopyingOrMoving, transfer_step, uninitialized_move_n, uninitialized_copy_n.
  by destruct use_move.
Qed.

(** ** Allocation *)

(** What [RawMemory(n)] does for any [n] other than 0: the request is
    for [n * sizeof(T)] bytes cut to a [size_t], whatever [n] is. *)
Lemma RawMemory_new_any (w : World) n :
  n ≠ 0 →
  RawMemory_new throws n w =
    if (PTRDIFF_MAX <? size_t (byte_size n)) ||
       throws (trace w) (AAlloc (size_t (byte_size n)))
    then Throw bad_alloc
           {| heap := heap w; vecs := vecs w;
              trace := trace w ++ [EvThrow (AAlloc (size_t (byte_size n)))] |}
    else Ok {| buffer_ := Ptr (Some (length (heap w))) 0; capacity_ := n |}
           {| heap := heap w ++
                [Block (replicate (Z.to_nat (size_t (byte_size n) / sizeof_T)) Raw)];
              vecs := vecs w;
              trace := trace w ++ [EvAlloc (size_t (byte_size n)) (length (heap w))] |}.
Proof.
  intros Hn. unfold RawMemory_new, Allocate, bind.
  rewrite (proj2 (Z.eqb_neq n 0)) by lia.
  unfold operator_new, byte_size. by destruct (_ || _).
Qed.

(** When the byte count is not cut, the block has room for [n] objects. *)
Lemma RawMemory_new_spec (w : World) n :
  0 < n → byte_size n < SIZE_MOD →
  RawMemory_new throws n w =
    if (MAX_ELEMS <? n) || throws (trace w) (AAlloc (byte_size n))
    then Throw bad_alloc
           {| heap := heap w; vecs := vecs w;
              trace := trace w ++ [EvThrow (AAlloc (byte_size n))] |}
    else Ok {| buffer_ := Ptr (Some (length (heap w))) 0; capacity_ := n |}
           {| heap := heap w ++ [Block (replicate (Z.to_nat n) Raw)];
              vecs := vecs w;
              trace := trace w ++ [EvAlloc (byte_size n) (length (heap w))] |}.
Proof.
  intros Hn Hfit. rewrite RawMemory_new_any by lia.
  rewrite size_t_id by (split; [apply byte_size_nonneg; lia | done]).
  rewrite byte_size_cells.
  replace (PTRDIFF_MAX <? byte_size n) with (MAX_ELEMS <? n); [done |].
  pose proof (MAX_ELEMS_spec n).
  destruct (PTRDIFF_MAX <? byte_size n) eqn:E.
  - apply Z.ltb_lt in E. apply Z.ltb_lt. lia.
  - apply Z.ltb_ge in E. apply Z.ltb_ge. tauto.
Qed.

Lemma RawMemory_delete_block (w : World) b cs c :
  heap w !! b = Some (Block cs) →
  RawMemory_delete {| buffer_ := Ptr (Some b) 0; capacity_ := c |} w =
    Ok tt {| heap := <[b := Freed cs]> (heap w); vecs := vecs w;
             trace := trace w ++ [EvDealloc b] |}.
Proof.
  intros Hb. unfold RawMemory_delete, Deallocate, operator_delete. simpl.
  by rewrite Hb.
Qed.

Lemma RawMemory_delete_null (w : World) c :
  RawMemory_delete {| buffer_ := nullptr; capacity_ := c |} w = Ok tt w.
Proof. done. Qed.

(** ** The store of vectors *)

Lemma get_vec_spec (w : World) this v :
  vecs w !! this = Some v → get_vec this w = Ok v w.
Proof. intros Hv. unfold get_vec. by rewrite Hv. Qed.

Lemma set_data_spec (w : World) this v d :
  vecs w !! this = Some v →
  set_data this d w =
    Ok tt {| heap := heap w;
             vecs := <[this := {| data_ := d; size_ := size_ v |}]> (vecs w);
             trace := trace w |}.
Proof. intros Hv. unfold set_data, bind, get_vec. by rewrite Hv. Qed.

Lemma set_size_spec (w : World) this v n :
  vecs w !! this = Some v →
  set_size this n w =
    Ok tt {| heap := heap w;
             vecs := <[this := {| data_ := data_ v; size_ := n |}]> (vecs w);
             trace := trace w |}.
Proof. intros Hv. unfold set_size, bind, get_vec. by rewrite Hv. Qed.

Lemma get_data_spec (w : World) this v :
  vecs w !! this = Some v → get_data this w = Ok (data_ v) w.
Proof. intros Hv. unfold get_data, bind, get_vec. by rewrite Hv. Qed.

Lemma get_size_spec (w : World) this v :
  vecs w !! this = Some v → get_size this w = Ok (size_ v) w.
Proof. intros Hv. unfold get_size, bind, get_vec. by rewrite Hv. Qed.

Lemma begin_spec (w : World) this v :
  vecs w !! this = Some v → begin this w = Ok (buffer_ (data_ v)) w.
Proof. intros Hv. unfold begin, bind, get_data, bind, get_vec. by rewrite Hv. Qed.

Lemma vecs_lookup_lt (w : World) this v :
  vecs w !! this = Some v → (this < length (vecs w))%nat.
Proof. intros Hv. by eapply lookup_lt_Some. Qed.

(** ** [Reserve] *)

Lemma transfer_loop_unfold a b c :
  (if use_move then uninitialized_move_n throws a b c
   else uninitialized_copy_n throws a b c) =
  uninitialized_loop (transfer_step throws) a c 0 (Z.to_nat b).
Proof.
  unfold transfer_step, uninitialized_move_n, uninitialized_copy_n.
  by destruct use_move.
Qed.

Lemma source_after_copy (vs : list T) :
  use_move = false → source_after <$> vs = vs.
Proof.
  intros E. unfold source_after. rewrite E.
  induction vs; simpl; [done | by f_equal].
Qed.

(** [Reserve] beyond the capacity, when the block that [operator new]
    returns has room for the elements there are.  The block has
    [size_t(n * sizeof(T)) / sizeof(T)] cells, which is [n] unless the
    product was cut. *)
Lemma Reserve_grow_any (w : World) this vs cap n :
  holds w this vs cap → cap < n →
  let size := size_t (byte_size n) in
  let m := Z.to_nat (size / sizeof_T) in
  let bnew := length (heap w) in
  (length vs ≤ m)%nat →
  match Reserve throws this n w with
  | Ok _ w' =>
      size ≤ PTRDIFF_MAX ∧
      throws (trace w) (AAlloc size) = false ∧
      ∃ v, vecs w !! this = Some v ∧
        vecs w' = <[this := {| data_ := {| buffer_ := Ptr (Some bnew) 0;
                                            capacity_ := n |};
                               size_ := size_ v |}]> (vecs w) ∧
        heap w' !! bnew =
          Some (Block ((Live <$> vs) ++ replicate (m - length vs) Raw)) ∧
        trace w' = trace w ++ EvAlloc size bnew ::
          ctor_events transfer_ctor (Ptr (Some bnew) 0) 0 vs ++
          dtor_events (buffer_ (data_ v)) 0 (length vs) ++
          release_events (buffer_ (data_ v))
  | Throw e w' =>
      vecs w' = vecs w ∧
      ((e = bad_alloc ∧ heap w' = heap w ∧
        trace w' = trace w ++ [EvThrow (AAlloc size)] ∧
        (PTRDIFF_MAX < size ∨ throws (trace w) (AAlloc size) = true))
       ∨
       (e = elem_exception ∧
        ∃ t1 v t2, vs = t1 ++ v :: t2 ∧
          throws (trace w ++ EvAlloc size bnew ::
                    ctor_events transfer_ctor (Ptr (Some bnew) 0) 0 t1)
                 (ACtor (transfer_ctor v)) = true ∧
          holds w' this ((source_after <$> t1) ++ v :: t2) cap ∧
          (∃ h, heap w' = h ++ [Freed (replicate m Raw)] ∧
                (use_move = false → h = heap w)) ∧
          trace w' = trace w ++ EvAlloc size bnew ::
            ctor_events transfer_ctor (Ptr (Some bnew) 0) 0 t1 ++
            [EvThrow (ACtor (transfer_ctor v))] ++
            dtor_events (Ptr (Some bnew) 0) 0 (length t1) ++
            [EvDealloc bnew]))
  | _ => False
  end.
Proof.
  intros (v & Hv & Hcap & Hsz & Hbd & Hbuf) Hn size m bnew Hroom.
  unfold Reserve. unfold bind at 1. unfold get_vec. rewrite Hv.
  rewrite (proj2 (Z.leb_gt _ _)) by lia.
  unfold bind at 1. rewrite RawMemory_new_any by lia. fold size. fold m.
  destruct (PTRDIFF_MAX <? size) eqn:Emax.
  { simpl. split; [done |]. left. repeat split; try done. left. lia. }
  destruct (throws (trace w) (AAlloc size)) eqn:Ealloc.
  { simpl. split; [done |]. left. repeat split; try done. by right. }
  simpl orb. cbv iota.
  apply Z.ltb_ge in Emax. fold bnew.
  set (w1 := {| heap := heap w ++ _; vecs := _; trace := _ |}).
  rewrite transfer_loop_unfold.
  unfold bind at 1. unfold unwinding, try_catch.
  cbn [buffer_ capacity_].
  destruct v as [[[[b|] o] c] sz]; simpl in Hcap, Hsz, Hbd, Hbuf; subst c sz.
  - (* the vector owns a block *)
    destruct Hbuf as (-> & Hcap & Hb).
    cbn [data_ buffer_ size_]. rewrite Nat2Z.id.
    assert (Hlt : (b < bnew)%nat) by (by eapply heap_lookup_lt).
    assert (Hne : b ≠ bnew) by lia.
    pose proof (transfer_loop_spec _ _ _ transfer_step_spec b bnew []
      (replicate (Z.to_nat cap - length vs) Raw) []
      (replicate (m - length vs) Raw) 0 0 Hne eq_refl eq_refl
      vs [] w1 _ _
      ltac:(subst w1; simpl; rewrite lookup_app_l by done; exact Hb) eq_refl
      ltac:(subst w1 bnew; simpl; apply list_lookup_middle; done)) as Hloop.
    specialize (Hloop ltac:(simpl; rewrite <- replicate_add; f_equal; lia)).
    simpl in Hloop. change 0 with (Z.of_nat 0) at 3.
    destruct (uninitialized_loop _ _ _ _ _ w1) as [[] w2 | e w2 | |]; try done.
    + (* every element was transferred *)
      subst w2. unfold bind at 1.
      erewrite set_data_spec by exact Hv.
      unfold bind at 1.
      erewrite (destroy_n_spec b 0 _ (source_after <$> vs) []);
        [ | simpl; rewrite list_lookup_insert_eq
                by (rewrite length_insert, length_app; simpl; lia);
            reflexivity
          | done | by rewrite length_fmap ].
      erewrite RawMemory_delete_block;
        [ | simpl; rewrite list_lookup_insert_eq
                by (rewrite !length_insert, length_app; simpl; lia);
            reflexivity ].
      split; [done | split; [done |]].
      eexists. split; [reflexivity |]. simpl.
      split; [done |]. split.
      * rewrite !list_insert_insert_eq.
        rewrite list_lookup_insert_ne by done.
        by rewrite list_lookup_insert_eq by (rewrite length_app; simpl; lia).
      * rewrite length_fmap, <- !app_assoc. done.
    + (* a constructor threw: the new block is empty again and released *)
      destruct Hloop as [-> (t1 & x & t2 & Hvs & Hthrow & ->)].
      unfold bind at 1.
      erewrite RawMemory_delete_block;
        [ | simpl; rewrite list_lookup_insert_ne by done;
            rewrite list_lookup_insert_eq by (rewrite length_app; simpl; lia);
            reflexivity ].
      unfold throw. simpl. split; [done |]. right. split; [done |].
      exists t1, x, t2. split; [done |]. split.
      { by rewrite <- app_assoc in Hthrow. }
      split; [| split].
      * eexists. split; [exact Hv |]. split; [done |].
        unfold owns. simpl. rewrite length_app, length_fmap. simpl.
        rewrite Hvs, length_app in Hbd. rewrite Hvs, length_app. simpl in *.
        repeat split; try lia.
        rewrite list_lookup_insert_ne by done.
        rewrite list_lookup_insert_eq
          by (rewrite length_insert, length_app; simpl; lia).
        rewrite fmap_app, <- app_assoc. reflexivity.
      * exists (<[b := Block ((Live <$> (source_after <$> t1)) ++ Live x ::
                 (Live <$> t2) ++ replicate (Z.to_nat cap - length vs) Raw)]> (heap w)).
        split.
        -- subst bnew. rewrite fresh_block_update by done.
           rewrite replicate_split by lia. done.
        -- intros E. apply list_insert_id. rewrite Hb, Hvs.
           rewrite (source_after_copy _ E).
           by rewrite fmap_app, <- app_assoc.
      * rewrite <- !app_assoc. done.
  - (* the vector is empty and owns nothing *)
    destruct Hbuf as [Hnull ->]. injection Hnull as ->.
    destruct vs as [|? ?]; [| simpl in Hbd; lia].
    cbn [data_ buffer_ size_]. simpl.
    unfold bind at 1. erewrite set_data_spec by exact Hv.
    split; [done | split; [done |]].
    eexists. split; [reflexivity |]. simpl.
    split; [done |]. split; [| done].
    subst bnew. rewrite (list_lookup_middle _ [] _ _ eq_refl).
    do 3 f_equal. lia.
Qed.

(** The same when the byte count is not cut: the new block has room for
    [n] objects and the vector is valid in it. *)
Lemma Reserve_grow_spec (w : World) this vs cap n :
  holds w this vs cap → cap < n → byte_size n < SIZE_MOD →
  match Reserve throws this n w with
  | Ok _ w' =>
      holds w' this vs n ∧ n ≤ MAX_ELEMS ∧
      throws (trace w) (AAlloc (byte_size n)) = false ∧
      ∃ v, vecs w !! this = Some v ∧
        trace w' = trace w ++ EvAlloc (byte_size n) (length (heap w)) ::
          ctor_events transfer_ctor (Ptr (Some (length (heap w))) 0) 0 vs ++
          dtor_events (buffer_ (data_ v)) 0 (length vs) ++
          release_events (buffer_ (data_ v))
  | Throw e w' =>
      vecs w' = vecs w ∧
      ((e = bad_alloc ∧ heap w' = heap w ∧
        trace w' = trace w ++ [EvThrow (AAlloc (byte_size n))] ∧
        (MAX_ELEMS < n ∨ throws (trace w) (AAlloc (byte_size n)) = true))
       ∨
       (e = elem_exception ∧
        ∃ t1 v t2, vs = t1 ++ v :: t2 ∧
          throws (trace w ++ EvAlloc (byte_size n) (length (heap w)) ::
                    ctor_events transfer_ctor (Ptr (Some (length (heap w))) 0) 0 t1)
                 (ACtor (transfer_ctor v)) = true ∧
          holds w' this ((source_after <$> t1) ++ v :: t2) cap ∧
          (∃ h, heap w' = h ++ [Freed (replicate (Z.to_nat n) Raw)] ∧
                (use_move = false → h = heap w)) ∧
          trace w' = trace w ++ EvAlloc (byte_size n) (length (heap w)) ::
            ctor_events transfer_ctor (Ptr (Some (length (heap w))) 0) 0 t1 ++
            [EvThrow (ACtor (transfer_ctor v))] ++
            dtor_events (Ptr (Some (length (heap w))) 0) 0 (length t1) ++
            [EvDealloc (length (heap w))]))
  | _ => False
  end.
Proof.
  intros Hholds Hn Hfit.
  pose proof Hholds as (v0 & Hv0 & Hcap0 & Hsz0 & Hbd0 & _).
  assert (Hsize : size_t (byte_size n) = byte_size n)
    by (apply size_t_id; split; [apply byte_size_nonneg; lia | done]).
  pose proof (Reserve_grow_any w this vs cap n Hholds Hn) as Hspec.
  cbv zeta in Hspec. rewrite Hsize, byte_size_cells in Hspec.
  specialize (Hspec ltac:(lia)).
  destruct (Reserve throws this n w) as [[] w' | e w' | |]; try done.
  - destruct Hspec as (Hmax & Halloc & v & Hv & Hvecs & Hheap & Htr).
    apply MAX_ELEMS_spec in Hmax.
    split; [| split; [done | split; [done |]]].
    + eexists. split; [| split].
      * rewrite Hvecs. apply list_lookup_insert_eq. by eapply vecs_lookup_lt.
      * done.
      * rewrite Hv in Hv0. injection Hv0 as <-.
        unfold owns. cbn [data_ buffer_ capacity_ size_ base off].
        repeat split; try lia. exact Hheap.
    + exists v. split; [done | exact Htr].
  - destruct Hspec as [Hvecs [(-> & Hheap & Htr & Hwhy) | Hel]].
    + split; [done |]. left. repeat split; try done.
      destruct Hwhy as [Hbig | Hthrow]; [left | by right].
      pose proof (MAX_ELEMS_spec n). lia.
    + split; [done |]. by right.
Qed.

(** *** When the new block is too small

    The byte count [n * sizeof(T)] is computed in [size_t]; when it is
    cut, the block that [operator new] returns has fewer than [n] cells,
    and it may have fewer cells than the vector has elements. *)

Lemma uninitialized_loop_app step first result k1 : ∀ k2 i (w : World),
  uninitialized_loop step first result i (k1 + k2) w =
  bind (uninitialized_loop step first result i k1)
       (λ _, uninitialized_loop step first result (i + Z.of_nat k1) k2) w.
Proof.
  induction k1 as [|k1 IH]; intros k2 i w.
  - simpl. unfold bind, ret. by rewrite Z.add_0_r.
  - cbn [uninitialized_loop Nat.add]. unfold bind.
    destruct (try_catch _ _ w) as [[] w1 | e w1 | |]; try done.
    rewrite IH. unfold bind.
    by replace (i + 1 + Z.of_nat k1) with (i + Z.of_nat (S k1)) by lia.
Qed.

(** Constructing an object behind the last cell of a block. *)
Lemma transfer_step_overrun (w : World) bs bd spre v spost dcs so do_ :
  heap w !! bs = Some (Block (spre ++ Live v :: spost)) →
  heap w !! bd = Some (Block dcs) →
  so = Z.of_nat (length spre) → do_ = Z.of_nat (length dcs) →
  transfer_step throws (Ptr (Some bs) so) (Ptr (Some bd) do_) w = Undefined.
Proof.
  intros Hs Hd Hso ->. unfold transfer_step.
  destruct use_move; unfold move_construct, copy_construct; unfold bind at 1;
    rewrite (load_middle _ _ _ _ _ _ Hs Hso);
    unfold construct_at, bind, read_cell, cells_of; cbn [base off];
    rewrite Hd, (proj2 (Z.leb_le _ _)) by lia;
    rewrite Nat2Z.id, lookup_ge_None_2 by lia; done.
Qed.

(** A transfer into a block that has room for the first elements only:
    unless a constructor throws on one of these, the first element that
    does not fit is constructed behind the block. *)
Lemma transfer_loop_short (w : World) bs bd (t_in t_out : list T) spost :
  bs ≠ bd → t_out ≠ [] →
  heap w !! bs = Some (Block ((Live <$> (t_in ++ t_out)) ++ spost)) →
  heap w !! bd = Some (Block (replicate (length t_in) Raw)) →
  match uninitialized_loop (transfer_step throws) (Ptr (Some bs) 0) (Ptr (Some bd) 0) 0
          (length (t_in ++ t_out)) w with
  | Throw e w' =>
      e = elem_exception ∧
      ∃ t1 v t2, t_in = t1 ++ v :: t2 ∧
        throws (trace w ++ ctor_events transfer_ctor (Ptr (Some bd) 0) 0 t1)
               (ACtor (transfer_ctor v)) = true ∧
        w' = {| heap := <[bs := Block ((Live <$> (source_after <$> t1)) ++
                                       (Live <$> (v :: t2 ++ t_out)) ++ spost)]>
                          (<[bd := Block (replicate (length t_in) Raw)]> (heap w));
                vecs := vecs w;
                trace := trace w ++
                  ctor_events transfer_ctor (Ptr (Some bd) 0) 0 t1 ++
                  [EvThrow (ACtor (transfer_ctor v))] ++
                  dtor_events (Ptr (Some bd) 0) 0 (length t1) |}
  | Undefined => True
  | _ => False
  end.
Proof.
  intros Hne Hout Hs Hd.
  rewrite length_app, uninitialized_loop_app. unfold bind.
  pose proof (transfer_loop_spec _ _ _ transfer_step_spec bs bd []
    ((Live <$> t_out) ++ spost) [] [] 0 0 Hne eq_refl eq_refl
    t_in [] w _ _ Hs
    ltac:(by rewrite fmap_app, <- app_assoc) Hd
    ltac:(by rewrite app_nil_r)) as Hloop.
  simpl in Hloop.
  destruct (uninitialized_loop _ _ _ _ (length t_in) w) as [[] w1 | e w1 | |];
    try done.
  - (* the block is full: the next element goes behind it *)
    subst w1. destruct t_out as [|x t_out]; [done |].
    cbn [length uninitialized_loop]. unfold bind at 1. unfold try_catch.
    unfold ptr_add. cbn [base off]. rewrite !Z.add_0_l.
    erewrite (transfer_step_overrun _ bs bd (Live <$> (source_after <$> t_in)) x
                ((Live <$> t_out) ++ spost) (Live <$> t_in));
      [done | | | by rewrite !length_fmap | by rewrite length_fmap ].
    + cbn [heap].
      rewrite list_lookup_insert_eq
        by (rewrite length_insert; by eapply lookup_lt_Some).
      by rewrite fmap_cons.
    + cbn [heap]. rewrite list_lookup_insert_ne by done.
      rewrite list_lookup_insert_eq by (by eapply lookup_lt_Some).
      by rewrite ?app_nil_r.
  - destruct Hloop as [-> (t1 & x & t2 & -> & Hthrow & ->)].
    split; [done |]. exists t1, x, t2. split; [done |]. split; [done |].
    f_equal. f_equal; [| by rewrite app_nil_r].
    f_equal. rewrite fmap_cons, fmap_app. simpl. by rewrite <- app_assoc.
Qed.

(** [Reserve] when the new block has fewer cells than the vector has
    elements: it cannot return. *)
Lemma Reserve_short_block (w : World) this vs cap n :
  holds w this vs cap → cap < n →
  let size := size_t (byte_size n) in
  let m := Z.to_nat (size / sizeof_T) in
  let bnew := length (heap w) in
  (m < length vs)%nat →
  match Reserve throws this n w with
  | Throw e w' =>
      vecs w' = vecs w ∧
      ((e = bad_alloc ∧ heap w' = heap w ∧
        trace w' = trace w ++ [EvThrow (AAlloc size)])
       ∨
       (e = elem_exception ∧
        ∃ t1 v t2, vs = t1 ++ v :: t2 ∧
          holds w' this ((source_after <$> t1) ++ v :: t2) cap ∧
          (∃ h, heap w' = h ++ [Freed (replicate m Raw)] ∧
                (use_move = false → h = heap w)) ∧
          trace w' = trace w ++ EvAlloc size bnew ::
            ctor_events transfer_ctor (Ptr (Some bnew) 0) 0 t1 ++
            [EvThrow (ACtor (transfer_ctor v))] ++
            dtor_events (Ptr (Some bnew) 0) 0 (length t1) ++
            [EvDealloc bnew]))
  | Undefined => True
  | _ => False
  end.
Proof.
  intros (v & Hv & Hcap & Hsz & Hbd & Hbuf) Hn size m bnew Hshort.
  unfold Reserve. unfold bind at 1. unfold get_vec. rewrite Hv.
  rewrite (proj2 (Z.leb_gt _ _)) by lia.
  unfold bind at 1. rewrite RawMemory_new_any by lia. fold size. fold m.
  destruct (_ || _).
  { simpl. split; [done |]. by left. }
  fold bnew.
  set (w1 := {| heap := heap w ++ _; vecs := _; trace := _ |}).
  rewrite transfer_loop_unfold.
  unfold bind at 1. unfold unwinding, try_catch.
  cbn [buffer_ capacity_].
  destruct v as [[[[b|] o] c] sz]; simpl in Hcap, Hsz, Hbd, Hbuf; subst c sz;
    [| destruct Hbuf as [_ ->]; lia ].
  destruct Hbuf as (-> & Hcap & Hb).
  cbn [data_ buffer_ size_]. rewrite Nat2Z.id.
  assert (Hlt : (b < bnew)%nat) by (by eapply heap_lookup_lt).
  assert (Hne : b ≠ bnew) by lia.
  assert (Hin : length (take m vs) = m) by (rewrite length_take; lia).
  pose proof (transfer_loop_short w1 b bnew (take m vs) (drop m vs)
    (replicate (Z.to_nat cap - length vs) Raw) Hne) as Hloop.
  specialize (Hloop ltac:(intros E; apply (f_equal length) in E;
                          rewrite length_drop in E; simpl in E; lia)).
  specialize (Hloop ltac:(subst w1; simpl; rewrite lookup_app_l by done;
                          by rewrite take_drop)).
  specialize (Hloop ltac:(subst w1 bnew; simpl; rewrite Hin;
                          by apply list_lookup_middle)).
  rewrite take_drop, ?Hin in Hloop.
  destruct (uninitialized_loop _ _ _ _ _ w1) as [[] w2 | e w2 | |]; try done.
  destruct Hloop as [-> (t1 & x & t2 & Htake & Hthrow & ->)].
  assert (Hvs : vs = t1 ++ x :: (t2 ++ drop m vs)).
  { rewrite <- (take_drop m vs) at 1. rewrite Htake.
    by rewrite <- app_assoc. }
  unfold bind at 1.
  erewrite RawMemory_delete_block;
    [ | simpl; rewrite list_lookup_insert_ne by done;
        rewrite list_lookup_insert_eq by (rewrite length_app; simpl; lia);
        reflexivity ].
  unfold throw. simpl. split; [done |]. right. split; [done |].
  exists t1, x, (t2 ++ drop m vs). split; [done |].
  split; [| split].
  - eexists. split; [exact Hv |]. split; [done |].
    pose proof (f_equal length Hvs) as Hlen.
    rewrite length_app in Hlen. simpl in Hlen.
    unfold owns. simpl. rewrite length_app, length_fmap. simpl.
    repeat split; try lia.
    rewrite list_lookup_insert_ne by done.
    rewrite list_lookup_insert_eq
      by (rewrite length_insert, length_app; simpl; lia).
    do 2 f_equal. rewrite (fmap_app Live (source_after <$> t1)), <- app_assoc. simpl.
    repeat f_equal; lia.
  - exists (<[b := Block ((Live <$> (source_after <$> t1)) ++ Live x ::
             (Live <$> (t2 ++ drop m vs)) ++
             replicate (Z.to_nat cap - length vs) Raw)]> (heap w)).
    split.
    + subst bnew. by rewrite fresh_block_update by done.
    + intros E. apply list_insert_id. rewrite Hb. rewrite Hvs at 1.
      rewrite (source_after_copy _ E).
      by rewrite fmap_app, <- app_assoc.
  - rewrite <- !app_assoc. done.
Qed.

(** ** [Swap] *)

(** Two lists of updates agree when they agree at every index. *)
Ltac inserts_eq :=
  apply list_eq; intros ?;
  repeat (rewrite list_lookup_insert; rewrite ?length_insert);
  repeat case_decide; try done; exfalso; intuition lia.

Lemma owns_null_is_empty (w : World) v vs : owns w v vs → null_is_empty v.
Proof.
  intros (_ & _ & Hbuf) Hnull. rewrite Hnull in Hbuf. destruct Hbuf as [Hp Hc].
  destruct v as [[p c] sz]; simpl in *. by subst.
Qed.

Lemma ptr_eqb_null (d : RawMemory) :
  (base (buffer_ d) = None → d = RawMemory_default) →
  ptr_eqb nullptr (buffer_ d) = true → d = RawMemory_default.
Proof.
  intros Hd E. apply bool_decide_eq_true_1 in E. apply Hd. by rewrite <- E.
Qed.

Lemma Swap_spec (w : World) a b va vb :
  a ≠ b →
  vecs w !! a = Some va → vecs w !! b = Some vb →
  null_is_empty va → null_is_empty vb →
  Swap a b w =
    Ok tt {| heap := heap w; vecs := <[b := va]> (<[a := vb]> (vecs w));
             trace := trace w |}.
Proof.
  intros Hne Ha Hb Hna Hnb.
  assert (Hla : (a < length (vecs w))%nat) by (by eapply lookup_lt_Some).
  assert (Hlb : (b < length (vecs w))%nat) by (by eapply lookup_lt_Some).
  destruct va as [da sa], vb as [db sb]. unfold null_is_empty in *. simpl in *.
  unfold Swap, swap_data. unfold bind at 1. unfold bind at 1.
  rewrite (get_data_spec _ _ _ Ha). cbn [data_].
  unfold bind at 1. rewrite (set_data_spec _ _ _ _ Ha). cbn [size_].
  unfold bind at 1. erewrite get_data_spec
    by (cbn [vecs]; by apply list_lookup_insert_eq).
  cbn [data_ buffer_ RawMemory_default].
  unfold bind at 1. erewrite get_data_spec
    by (cbn [vecs]; rewrite list_lookup_insert_ne by done; exact Hb).
  cbn [data_].
  unfold bind at 1.
  (* a.data_ = std::move(b.data_) *)
  assert (Hstep2 :
    (if ptr_eqb nullptr (buffer_ db) then ret tt
     else set_data a db;; set_data b RawMemory_default)
      {| heap := heap w;
         vecs := <[a := {| data_ := RawMemory_default; size_ := sa |}]> (vecs w);
         trace := trace w |} =
    Ok tt {| heap := heap w;
             vecs := <[b := {| data_ := RawMemory_default; size_ := sb |}]>
                       (<[a := {| data_ := db; size_ := sa |}]> (vecs w));
             trace := trace w |}).
  { destruct (ptr_eqb nullptr (buffer_ db)) eqn:E.
    - apply (ptr_eqb_null _ Hnb) in E. subst db. unfold ret. f_equal. f_equal.
      symmetry. apply list_insert_id. by rewrite list_lookup_insert_ne.
    - unfold bind.
      erewrite set_data_spec by (cbn [vecs]; by apply list_lookup_insert_eq).
      erewrite set_data_spec
        by (cbn [vecs]; rewrite !list_lookup_insert_ne by done; exact Hb).
      cbn [heap vecs trace size_]. by rewrite list_insert_insert_eq. }
  change (Ptr None 0) with nullptr. rewrite Hstep2. clear Hstep2.
  unfold bind at 1. erewrite get_data_spec
    by (cbn [vecs]; by apply list_lookup_insert_eq; rewrite length_insert).
  cbn [data_ buffer_ RawMemory_default]. change (Ptr None 0) with nullptr.
  unfold bind at 1.
  (* b.data_ = std::move(tmp) *)
  destruct (ptr_eqb nullptr (buffer_ da)) eqn:E.
  - apply (ptr_eqb_null _ Hna) in E. subst da. unfold ret.
    unfold RawMemory_default at 1. rewrite RawMemory_delete_null.
    unfold swap_size, bind.
    erewrite get_size_spec
      by (cbn [vecs]; rewrite list_lookup_insert_ne by done;
          by apply list_lookup_insert_eq).
    erewrite get_size_spec
      by (cbn [vecs]; by apply list_lookup_insert_eq; rewrite length_insert).
    erewrite set_size_spec
      by (cbn [vecs]; rewrite list_lookup_insert_ne by done;
          by apply list_lookup_insert_eq).
    erewrite set_size_spec
      by (cbn [vecs]; rewrite list_lookup_insert_ne by done;
          by apply list_lookup_insert_eq; rewrite length_insert).
    cbn [heap vecs trace size_ data_]. f_equal. f_equal. inserts_eq.
  - unfold bind at 1.
    erewrite set_data_spec
      by (cbn [vecs]; by apply list_lookup_insert_eq; rewrite length_insert).
    unfold ret. unfold RawMemory_default at 1. rewrite RawMemory_delete_null.
    unfold swap_size, bind.
    erewrite get_size_spec
      by (cbn [vecs]; rewrite !list_lookup_insert_ne by done;
          by apply list_lookup_insert_eq).
    erewrite get_size_spec
      by (cbn [vecs]; by apply list_lookup_insert_eq; rewrite !length_insert).
    erewrite set_size_spec
      by (cbn [vecs]; rewrite !list_lookup_insert_ne by done;
          by apply list_lookup_insert_eq).
    erewrite set_size_spec
      by (cbn [vecs]; rewrite list_lookup_insert_ne by done;
          by apply list_lookup_insert_eq; rewrite !length_insert).
    cbn [heap vecs trace size_ data_]. f_equal. f_equal. inserts_eq.
Qed.

Lemma Reserve_enough (w : World) this v k :
  vecs w !! this = Some v → k ≤ capacity_ (data_ v) →
  Reserve throws this k w = Ok tt w.
Proof.
  intros Hv Hk. unfold Reserve, bind, get_vec. rewrite Hv.
  by rewrite (proj2 (Z.leb_le _ _)) by done.
Qed.

(** ** [Resize] *)

Lemma bind_assoc {A B C} (m : M T A) (k : A → M T B) (h : B → M T C) (w : World) :
  bind (bind m k) h w = bind m (λ x, bind (k x) h) w.
Proof. unfold bind. by destruct (m w). Qed.

Lemma size_t_small z : 0 ≤ z ≤ MAX_ELEMS + 1 → size_t z = z.
Proof.
  intros Hz. apply size_t_id.
  pose proof MAX_ELEMS_bounds. pose proof PTRDIFF_MAX_twice.
  assert (0 ≤ PTRDIFF_MAX) by (by vm_compute). lia.
Qed.

Lemma RawMemory_plus_ok (w : World) d offset :
  offset ≤ capacity_ d →
  RawMemory_plus debug d offset w = Ok (buffer_ d +ₚ offset) w.
Proof.
  intros Ho. unfold RawMemory_plus, bind, assert_.
  rewrite (proj2 (Z.leb_le _ _)) by done. by rewrite andb_false_r.
Qed.

Lemma Resize_shrink_spec (w : World) this vs cap n :
  holds w this vs cap → 0 ≤ n < Z.of_nat (length vs) →
  ∃ w' v, Resize throws debug this n w = Ok tt w' ∧
    vecs w !! this = Some v ∧
    holds w' this (take (Z.to_nat n) vs) cap ∧
    trace w' = trace w ++
      dtor_events (buffer_ (data_ v) +ₚ n) 0 (length vs - Z.to_nat n).
Proof.
  intros (v & Hv & Hcap & Hsz & Hbd & Hbuf) Hn.
  unfold Resize. unfold bind at 1. rewrite (get_vec_spec _ _ _ Hv).
  rewrite (proj2 (Z.ltb_lt _ _)) by lia.
  unfold bind at 1. unfold bind at 1.
  rewrite RawMemory_plus_ok by lia.
  rewrite size_t_small by lia.
  destruct v as [[[[b|] o] c] sz]; simpl in Hcap, Hsz, Hbd, Hbuf; subst c sz.
  - destruct Hbuf as (-> & Hcap & Hb).
    cbn [data_ buffer_ size_ capacity_]. unfold ptr_add. cbn [base off].
    assert (Hlen : length (take (Z.to_nat n) vs) = Z.to_nat n)
      by (rewrite length_take; lia).
    erewrite (destroy_n_spec b (0 + n) _ (drop (Z.to_nat n) vs)
                (Live <$> take (Z.to_nat n) vs));
      [ | rewrite Hb, app_assoc, <- fmap_app, take_drop; reflexivity
        | rewrite length_fmap, Hlen; lia
        | rewrite length_drop; lia ].
    erewrite set_size_spec by exact Hv.
    eexists _, _. split; [reflexivity |]. split; [exact Hv |].
    cbn [heap vecs trace data_ buffer_]. split.
    + eexists. split; [| split].
      * cbn [vecs]. apply list_lookup_insert_eq. by eapply lookup_lt_Some.
      * done.
      * unfold owns. simpl. rewrite Hlen. repeat split; try lia.
        rewrite list_lookup_insert_eq by (by eapply lookup_lt_Some).
        rewrite length_drop, <- replicate_add.
        do 4 f_equal. lia.
    + by rewrite length_drop.
  - destruct Hbuf as [_ ->]. lia.
Qed.

(** The second half of a growing [Resize]: value-construct the slots from
    [size] up to [n], then set the size. *)
Lemma Resize_tail_spec (w : World) this vs cap n :
  holds w this vs cap → Z.of_nat (length vs) ≤ n ≤ cap →
  match bind (v <- get_vec this ;;
              p <- RawMemory_plus debug (data_ v) (size_ v) ;;
              uninitialized_value_construct_n throws p (size_t (n - size_ v)))
             (λ _, set_size this n) w with
  | Ok _ w' =>
      holds w' this (vs ++ replicate (Z.to_nat (n - Z.of_nat (length vs))) value_init) cap ∧
      ∃ v, vecs w !! this = Some v ∧
        trace w' = trace w ++
          ctor_events (λ _, ValueCtor) (buffer_ (data_ v) +ₚ Z.of_nat (length vs)) 0
            (replicate (Z.to_nat (n - Z.of_nat (length vs))) value_init)
  | Throw e w' =>
      holds w' this vs cap ∧ ∃ tr, throws tr (ACtor ValueCtor) = true
  | _ => False
  end.
Proof.
  intros (v & Hv & Hcap & Hsz & Hbd & Hbuf) Hn.
  unfold bind at 1. unfold bind at 1. rewrite (get_vec_spec _ _ _ Hv).
  unfold bind at 1. rewrite RawMemory_plus_ok by lia.
  rewrite Hsz, size_t_small by lia.
  unfold uninitialized_value_construct_n.
  set (k := Z.to_nat (n - Z.of_nat (length vs))).
  destruct v as [[[[b|] o] c] sz]; simpl in Hcap, Hsz, Hbd, Hbuf; subst c sz.
  - destruct Hbuf as (-> & Hcap & Hb).
    cbn [data_ buffer_ size_ capacity_]. unfold ptr_add. cbn [base off].
    assert (Hlb : (b < length (heap w))%nat) by (by eapply lookup_lt_Some).
    assert (Hlt : (this < length (vecs w))%nat) by (by eapply lookup_lt_Some).
    pose proof (value_loop_spec b (Live <$> vs)
      (replicate (Z.to_nat cap - length vs - k) Raw)
      (0 + Z.of_nat (length vs))
      (Ptr (Some b) (0 + Z.of_nat (length vs)))
      ltac:(rewrite length_fmap; lia) k 0%nat w _ Hb) as Hloop.
    specialize (Hloop ltac:(simpl; rewrite replicate_split by lia; reflexivity)).
    change (Z.of_nat 0) with 0 in Hloop.
    destruct (uninitialized_loop _ _ _ _ _ w) as [[] w1 | e w1 | |]; try done.
    + subst w1. erewrite set_size_spec by exact Hv.
      split.
      * eexists. split; [| split].
        -- cbn [vecs]. by apply list_lookup_insert_eq.
        -- done.
        -- unfold owns. simpl. rewrite length_app, length_replicate.
           repeat split; try lia.
           rewrite list_lookup_insert_eq by done.
           rewrite fmap_app, <- app_assoc.
           by replace (Z.to_nat cap - length vs - k)%nat
             with (Z.to_nat cap - (length vs + k))%nat by lia.
      * eexists. split; [exact Hv |]. done.
    + destruct Hloop as [-> (k1 & Hk1 & Hthrow & ->)].
      split; [| by eexists].
      eexists. split; [exact Hv |]. split; [done |].
      unfold owns. simpl. repeat split; try lia.
      rewrite list_lookup_insert_eq by done.
      by rewrite replicate_split by lia.
  - destruct Hbuf as [Hnull ->].
    replace k with 0%nat by lia. simpl.
    erewrite set_size_spec by exact Hv.
    assert (Hlt : (this < length (vecs w))%nat) by (by eapply lookup_lt_Some).
    destruct vs as [|? ?]; [| simpl in Hbd; lia].
    split.
    + eexists. split; [| split].
      * cbn [vecs]. by apply list_lookup_insert_eq.
      * done.
      * unfold owns. simpl. repeat split; try lia; try done.
    + eexists. split; [exact Hv |]. simpl. by rewrite app_nil_r.
Qed.

Lemma Resize_grow_spec (w : World) this vs cap n :
  holds w this vs cap → Z.of_nat (length vs) ≤ n → byte_size n < SIZE_MOD →
  match Resize throws debug this n w with
  | Ok _ w' =>
      holds w' this (vs ++ replicate (Z.to_nat (n - Z.of_nat (length vs))) value_init)
        (Z.max cap n) ∧
      ∃ w1 v1, Reserve throws this n w = Ok tt w1 ∧ vecs w1 !! this = Some v1 ∧
        trace w' = trace w1 ++
          ctor_events (λ _, ValueCtor) (buffer_ (data_ v1) +ₚ Z.of_nat (length vs)) 0
            (replicate (Z.to_nat (n - Z.of_nat (length vs))) value_init)
  | Throw e w' =>
      (MAX_ELEMS < n ∨ ∃ tr a, throws tr a = true) ∧
      ∃ vs' cap', holds w' this vs' cap' ∧ length vs' = length vs
  | _ => False
  end.
Proof.
  intros Hholds Hn Hfit.
  destruct Hholds as (v & Hv & Hcap & Hown).
  assert (Hholds : holds w this vs cap) by (by exists v).
  unfold Resize. unfold bind at 1. rewrite (get_vec_spec _ _ _ Hv).
  destruct Hown as (Hsz & Hbd & Hbuf).
  rewrite (proj2 (Z.ltb_ge _ _)) by lia.
  rewrite bind_assoc. unfold bind at 1.
  destruct (Z_le_gt_dec n cap) as [Hle | Hgt].
  - (* the capacity is enough *)
    rewrite (Reserve_enough _ _ _ _ Hv) by lia.
    pose proof (Resize_tail_spec w this vs cap n Hholds ltac:(lia)) as Htail.
    destruct (bind _ _ w) as [[] w' | e w' | |]; try done.
    + destruct Htail as (Hh & v1 & Hv1 & Htr).
      rewrite Z.max_l by lia. split; [done |].
      by exists w, v1.
    + destruct Htail as (Hh & tr & Hthrow).
      split; [right; by exists tr, (ACtor ValueCtor) |].
      by exists vs, cap.
  - (* a larger block is needed *)
    pose proof (Reserve_grow_spec w this vs cap n Hholds ltac:(lia) Hfit) as Hres.
    destruct (Reserve throws this n w) as [[] w1 | e w1 | |]; try done.
    + destruct Hres as (Hh1 & Hmax & _ & _).
      pose proof (Resize_tail_spec w1 this vs n n Hh1 ltac:(lia)) as Htail.
      destruct (bind _ _ w1) as [[] w' | e w' | |]; try done.
      * destruct Htail as (Hh & v1 & Hv1 & Htr).
        rewrite Z.max_r by lia. split; [done |].
        by exists w1, v1.
      * destruct Htail as (Hh & tr & Hthrow).
        split; [right; by exists tr, (ACtor ValueCtor) |].
        by exists vs, n.
    + destruct Hres as [Hvecs [(-> & Hheap & Htr & Hwhy) | (-> & Hel)]].
      * split.
        -- destruct Hwhy as [? | ?]; [by left | right; by eexists _, _].
        -- exists vs, cap. split; [| done].
           destruct Hholds as (v0 & ? & ? & ?). exists v0.
           rewrite Hvecs. split; [done |]. split; [done |].
           unfold owns. by rewrite Hheap.
      * destruct Hel as (t1 & x & t2 & Hvs & Hthrow & Hh & _).
        split; [right; by eexists _, _ |].
        eexists _, cap. split; [exact Hh |].
        rewrite Hvs, !length_app, length_fmap. done.
Qed.

(** ** Operations on cells leave the vector objects alone *)

Create HintDb frame.

Lemma frame_ret {A} (a : A) : frame (ret a).
Proof. intros w. by simpl. Qed.

Lemma frame_throw {A} (e : exn) : frame (throw (A := A) e).
Proof. intros w. by simpl. Qed.

Lemma frame_undefined {A} : frame (undefined (A := A)).
Proof. by intros w. Qed.

Lemma frame_bind {A B} (m : M T A) (k : A → M T B) :
  frame m → (∀ a, frame (k a)) → frame (bind m k).
Proof.
  intros Hm Hk w. unfold bind. specialize (Hm w).
  destruct (m w) as [a w1 | e w1 | |]; try done.
  specialize (Hk a w1). destruct (k a w1); try done;
    destruct Hm as [E1 ?], Hk as [E2 ?]; (split; [congruence | by etrans]).
Qed.

Lemma frame_try_catch {A} (m : M T A) (h : exn → M T A) :
  frame m → (∀ e, frame (h e)) → frame (try_catch m h).
Proof.
  intros Hm Hh w. unfold try_catch. specialize (Hm w).
  destruct (m w) as [a w1 | e w1 | |]; try done.
  specialize (Hh e w1). destruct (h e w1); try done;
    destruct Hm as [E1 ?], Hh as [E2 ?]; (split; [congruence | by etrans]).
Qed.

Lemma frame_unwinding {A} (cleanup : M T unit) (m : M T A) :
  frame cleanup → frame m → frame (unwinding cleanup m).
Proof.
  intros Hc Hm. apply frame_try_catch; [done |].
  intros e. apply frame_bind; [done |]. intros _. apply frame_throw.
Qed.

Ltac frame_prim :=
  intros w; repeat (case_match; try done); simplify_eq; simpl;
  (split; [done | try done; try (by apply prefix_app_r)]).

Lemma frame_assert c : frame (assert_ debug c).
Proof. unfold assert_. frame_prim. Qed.

Lemma frame_emit e : frame (emit e).
Proof. unfold emit. frame_prim. Qed.

Lemma frame_may_throw a : frame (may_throw throws a).
Proof. unfold may_throw. frame_prim. Qed.

Lemma frame_read_cell p : frame (read_cell p).
Proof. unfold read_cell. frame_prim. Qed.

Lemma frame_write_cell p c : frame (write_cell p c).
Proof. unfold write_cell, set_block. frame_prim. Qed.

Lemma frame_get_vec this : frame (get_vec this).
Proof. unfold get_vec. frame_prim. Qed.

Lemma frame_operator_new n : frame (operator_new throws n).
Proof. unfold operator_new. frame_prim. Qed.

Lemma frame_operator_delete p : frame (operator_delete p).
Proof. unfold operator_delete, ret, undefined. frame_prim. Qed.

Hint Resolve frame_ret frame_throw frame_undefined frame_assert frame_emit
  frame_may_throw frame_read_cell frame_write_cell frame_get_vec
  frame_operator_new frame_operator_delete : frame.

(** Composite computations are framed piece by piece. *)
Ltac frame_auto :=
  repeat first
    [ progress auto with frame
    | apply frame_bind; [| intros ?]
    | apply frame_try_catch; [| intros ?]
    | apply frame_unwinding
    | case_match ].

Lemma frame_load p : frame (load p).
Proof. unfold load. frame_auto. Qed.

Lemma frame_construct_at p c : frame (construct_at throws p c).
Proof. unfold construct_at. frame_auto. Qed.

Lemma frame_Destroy p : frame (Destroy p).
Proof. unfold Destroy. frame_auto. Qed.

Hint Resolve frame_load frame_construct_at frame_Destroy : frame.

Lemma frame_copy_construct src dst : frame (copy_construct throws src dst).
Proof. unfold copy_construct. frame_auto. Qed.

Lemma frame_move_construct src dst : frame (move_construct throws src dst).
Proof. unfold move_construct. frame_auto. Qed.

Lemma frame_destroy_loop first k : ∀ i, frame (destroy_loop first i k).
Proof. induction k; intros i; simpl; frame_auto. Qed.

Lemma frame_range_length first last : frame (range_length first last).
Proof. unfold range_length. frame_auto. Qed.

Hint Resolve frame_copy_construct frame_move_construct frame_destroy_loop
  frame_range_length : frame.

Lemma frame_destroy_n first n : frame (destroy_n first n).
Proof. unfold destroy_n. frame_auto. Qed.

Hint Resolve frame_destroy_n : frame.

Lemma frame_destroy first last : frame (destroy first last).
Proof. unfold destroy. frame_auto. Qed.

Lemma frame_destroy_at p : frame (destroy_at p).
Proof. unfold destroy_at. frame_auto. Qed.

Hint Resolve frame_destroy frame_destroy_at : frame.

Lemma frame_uninitialized_loop step first result k :
  (∀ src dst, frame (step src dst)) →
  ∀ i, frame (uninitialized_loop step first result i k).
Proof. intros Hstep. induction k; intros i; simpl; frame_auto. Qed.

Lemma frame_SafeCopyingOrMoving from n to :
  frame (SafeCopyingOrMoving throws from n to).
Proof.
  unfold SafeCopyingOrMoving, uninitialized_move_n, uninitialized_copy_n.
  destruct use_move; apply frame_uninitialized_loop; auto with frame.
Qed.

Lemma frame_RawMemory_plus d offset : frame (RawMemory_plus debug d offset).
Proof. unfold RawMemory_plus. frame_auto. Qed.

Lemma frame_RawMemory_index d i : frame (RawMemory_index debug d i).
Proof. unfold RawMemory_index. frame_auto. Qed.

Lemma frame_RawMemory_delete d : frame (RawMemory_delete d).
Proof. unfold RawMemory_delete, Deallocate. frame_auto. Qed.

Lemma frame_begin this : frame (begin this).
Proof. unfold begin, get_data. frame_auto. Qed.

Hint Resolve frame_SafeCopyingOrMoving frame_RawMemory_plus frame_RawMemory_index
  frame_RawMemory_delete frame_begin : frame.

(** ** Growth at capacity, whatever throws *)

(** Running a framed computation first: it is enough to go on from any
    state with the same vectors and a longer history. *)
Lemma bind_frame {A B} (m : M T A) (k : A → M T B) (w : World)
    (P : result T B → Prop) :
  frame m →
  (∀ a w', vecs w' = vecs w → trace w `prefix_of` trace w' → P (k a w')) →
  (∀ e w', vecs w' = vecs w → trace w `prefix_of` trace w' → P (Throw e w')) →
  P AssertFail → P Undefined →
  P (bind m k w).
Proof.
  intros Hm Hok Hthrow Ha Hu. unfold bind. specialize (Hm w).
  destruct (m w) as [a w' | e w' | |]; try done.
  - apply Hok; apply Hm.
  - apply Hthrow; apply Hm.
Qed.

Lemma grown_capacity_max cap :
  0 ≤ cap ≤ MAX_ELEMS → grown_capacity cap = Z.max 1 (cap * 2).
Proof.
  intros Hc. unfold grown_capacity.
  destruct (Z.eqb_spec cap 0) as [-> | Hne]; [done |].
  unfold size_t. rewrite Z.mod_small; [lia |].
  pose proof MAX_ELEMS_bounds. pose proof PTRDIFF_MAX_twice. lia.
Qed.

(** The byte count of the grown capacity of a block that exists is not
    cut. *)
Lemma grown_fits cap :
  0 ≤ cap ≤ MAX_ELEMS → byte_size (Z.max 1 (cap * 2)) < SIZE_MOD.
Proof.
  intros Hc. apply byte_size_twice. pose proof MAX_ELEMS_bounds. lia.
Qed.

(** The part shared by [EmplaceBack] and [Emplace]: the new block is
    allocated, filled, and taken over by the vector. *)
Lemma takeover_grown {A B} (w : World) this v n' (body : RawMemory → M T A)
    (rest : M T unit) (k : unit → M T B) :
  vecs w !! this = Some v →
  0 < n' → byte_size n' < SIZE_MOD →
  (∀ new_data, frame (body new_data)) →
  (∀ w', vecs w' = <[this := {| data_ := {| buffer_ := Ptr (Some (length (heap w))) 0;
                                           capacity_ := n' |};
                               size_ := size_ v |}]> (vecs w) →
         trace w ++ [EvAlloc (byte_size n') (length (heap w))] `prefix_of` trace w' →
         grown this (trace w) (length (heap w)) n' (bind rest k w')) →
  grown this (trace w) (length (heap w)) n'
    (bind (new_data <- RawMemory_new throws n' ;;
           unwinding (RawMemory_delete new_data) (body new_data) ;;
           set_data this new_data ;;
           rest) k w).
Proof.
  intros Hv Hn' Hfit Hbody Hk.
  unfold bind at 1. unfold bind at 1.
  rewrite RawMemory_new_spec by solve_fits.
  destruct (_ || _); [by left |].
  set (w1 := {| heap := _; vecs := _; trace := _ |}).
  set (new_data := {| buffer_ := _; capacity_ := n' |}).
  unfold bind at 1.
  pose proof (frame_unwinding (RawMemory_delete new_data) (body new_data)
                (frame_RawMemory_delete _) (Hbody _) w1) as Hf.
  destruct (unwinding _ _ w1) as [a w2 | e w2 | |];
    [| right; apply Hf | done | done].
  destruct Hf as [Hvecs2 Htr2]. cbn [vecs trace w1] in Hvecs2, Htr2.
  unfold bind at 1.
  erewrite set_data_spec by (rewrite Hvecs2; exact Hv).
  apply Hk; [by rewrite Hvecs2 | done].
Qed.

Lemma EmplaceBack_grows (w : World) this vs cap args :
  holds w this vs cap → Z.of_nat (length vs) = cap →
  grown this (trace w) (length (heap w)) (Z.max 1 (cap * 2))
    (EmplaceBack throws debug this args w).
Proof.
  intros (v & Hv & Hcap & Hsz & Hbd & Hbuf) Hfull.
  unfold EmplaceBack. unfold bind at 1. rewrite (get_vec_spec _ _ _ Hv).
  rewrite (proj2 (Z.eqb_eq _ _)) by lia.
  rewrite grown_capacity_max by lia.
  replace (size_ v) with cap by lia.
  eapply (takeover_grown _ _ v);
    [done | lia | apply grown_fits; lia | intros; frame_auto |].
  intros w' Hvecs Htr.
  apply bind_frame; [frame_auto | | | done | done].
  - intros _ w2 Hvecs2 Htr2.
    assert (Hlt : (this < length (vecs w))%nat) by (by eapply lookup_lt_Some).
    unfold bind at 1.
    erewrite set_size_spec
      by (rewrite Hvecs2, Hvecs; by apply list_lookup_insert_eq).
    unfold bind at 1.
    erewrite get_vec_spec
      by (cbn [vecs]; apply list_lookup_insert_eq; by rewrite Hvecs2, Hvecs, length_insert).
    unfold RawMemory_index, bind, assert_, ret.
    destruct (debug && _); [done |]. simpl. split.
    + eexists. split;
        [ apply list_lookup_insert_eq; by rewrite Hvecs2, Hvecs, length_insert
        | reflexivity ].
    + by etrans.
  - intros e w2 _ Htr2. right. by etrans.
Qed.

Lemma Emplace_grows (w : World) this vs cap pos args :
  holds w this vs cap → Z.of_nat (length vs) = cap →
  grown this (trace w) (length (heap w)) (Z.max 1 (cap * 2))
    (Emplace throws debug this pos args w).
Proof.
  intros (v & Hv & Hcap & Hsz & Hbd & Hbuf) Hfull.
  unfold Emplace. unfold bind at 1. unfold cbegin.
  rewrite (begin_spec _ _ _ Hv).
  unfold bind at 1. unfold distance.
  destruct (bool_decide _); [| done]. unfold ret.
  unfold bind at 1. rewrite (get_vec_spec _ _ _ Hv).
  rewrite (proj2 (Z.eqb_eq _ _)) by lia.
  rewrite grown_capacity_max by lia.
  replace (size_ v) with cap by lia.
  eapply (takeover_grown _ _ v);
    [done | lia | apply grown_fits; lia | intros; frame_auto |].
  intros w' Hvecs Htr.
  assert (Hlt : (this < length (vecs w))%nat) by (by eapply lookup_lt_Some).
  rewrite bind_assoc.
  apply bind_frame; [frame_auto | | | done | done].
  - intros _ w2 Hvecs2 Htr2.
    rewrite bind_assoc. unfold bind at 1.
    erewrite set_size_spec
      by (rewrite Hvecs2, Hvecs; by apply list_lookup_insert_eq).
    set (w3 := {| heap := _; vecs := _; trace := _ |}).
    apply (bind_frame _ _ w3); [frame_auto | | | done | done].
    + intros _ w4 Hvecs4 Htr4. unfold bind at 1.
      erewrite get_data_spec
        by (rewrite Hvecs4; cbn [vecs w3]; apply list_lookup_insert_eq;
            by rewrite Hvecs2, Hvecs, length_insert).
      unfold RawMemory_plus, bind, assert_, ret.
      destruct (debug && _); [done |]. simpl. split.
      * eexists. split;
          [ rewrite Hvecs4; cbn [vecs w3]; apply list_lookup_insert_eq;
            by rewrite Hvecs2, Hvecs, length_insert
          | reflexivity ].
      * etrans; [exact Htr |]. etrans; [exact Htr2 | exact Htr4].
    + intros e w4 _ Htr4. right.
      etrans; [exact Htr |]. etrans; [exact Htr2 | exact Htr4].
  - intros e w2 _ Htr2. right. by etrans.
Qed.

Lemma grown_ret_tt {A} this tr bnew n' (m : M T A) (w : World) :
  grown this tr bnew n' (m w) →
  grown this tr bnew n' (bind m (λ _, ret tt) w).
Proof. unfold grown, bind. by destruct (m w). Qed.

(** ** [Emplace] with spare capacity *)

Lemma range_length_ok (w : World) b o1 o2 :
  o1 ≤ o2 →
  range_length (Ptr (Some b) o1) (Ptr (Some b) o2) w = Ok (o2 - o1) w.
Proof.
  intros Ho. unfold range_length. cbn [base off].
  rewrite bool_decide_eq_true_2 by done.
  by rewrite (proj2 (Z.leb_le _ _)) by lia.
Qed.

(** Move-assigning an object to the raw cell after it. *)
Lemma std_move_into_raw (w : World) b pre x post o1 o2 :
  is_implicit_lifetime = false →
  heap w !! b = Some (Block (pre ++ Live x :: Raw :: post)) →
  o1 = Z.of_nat (length pre) → o2 = o1 + 1 →
  std_move throws (Ptr (Some b) o1) (Ptr (Some b) o2) (Ptr (Some b) o2) w = Undefined.
Proof.
  intros Hclass Hb Ho1 Ho2. unfold std_move. unfold bind at 1.
  rewrite range_length_ok by lia.
  replace (o2 - o1) with 1 by lia. change (Z.to_nat 1) with 1%nat.
  cbn [assign_forward]. unfold bind at 1. unfold move_assign_cell.
  unfold bind at 1. unfold ptr_add. cbn [base off].
  rewrite (load_middle _ _ _ _ _ (o1 + 0) Hb) by lia.
  unfold bind at 1. unfold assign_at. unfold bind at 1.
  assert (Hb' : heap w !! b = Some (Block ((pre ++ [Live x]) ++ Raw :: post)))
    by (by rewrite <- app_assoc).
  rewrite (read_cell_middle _ _ _ _ _ (o2 + 0) Hb'); [by rewrite Hclass |].
  rewrite length_app. simpl. lia.
Qed.

(** On a vector that is not empty and not full, [Emplace] starts by
    move-assigning the last element to the slot after it, which for a
    class type holds no object. *)
Lemma Emplace_spare_undefined (w : World) this vs cap pos args :
  is_implicit_lifetime = false →
  holds w this vs cap → (0 < length vs)%nat → Z.of_nat (length vs) < cap →
  Emplace throws debug this pos args w = Undefined.
Proof.
  intros Hclass (v & Hv & Hcap & Hsz & Hbd & Hbuf) Hpos Hspare.
  unfold Emplace. unfold bind at 1. unfold cbegin.
  rewrite (begin_spec _ _ _ Hv).
  unfold bind at 1. unfold distance.
  destruct (bool_decide _); [| done]. unfold ret.
  unfold bind at 1. rewrite (get_vec_spec _ _ _ Hv).
  rewrite (proj2 (Z.eqb_neq _ _)) by lia.
  rewrite (proj2 (Z.eqb_neq _ 0)) by lia.
  unfold bind at 1. unfold bind at 1. unfold end_. unfold bind at 1.
  rewrite (get_vec_spec _ _ _ Hv).
  rewrite RawMemory_plus_ok by lia.
  destruct v as [[[[b|] o] c] sz]; simpl in Hcap, Hsz, Hbd, Hbuf; subst c sz;
    [| destruct Hbuf as [_ ->]; lia].
  destruct Hbuf as (-> & _ & Hb).
  cbn [data_ buffer_ size_ capacity_]. unfold ptr_add. cbn [base off].
  destruct (lookup_lt_is_Some_2 vs (length vs - 1)) as [x Hx]; [lia |].
  assert (Hsplit : vs = take (length vs - 1) vs ++ [x]).
  { rewrite <- (take_drop_middle _ _ _ Hx) at 1. f_equal.
    rewrite drop_ge by lia. done. }
  unfold bind at 1.
  erewrite (std_move_into_raw _ b (Live <$> take (length vs - 1) vs) x
              (replicate (Z.to_nat cap - length vs - 1) Raw)); [done | done | | | lia].
  - rewrite Hb. rewrite Hsplit at 1. rewrite fmap_app, <- app_assoc. simpl.
    do 4 f_equal. rewrite <- replicate_S. f_equal. lia.
  - rewrite length_fmap, length_take. lia.
Qed.

(** ** [Emplace] at capacity when the new element cannot be constructed *)

(** The one failure that [Emplace] lets through: the constructor of the
    new element throws.  The new block is released with no object in it
    and the vector is as before. *)
Lemma Emplace_ctor_failure (w : World) this vs cap k args :
  holds w this vs cap → Z.of_nat (length vs) = cap → (k ≤ length vs)%nat →
  Z.max 1 (cap * 2) ≤ MAX_ELEMS →
  throws (trace w) (AAlloc (byte_size (Z.max 1 (cap * 2)))) = false →
  can_throw (ACtor args) = true →
  throws (trace w ++ [EvAlloc (byte_size (Z.max 1 (cap * 2))) (length (heap w))]) (ACtor args) = true →
  (b <- begin this ;; Emplace throws debug this (b +ₚ Z.of_nat k) args) w =
    Throw elem_exception
      {| heap := heap w ++ [Freed (replicate (Z.to_nat (Z.max 1 (cap * 2))) Raw)];
         vecs := vecs w;
         trace := trace w ++
           [EvAlloc (byte_size (Z.max 1 (cap * 2))) (length (heap w)); EvThrow (ACtor args);
            EvDealloc (length (heap w))] |}.
Proof.
  intros (v & Hv & Hcap & Hsz & Hbd & Hbuf) Hfull Hk Hmax Halloc Hcan Hthrow.
  unfold bind at 1. rewrite (begin_spec _ _ _ Hv).
  unfold Emplace. unfold bind at 1. unfold cbegin. rewrite (begin_spec _ _ _ Hv).
  unfold bind at 1. unfold distance. cbn [ptr_add base off].
  rewrite bool_decide_eq_true_2 by done. unfold ret.
  replace (off (buffer_ (data_ v)) + Z.of_nat k - off (buffer_ (data_ v)))
    with (Z.of_nat k) by lia.
  rewrite (size_t_small (Z.of_nat k)) by lia.
  unfold bind at 1. rewrite (get_vec_spec _ _ _ Hv).
  rewrite (proj2 (Z.eqb_eq _ _)) by lia.
  rewrite grown_capacity_max by lia.
  replace (size_ v) with cap by lia.
  set (n' := Z.max 1 (cap * 2)) in *.
  unfold bind at 1. unfold bind at 1.
  rewrite RawMemory_new_spec by solve_fits.
  rewrite Halloc, orb_false_r, (proj2 (Z.ltb_ge _ _)) by lia.
  set (bnew := length (heap w)) in *.
  unfold bind at 1. unfold unwinding, try_catch.
  unfold bind at 1. rewrite RawMemory_plus_ok by (cbn [capacity_]; lia).
  cbn [buffer_]. unfold ptr_add. cbn [base off].
  unfold bind at 1.
  erewrite (construct_at_middle _ bnew (replicate k Raw) Raw
              (replicate (Z.to_nat n' - k - 1) Raw));
    [ | cbn [heap]; rewrite (list_lookup_middle _ [] _ bnew eq_refl);
        do 2 f_equal; rewrite <- replicate_S, <- replicate_add; f_equal; lia
      | rewrite length_replicate; lia ].
  cbn [trace]. rewrite Hcan, Hthrow. cbn [andb].
  unfold bind at 1.
  erewrite RawMemory_delete_block
    by (cbn [heap]; by rewrite (list_lookup_middle _ [] _ bnew eq_refl)).
  unfold throw. cbn [heap vecs trace]. f_equal. f_equal.
  - subst bnew. by rewrite (insert_middle (heap w) []).
  - by rewrite <- !app_assoc.
Qed.

(** ** Growth at capacity when nothing throws *)

Section NoThrow.

Hypothesis never_throws : ∀ tr a, throws tr a = false.

Lemma construct_at_ok (w : World) b pre c0 post o (c : ctor T) :
  heap w !! b = Some (Block (pre ++ c0 :: post)) →
  o = Z.of_nat (length pre) →
  construct_at throws (Ptr (Some b) o) c w =
    Ok tt {| heap := <[b := Block (pre ++ Live (built c) :: post)]> (heap w);
             vecs := vecs w;
             trace := trace w ++ [EvCtor c (Ptr (Some b) o)] |}.
Proof.
  intros Hb Ho. rewrite (construct_at_middle _ _ _ _ _ _ _ Hb Ho).
  by rewrite never_throws, andb_false_r.
Qed.

(** A transfer of [todo] from offset [so] of block [bs] to offset [do_]
    of another block [bd] whose cells there are raw. *)
Lemma transfer_ok (w : World) bs bd spre todo spost dpre dpost so do_ n :
  bs ≠ bd →
  heap w !! bs = Some (Block (spre ++ (Live <$> todo) ++ spost)) →
  heap w !! bd = Some (Block (dpre ++ replicate (length todo) Raw ++ dpost)) →
  so = Z.of_nat (length spre) → do_ = Z.of_nat (length dpre) →
  n = Z.of_nat (length todo) →
  SafeCopyingOrMoving throws (Ptr (Some bs) so) n (Ptr (Some bd) do_) w =
    Ok tt {| heap := <[bs := Block (spre ++ (Live <$> (source_after <$> todo)) ++ spost)]>
                       (<[bd := Block (dpre ++ (Live <$> todo) ++ dpost)]> (heap w));
             vecs := vecs w;
             trace := trace w ++ ctor_events transfer_ctor (Ptr (Some bd) do_) 0 todo |}.
Proof.
  intros Hne Hs Hd Hso Hdo ->.
  rewrite SafeCopyingOrMoving_loop, Nat2Z.id.
  pose proof (transfer_loop_spec _ _ _ transfer_step_spec bs bd spre spost dpre dpost
    so do_ Hne Hso Hdo todo [] w _ _ Hs eq_refl Hd eq_refl) as Hloop.
  change (Z.of_nat (length [])) with 0 in Hloop.
  destruct (uninitialized_loop _ _ _ _ _ w) as [[] w' | e w' | |]; try done.
  - by rewrite Hloop.
  - destruct Hloop as (_ & t1 & v & t2 & _ & Hthrow & _).
    by rewrite never_throws in Hthrow.
Qed.

Lemma transfer_nothing (w : World) from to :
  SafeCopyingOrMoving throws from 0 to w = Ok tt w.
Proof. by rewrite SafeCopyingOrMoving_loop. Qed.

Lemma try_catch_ok {A} (m : M T A) h (w w' : World) a :
  m w = Ok a w' → try_catch m h w = Ok a w'.
Proof. intros E. unfold try_catch. by rewrite E. Qed.

Lemma RawMemory_new_ok (w : World) n :
  0 < n ≤ MAX_ELEMS →
  RawMemory_new throws n w =
    Ok {| buffer_ := Ptr (Some (length (heap w))) 0; capacity_ := n |}
       {| heap := heap w ++ [Block (replicate (Z.to_nat n) Raw)];
          vecs := vecs w;
          trace := trace w ++ [EvAlloc (byte_size n) (length (heap w))] |}.
Proof.
  intros Hn. rewrite RawMemory_new_spec by solve_fits.
  rewrite never_throws, orb_false_r.
  by rewrite (proj2 (Z.ltb_ge _ _)) by lia.
Qed.

Lemma EmplaceBack_ok (w : World) this vs cap args :
  holds w this vs cap → Z.of_nat (length vs) = cap →
  Z.max 1 (cap * 2) ≤ MAX_ELEMS →
  match EmplaceBack throws debug this args w with
  | Ok _ w' => holds w' this (vs ++ [built args]) (Z.max 1 (cap * 2))
  | _ => False
  end.
Proof.
  intros (v & Hv & Hcap & Hsz & Hbd & Hbuf) Hfull Hmax.
  assert (Hlt : (this < length (vecs w))%nat) by (by eapply lookup_lt_Some).
  unfold EmplaceBack. unfold bind at 1. rewrite (get_vec_spec _ _ _ Hv).
  rewrite (proj2 (Z.eqb_eq _ _)) by lia.
  rewrite grown_capacity_max by lia.
  replace (size_ v) with cap by lia.
  set (n' := Z.max 1 (cap * 2)) in *.
  unfold bind at 1. unfold bind at 1.
  rewrite RawMemory_new_ok by solve_fits.
  set (bnew := length (heap w)).
  unfold bind at 1. unfold unwinding.
  destruct v as [[[[b|] o] c] sz]; simpl in Hcap, Hsz, Hbd, Hbuf; subst c sz.
  - destruct Hbuf as (-> & Hcap & Hb).
    cbn [data_ buffer_ size_ capacity_].
    assert (Hblt : (b < bnew)%nat) by (by eapply lookup_lt_Some).
    rewrite <- Hfull in Hb. rewrite Nat2Z.id, Nat.sub_diag in Hb. simpl in Hb.
    rewrite app_nil_r in Hb.
    erewrite try_catch_ok; cycle 1.
    { unfold bind at 1. rewrite RawMemory_plus_ok by (cbn [capacity_]; lia).
      cbn [buffer_]. unfold ptr_add. cbn [base off].
      unfold bind at 1.
      erewrite (construct_at_ok _ bnew (replicate (length vs) Raw) Raw
                  (replicate (Z.to_nat n' - length vs - 1) Raw));
        [ | cbn [heap]; rewrite (list_lookup_middle _ [] _ bnew eq_refl);
            do 2 f_equal; rewrite <- replicate_S, <- replicate_add; f_equal; lia
          | rewrite length_replicate; lia ].
      erewrite (transfer_ok _ b bnew [] vs [] []);
        [ reflexivity | lia
          | cbn [heap]; rewrite list_lookup_insert_ne by lia;
            rewrite lookup_app_l by done; rewrite Hb, app_nil_r; reflexivity
          | cbn [heap]; rewrite list_lookup_insert_eq
              by (rewrite length_app; simpl; lia); reflexivity
          | done | done | lia ]. }
    unfold bind at 1. erewrite set_data_spec by exact Hv.
    unfold bind at 1.
    erewrite (destroy_n_spec b 0 [] (source_after <$> vs) []);
      [ | cbn [heap]; rewrite list_lookup_insert_eq
            by (rewrite !length_insert, length_app; simpl; lia);
          reflexivity
        | done | by rewrite length_fmap ].
    erewrite RawMemory_delete_block;
      [ | cbn [heap]; rewrite list_lookup_insert_eq
            by (rewrite !length_insert, length_app; simpl; lia);
          reflexivity ].
    unfold bind at 1.
    erewrite set_size_spec by (cbn [vecs]; by apply list_lookup_insert_eq).
    unfold bind at 1.
    erewrite get_vec_spec
      by (cbn [vecs]; apply list_lookup_insert_eq; by rewrite length_insert).
    unfold RawMemory_index, bind, assert_, ret. cbn [data_ size_ capacity_].
    rewrite !size_t_small by (rewrite ?size_t_small; lia).
    rewrite (proj2 (Z.ltb_lt _ _)) by lia. rewrite andb_false_r.
    eexists. split; [| split].
    + cbn [vecs]. apply list_lookup_insert_eq. by rewrite length_insert.
    + done.
    + unfold owns. cbn [data_ size_ capacity_ buffer_ base off heap].
      rewrite length_app. simpl.
      repeat split; try lia.
      rewrite !list_insert_insert_eq.
      rewrite list_lookup_insert_ne by lia.
      rewrite list_lookup_insert_eq by (rewrite length_app; simpl; lia).
      rewrite fmap_app, <- app_assoc. simpl.
      by replace (Z.to_nat n' - length vs - 1)%nat
        with (Z.to_nat n' - (length vs + 1))%nat by lia.
  - destruct Hbuf as [Hnull ->]. injection Hnull as ->.
    destruct vs as [|? ?]; [| simpl in Hbd; lia].
    cbn [data_ buffer_ size_ capacity_]. subst n'. simpl Z.max.
    erewrite try_catch_ok; cycle 1.
    { unfold bind at 1. rewrite RawMemory_plus_ok by (cbn [capacity_]; lia).
      cbn [buffer_]. unfold ptr_add. cbn [base off].
      unfold bind at 1.
      erewrite (construct_at_ok _ bnew [] Raw []);
        [ | cbn [heap]; by rewrite (list_lookup_middle _ [] _ bnew eq_refl)
          | done ].
      by rewrite transfer_nothing. }
    unfold bind at 1. erewrite set_data_spec by exact Hv.
    unfold bind at 1. rewrite destroy_n_zero.
    change (Ptr None 0) with nullptr. rewrite RawMemory_delete_null.
    unfold bind at 1.
    erewrite set_size_spec by (cbn [vecs]; by apply list_lookup_insert_eq).
    unfold bind at 1.
    erewrite get_vec_spec
      by (cbn [vecs]; apply list_lookup_insert_eq; by rewrite length_insert).
    unfold RawMemory_index, bind, assert_, ret. cbn [data_ size_ capacity_].
    rewrite !size_t_small by (rewrite ?size_t_small; lia).
    rewrite (proj2 (Z.ltb_lt _ _)) by lia. rewrite andb_false_r.
    eexists. split; [| split].
    + cbn [vecs]. apply list_lookup_insert_eq. by rewrite length_insert.
    + done.
    + unfold owns. cbn [data_ size_ capacity_ buffer_ base off heap].
      simpl. repeat split; try lia.
      apply list_lookup_insert_eq. rewrite length_app. simpl. lia.
Qed.

(** Looking up a block under the updates of a run. *)
Ltac heap_lookup :=
  cbn [heap];
  repeat first
    [ rewrite list_lookup_insert_eq
        by (rewrite ?length_insert, ?length_app; simpl; lia)
    | rewrite list_lookup_insert_ne by lia
    | rewrite lookup_app_l by lia ].

Lemma Emplace_full_ok (w : World) this vs cap k args :
  holds w this vs cap → Z.of_nat (length vs) = cap → (k ≤ length vs)%nat →
  Z.max 1 (cap * 2) ≤ MAX_ELEMS →
  match (b <- begin this ;; Emplace throws debug this (b +ₚ Z.of_nat k) args) w with
  | Ok p w' =>
      holds w' this (take k vs ++ built args :: drop k vs) (Z.max 1 (cap * 2)) ∧
      ∃ v', vecs w' !! this = Some v' ∧ p = buffer_ (data_ v') +ₚ Z.of_nat k
  | _ => False
  end.
Proof.
  intros (v & Hv & Hcap & Hsz & Hbd & Hbuf) Hfull Hk Hmax.
  assert (Hlt : (this < length (vecs w))%nat) by (by eapply lookup_lt_Some).
  unfold bind at 1. rewrite (begin_spec _ _ _ Hv).
  unfold Emplace. unfold bind at 1. unfold cbegin. rewrite (begin_spec _ _ _ Hv).
  unfold bind at 1. unfold distance. cbn [ptr_add base off].
  rewrite bool_decide_eq_true_2 by done. unfold ret.
  replace (off (buffer_ (data_ v)) + Z.of_nat k - off (buffer_ (data_ v)))
    with (Z.of_nat k) by lia.
  rewrite (size_t_small (Z.of_nat k)) by lia.
  unfold bind at 1. rewrite (get_vec_spec _ _ _ Hv).
  rewrite (proj2 (Z.eqb_eq _ _)) by lia.
  rewrite grown_capacity_max by lia.
  replace (size_ v) with cap by lia.
  set (n' := Z.max 1 (cap * 2)) in *.
  unfold bind at 1. unfold bind at 1.
  rewrite RawMemory_new_ok by solve_fits.
  set (bnew := length (heap w)).
  unfold bind at 1. unfold unwinding.
  destruct v as [[[[b|] o] c] sz]; simpl in Hcap, Hsz, Hbd, Hbuf; subst c sz.
  - destruct Hbuf as (-> & Hcap & Hb).
    cbn [data_ buffer_ size_ capacity_].
    assert (Hblt : (b < bnew)%nat) by (by eapply lookup_lt_Some).
    rewrite <- Hfull in Hb. rewrite Nat2Z.id, Nat.sub_diag in Hb. simpl in Hb.
    rewrite app_nil_r in Hb.
    assert (Htake : length (take k vs) = k) by (rewrite length_take; lia).
    assert (Hdrop : length (drop k vs) = (length vs - k)%nat) by apply length_drop.
    erewrite try_catch_ok; cycle 1.
    { unfold bind at 1. rewrite RawMemory_plus_ok by (cbn [capacity_]; lia).
      cbn [buffer_]. unfold ptr_add. cbn [base off].
      unfold bind at 1.
      erewrite (construct_at_ok _ bnew (replicate k Raw) Raw
                  (replicate (Z.to_nat n' - k - 1) Raw));
        [ | cbn [heap]; rewrite (list_lookup_middle _ [] _ bnew eq_refl);
            do 2 f_equal; rewrite <- replicate_S, <- replicate_add; f_equal; lia
          | rewrite length_replicate; lia ].
      unfold bind at 1.
      erewrite try_catch_ok; cycle 1.
      { unfold bind at 1. erewrite begin_spec by exact Hv. cbn [data_ buffer_].
        erewrite (transfer_ok _ b bnew [] (take k vs) (Live <$> drop k vs) []);
          [ reflexivity | lia
            | heap_lookup; rewrite Hb; simpl;
              by rewrite <- fmap_app, take_drop
            | heap_lookup; rewrite Htake; reflexivity
            | done | done | lia ]. }
      erewrite try_catch_ok; cycle 1.
      { unfold bind at 1. erewrite begin_spec by exact Hv. cbn [data_ buffer_].
        unfold bind at 1. rewrite RawMemory_plus_ok by (cbn [capacity_]; lia).
        cbn [buffer_]. unfold ptr_add. cbn [base off].
        rewrite (size_t_small (cap - Z.of_nat k)) by lia.
        erewrite (transfer_ok _ b bnew (Live <$> (source_after <$> take k vs))
                    (drop k vs) []
                    ((Live <$> take k vs) ++ [Live (built args)])
                    (replicate (Z.to_nat n' - length vs - 1) Raw));
          [ reflexivity | lia
            | heap_lookup; simpl; by rewrite app_nil_r
            | heap_lookup; simpl; rewrite <- app_assoc; simpl;
              rewrite Hdrop, <- replicate_add;
              do 5 f_equal; lia
            | rewrite !length_fmap; lia
            | rewrite length_app, length_fmap; simpl; lia
            | lia ]. }
      reflexivity. }
    unfold bind at 1. erewrite set_data_spec by exact Hv.
    unfold bind at 1.
    erewrite (destroy_n_spec b 0 [] (source_after <$> vs) []);
      [ | heap_lookup; simpl; rewrite app_nil_r, <- !fmap_app, take_drop;
          by rewrite app_nil_r
        | done | by rewrite length_fmap ].
    cbn [heap vecs trace]. unfold bind.
    erewrite set_size_spec by (cbn [vecs]; by apply list_lookup_insert_eq).
    erewrite RawMemory_delete_block by (heap_lookup; reflexivity).
    erewrite get_data_spec
      by (cbn [vecs]; apply list_lookup_insert_eq; by rewrite length_insert).
    rewrite RawMemory_plus_ok by (cbn [data_ capacity_]; lia).
    split.
    + eexists. split; [| split].
      * cbn [vecs]. apply list_lookup_insert_eq. by rewrite length_insert.
      * done.
      * unfold owns. cbn [data_ size_ capacity_ buffer_ base off].
        rewrite length_app. simpl length. rewrite Htake, Hdrop.
        rewrite size_t_small by lia.
        repeat split; try lia.
        heap_lookup.
        rewrite fmap_app, <- !app_assoc. simpl.
        by replace (Z.to_nat n' - length vs - 1)%nat
          with (Z.to_nat n' - (k + S (length vs - k)))%nat by lia.
    + eexists. split;
        [ cbn [vecs]; apply list_lookup_insert_eq; by rewrite length_insert
        | reflexivity ].
  - destruct Hbuf as [Hnull ->]. injection Hnull as ->.
    destruct vs as [|? ?]; [| simpl in Hbd; lia].
    assert (k = 0%nat) as -> by (simpl in Hk; lia).
    cbn [data_ buffer_ size_ capacity_]. subst n'. simpl Z.max.
    change (Z.of_nat 0) with 0.
    erewrite try_catch_ok; cycle 1.
    { unfold bind at 1. rewrite RawMemory_plus_ok by (cbn [capacity_]; lia).
      cbn [buffer_]. unfold ptr_add. cbn [base off].
      unfold bind at 1.
      erewrite (construct_at_ok _ bnew [] Raw []);
        [ | cbn [heap]; by rewrite (list_lookup_middle _ [] _ bnew eq_refl)
          | done ].
      unfold bind at 1.
      erewrite try_catch_ok; cycle 1.
      { unfold bind at 1. erewrite begin_spec by exact Hv.
        by rewrite transfer_nothing. }
      erewrite try_catch_ok; cycle 1.
      { unfold bind at 1. erewrite begin_spec by exact Hv.
        unfold bind at 1. rewrite RawMemory_plus_ok by (cbn [capacity_]; lia).
        change (size_t (0 - 0)) with 0.
        by rewrite transfer_nothing. }
      reflexivity. }
    unfold bind at 1. erewrite set_data_spec by exact Hv.
    unfold bind at 1. rewrite destroy_n_zero.
    cbn [heap vecs trace]. unfold bind.
    erewrite set_size_spec by (cbn [vecs]; by apply list_lookup_insert_eq).
    change (Ptr None 0) with nullptr. rewrite RawMemory_delete_null.
    erewrite get_data_spec
      by (cbn [vecs]; apply list_lookup_insert_eq; by rewrite length_insert).
    rewrite RawMemory_plus_ok by (cbn [data_ capacity_]; lia).
    split.
    + eexists. split; [| split].
      * cbn [vecs]. apply list_lookup_insert_eq. by rewrite length_insert.
      * done.
      * unfold owns. cbn [data_ size_ capacity_ buffer_ base off heap].
        simpl. repeat split; try lia.
        apply list_lookup_insert_eq. rewrite length_app. simpl. lia.
    + eexists. split;
        [ cbn [vecs]; apply list_lookup_insert_eq; by rewrite length_insert
        | reflexivity ].
Qed.

(** *** [Erase] *)

(** The shift to the left of [std::move]: each object of [todo] is
    move-assigned to the cell before it. *)
Lemma shift_left_spec b o_src o_dst post :
  o_src = o_dst + 1 →
  ∀ (todo : list T) pre d (w : World) i,
    heap w !! b = Some (Block (pre ++ Live d :: (Live <$> todo) ++ post)) →
    o_dst + i = Z.of_nat (length pre) →
    ∃ d' tr,
      assign_forward (move_assign_cell throws) (Ptr (Some b) o_src) (Ptr (Some b) o_dst)
        i (length todo) w =
      Ok tt {| heap := <[b := Block (pre ++ (Live <$> todo) ++ Live d' :: post)]> (heap w);
               vecs := vecs w; trace := tr |}.
Proof.
  intros Hsrc.
  induction todo as [|t todo IH]; intros pre d w i Hb Hi.
  - exists d, (trace w). simpl. unfold ret. destruct w; simpl in *.
    by rewrite list_insert_id.
  - assert (Hlb : (b < length (heap w))%nat) by (by eapply lookup_lt_Some).
    cbn [assign_forward length]. unfold bind at 1. unfold move_assign_cell.
    unfold ptr_add. cbn [base off].
    assert (Hb' : heap w !! b =
      Some (Block ((pre ++ [Live d]) ++ Live t :: (Live <$> todo) ++ post)))
      by (by rewrite Hb, <- app_assoc).
    unfold bind at 1.
    rewrite (load_middle _ _ _ _ _ (o_src + i) Hb')
      by (rewrite length_app; simpl; lia).
    unfold bind at 1. unfold assign_at. unfold bind at 1.
    rewrite (read_cell_middle _ _ _ _ _ (o_dst + i) Hb) by lia.
    unfold bind at 1. unfold may_throw.
    rewrite never_throws, andb_false_r.
    unfold bind at 1.
    rewrite (write_cell_middle _ _ _ _ (Live t) _ (o_dst + i) Hb) by lia.
    unfold emit.
    erewrite (write_cell_middle _ b (pre ++ [Live t]) (Live t)
                (Live (moved_from t)) ((Live <$> todo) ++ post) (o_src + i));
      [ | heap_lookup; by rewrite <- app_assoc
        | rewrite length_app; simpl; lia ].
    cbn [heap vecs trace].
    edestruct (IH (pre ++ [Live t]) (moved_from t)) as (d' & tr & ->);
      [ heap_lookup; by rewrite <- app_assoc
      | rewrite length_app; simpl; lia | ].
    exists d', tr. cbn [heap vecs trace].
    rewrite !list_insert_insert_eq. by rewrite <- !app_assoc.
Qed.

Lemma Erase_ok (w : World) this vs cap k :
  holds w this vs cap → (k < length vs)%nat →
  match (b <- begin this ;; Erase throws debug this (b +ₚ Z.of_nat k)) w with
  | Ok _ w' => holds w' this (take k vs ++ drop (S k) vs) cap
  | _ => False
  end.
Proof.
  intros (v & Hv & Hcap & Hsz & Hbd & Hbuf) Hk.
  assert (Hlt : (this < length (vecs w))%nat) by (by eapply lookup_lt_Some).
  unfold bind at 1. rewrite (begin_spec _ _ _ Hv).
  unfold Erase. unfold bind at 1. unfold cbegin. rewrite (begin_spec _ _ _ Hv).
  unfold bind at 1. unfold distance. cbn [ptr_add base off].
  rewrite bool_decide_eq_true_2 by done. unfold ret.
  replace (off (buffer_ (data_ v)) + Z.of_nat k - off (buffer_ (data_ v)))
    with (Z.of_nat k) by lia.
  rewrite (size_t_small (Z.of_nat k)) by lia.
  unfold bind at 1. rewrite (begin_spec _ _ _ Hv).
  unfold bind at 1. unfold end_ at 1. unfold bind at 1.
  rewrite (get_vec_spec _ _ _ Hv). rewrite RawMemory_plus_ok by lia.
  destruct v as [[[[b|] o] c] sz]; simpl in Hcap, Hsz, Hbd, Hbuf; subst c sz;
    [| destruct Hbuf as [_ ->]; lia].
  destruct Hbuf as (-> & Hcap & Hb).
  cbn [data_ buffer_ size_ capacity_]. unfold ptr_add. cbn [base off].
  destruct (lookup_lt_is_Some_2 vs k Hk) as [d Hd].
  assert (Hlb : (b < length (heap w))%nat) by (by eapply lookup_lt_Some).
  assert (Htake : length (take k vs) = k) by (rewrite length_take; lia).
  assert (Hdrop : length (drop (S k) vs) = (length vs - S k)%nat) by apply length_drop.
  assert (Hb' : heap w !! b = Some (Block
    ((Live <$> take k vs) ++ Live d :: (Live <$> drop (S k) vs) ++
     replicate (Z.to_nat cap - length vs) Raw))).
  { rewrite Hb. rewrite <- (take_drop_middle _ _ _ Hd) at 1.
    by rewrite fmap_app, <- app_assoc. }
  unfold bind at 1. unfold std_move. unfold bind at 1.
  rewrite range_length_ok by lia.
  replace (Z.to_nat (0 + Z.of_nat (length vs) - (0 + Z.of_nat k + 1)))
    with (length (drop (S k) vs)) by lia.
  edestruct (shift_left_spec b (0 + Z.of_nat k + 1) (0 + Z.of_nat k)
               (replicate (Z.to_nat cap - length vs) Raw) eq_refl
               (drop (S k) vs) (Live <$> take k vs) d w 0 Hb')
    as (d' & tr & ->); [rewrite length_fmap; lia |].
  unfold bind at 1. unfold end_. unfold bind at 1.
  erewrite get_vec_spec by exact Hv. rewrite RawMemory_plus_ok by (cbn; lia).
  cbn [data_ buffer_ size_ capacity_]. unfold ptr_add. cbn [base off].
  unfold bind at 1. unfold destroy_at.
  erewrite (Destroy_middle _ b ((Live <$> take k vs) ++ (Live <$> drop (S k) vs)) d'
              (replicate (Z.to_nat cap - length vs) Raw));
    [ | heap_lookup; by rewrite <- app_assoc
      | rewrite length_app, !length_fmap; lia ].
  cbn [heap vecs trace]. unfold bind.
  erewrite get_vec_spec by exact Hv.
  erewrite set_size_spec by exact Hv.
  erewrite begin_spec by (cbn [vecs]; by apply list_lookup_insert_eq).
  eexists. split; [| split].
  - cbn [vecs]. by apply list_lookup_insert_eq.
  - done.
  - unfold owns. cbn [data_ size_ capacity_ buffer_ base off heap].
    rewrite length_app, Htake, Hdrop.
    rewrite size_t_small by lia.
    repeat split; try lia.
    rewrite list_insert_insert_eq. heap_lookup.
    rewrite fmap_app.
    replace (Z.to_nat cap - (k + (length vs - S k)))%nat
      with (S (Z.to_nat cap - length vs)) by lia.
    reflexivity.
Qed.

(** *** [Emplace] on an empty vector that has a block *)

Lemma Emplace_empty_ok (w : World) this cap args :
  holds w this [] cap → 0 < cap →
  match (b <- begin this ;; Emplace throws debug this (b +ₚ 0) args) w with
  | Ok p w' =>
      holds w' this [built args] cap ∧
      ∃ v', vecs w' !! this = Some v' ∧ p = buffer_ (data_ v') +ₚ 0
  | _ => False
  end.
Proof.
  intros (v & Hv & Hcap & Hsz & Hbd & Hbuf) Hpos.
  assert (Hlt : (this < length (vecs w))%nat) by (by eapply lookup_lt_Some).
  unfold bind at 1. rewrite (begin_spec _ _ _ Hv).
  unfold Emplace. unfold bind at 1. unfold cbegin. rewrite (begin_spec _ _ _ Hv).
  unfold bind at 1. unfold distance. cbn [ptr_add base off].
  rewrite bool_decide_eq_true_2 by done. unfold ret.
  replace (off (buffer_ (data_ v)) + 0 - off (buffer_ (data_ v))) with 0 by lia.
  change (size_t 0) with 0.
  unfold bind at 1. rewrite (get_vec_spec _ _ _ Hv).
  simpl in Hsz. rewrite Hsz.
  rewrite (proj2 (Z.eqb_neq 0 _)) by lia. simpl Z.eqb. cbv iota.
  destruct v as [[[[b|] o] c] sz]; simpl in Hcap, Hsz, Hbd, Hbuf; subst c sz;
    [| destruct Hbuf as [_ ->]; lia].
  destruct Hbuf as (-> & _ & Hb). simpl in Hb.
  assert (Hlb : (b < length (heap w))%nat) by (by eapply lookup_lt_Some).
  cbn [data_ buffer_ size_ capacity_].
  unfold bind at 1. unfold bind at 1.
  rewrite RawMemory_plus_ok by (cbn [capacity_]; lia).
  cbn [buffer_]. unfold ptr_add. cbn [base off].
  unfold bind at 1.
  erewrite (construct_at_ok _ b [] Raw (replicate (Z.to_nat cap - 1) Raw));
    [ | rewrite Hb;
        replace (Z.to_nat cap - 0)%nat with (S (Z.to_nat cap - 1)) by lia;
        reflexivity
      | done ].
  erewrite set_size_spec by exact Hv.
  unfold bind at 1.
  erewrite get_data_spec by (cbn [vecs]; by apply list_lookup_insert_eq).
  rewrite RawMemory_plus_ok by (cbn [data_ capacity_]; lia).
  split.
  - eexists. split; [| split].
    + cbn [vecs]. by apply list_lookup_insert_eq.
    + done.
    + unfold owns. cbn [data_ size_ capacity_ buffer_ base off heap]. simpl.
      repeat split; try lia.
      by rewrite list_lookup_insert_eq by done.
  - eexists. split; [cbn [vecs]; by apply list_lookup_insert_eq | reflexivity].
Qed.

(** *** [Insert] and then [Erase] at the same position *)

(** When the vector is full or empty, and nothing throws, erasing the
    element just inserted gives the former elements back. *)
Lemma Insert_then_Erase_restores (w : World) this vs cap k x :
  holds w this vs cap →
  Z.of_nat (length vs) = cap ∨ vs = [] →
  (k ≤ length vs)%nat →
  Z.max 1 (cap * 2) ≤ MAX_ELEMS →
  match (b <- begin this ;;
         p <- Insert throws debug this (b +ₚ Z.of_nat k) x ;;
         Erase throws debug this p) w with
  | Ok _ w' => ∃ cap', holds w' this vs cap'
  | _ => False
  end.
Proof.
  intros Hholds Hcase Hk Hmax.
  assert (Hins : match (b <- begin this ;;
                        Emplace throws debug this (b +ₚ Z.of_nat k) (CopyCtor x)) w with
                 | Ok p w' =>
                     (∃ cap', holds w' this (take k vs ++ x :: drop k vs) cap') ∧
                     ∃ v', vecs w' !! this = Some v' ∧
                           p = buffer_ (data_ v') +ₚ Z.of_nat k
                 | _ => False
                 end).
  { destruct (Z.eq_dec (Z.of_nat (length vs)) cap) as [Hfull | Hnot].
    - pose proof (Emplace_full_ok w this vs cap k (CopyCtor x) Hholds Hfull Hk Hmax) as E.
      destruct (bind _ _ w) as [p w' | | |]; try done.
      destruct E as [Hh Hp]. split; [by eexists | done].
    - destruct Hcase as [? | ->]; [done |]. simpl in Hk, Hnot.
      assert (k = 0%nat) as -> by lia.
      pose proof (Emplace_empty_ok w this cap (CopyCtor x) Hholds) as E.
      destruct Hholds as (v0 & _ & Hc0 & _ & Hb0 & _). simpl in Hb0.
      specialize (E ltac:(lia)).
      change (Z.of_nat 0) with 0.
      destruct (bind _ _ w) as [p w' | | |]; try done.
      destruct E as [Hh Hp]. split; [by eexists | done]. }
  destruct Hholds as (v & Hv & Hholds).
  unfold bind at 1 in Hins. unfold bind at 1.
  rewrite (begin_spec _ _ _ Hv) in Hins |- *.
  unfold bind at 1. unfold Insert.
  destruct (Emplace _ _ _ _ _ w) as [p w1 | | |]; try done.
  destruct Hins as [(cap' & Hh1) (v' & Hv' & ->)].
  pose proof (Erase_ok w1 this (take k vs ++ x :: drop k vs) cap' k Hh1) as E.
  specialize (E ltac:(rewrite length_app, length_take; simpl; lia)).
  unfold bind at 1 in E. rewrite (begin_spec _ _ _ Hv') in E.
  destruct (Erase _ _ _ _ w1) as [q w2 | | |]; try done.
  exists cap'.
  assert (Htake : length (take k vs) = k) by (rewrite length_take; lia).
  rewrite take_app_length' in E by done.
  replace (S k) with (length (take k vs) + 1)%nat in E by lia.
  rewrite drop_app_add in E. simpl in E. rewrite drop_0 in E.
  by rewrite take_drop in E.
Qed.

End NoThrow.

End Proofs.

(** * The claims *)

Section Claims.

Context {T : Type} `{ElemTraits T}.
Variable throws : list (event T) → action T → bool.
Variable debug : bool.

Local Abbreviation World := (World T).

Lemma holds_same_state (w w' : World) this vs cap :
  vecs w' = vecs w → heap w' = heap w →
  holds w this vs cap → holds w' this vs cap.
Proof.
  intros Hv Hh (v & ? & ? & ? & ? & Hbuf). exists v.
  unfold owns. rewrite Hv, Hh. done.
Qed.

Lemma ctor_events_copy (p : ptr) i (vs : list T) :
  use_move = false →
  ctor_events transfer_ctor p i vs = ctor_events CopyCtor p i vs.
Proof.
  intros E. unfold transfer_ctor. by rewrite E.
Qed.


(** C5.  [Reserve(k)] with [k <= capacity] returns at once: the whole
    state is as before, so there is no allocation, the capacity, the size
    and the elements are unchanged, and the history has no new event, in
    particular no constructor call. *)
Theorem Reserve_within_capacity_is_noop (w : World) this v k :
  vecs w !! this = Some v → k ≤ capacity_ (data_ v) →
  Reserve throws this k w = Ok tt w.
Proof.
  intros Hv Hk. unfold Reserve, bind, get_vec. rewrite Hv.
  by rewrite (proj2 (Z.leb_le _ _)) by done.
Qed.

(** C10.  Assigning a vector to itself, by the copying or the moving
    operator, returns at once with the whole state as before: nothing is
    allocated, constructed or destroyed, and the size, the capacity and
    the elements are unchanged. *)
Theorem self_assignment_is_noop (w : World) this :
  copy_assign throws debug this this w = Ok tt w ∧
  move_assign this this w = Ok tt w.
Proof.
  unfold copy_assign, move_assign.
  by rewrite bool_decide_eq_true_2 by done.
Qed.

Lemma owns_same_heap (w w' : World) v vs :
  heap w' = heap w → owns w v vs → owns w' v vs.
Proof. intros Hh. unfold owns. by rewrite Hh. Qed.

Lemma owns_empty (w : World) :
  owns w {| data_ := RawMemory_default; size_ := 0 |} [].
Proof. unfold owns. simpl. pose proof MAX_ELEMS_bounds. repeat split; try done; lia. Qed.

(** C3, as the code has it.  Move construction leaves the source empty,
    with size 0 and capacity 0, and the new vector holds the source's
    former elements in their order, in the source's former block.  Move
    assignment between two distinct vectors exchanges them: the
    destination holds the source's former elements in their order, and
    the source holds the destination's former elements and capacity.  No
    element is touched and nothing is allocated or released. *)
Theorem move_transfers_contents (w : World) :
  (∀ other vs cap,
     holds w other vs cap →
     ∃ w', Vector_move other w = Ok (length (vecs w)) w' ∧
           holds w' (length (vecs w)) vs cap ∧ holds w' other [] 0 ∧
           heap w' = heap w ∧ trace w' = trace w) ∧
  (∀ this rhs vs1 cap1 vs2 cap2,
     this ≠ rhs → holds w this vs1 cap1 → holds w rhs vs2 cap2 →
     ∃ w', move_assign this rhs w = Ok tt w' ∧
           holds w' this vs2 cap2 ∧ holds w' rhs vs1 cap1 ∧
           heap w' = heap w ∧ trace w' = trace w).
Proof.
  split.
  - intros other vs cap (v & Hv & Hcap & Hown).
    assert (Hlt : (other < length (vecs w))%nat) by (by eapply lookup_lt_Some).
    unfold Vector_move, Vector_default, bind, new_vec.
    erewrite (Swap_spec _ (length (vecs w)) other
                {| data_ := RawMemory_default; size_ := 0 |} v);
      [ | lia | by apply list_lookup_middle
        | cbn [vecs]; by rewrite lookup_app_l
        | done | by eapply owns_null_is_empty ].
    eexists. split; [reflexivity |]. cbn [heap vecs trace].
    split; [| split; [| done]].
    + exists v. split; [| split; [done | by eapply owns_same_heap]].
      cbn [vecs]. rewrite list_lookup_insert_ne by lia.
      apply list_lookup_insert_eq. rewrite length_app. simpl. lia.
    + eexists. split; [| split; [| apply owns_empty]].
      * cbn [vecs]. apply list_lookup_insert_eq.
        rewrite length_insert, length_app. simpl. lia.
      * done.
  - intros this rhs vs1 cap1 vs2 cap2 Hne (v1 & Hv1 & Hc1 & Ho1) (v2 & Hv2 & Hc2 & Ho2).
    assert (Hl1 : (this < length (vecs w))%nat) by (by eapply lookup_lt_Some).
    assert (Hl2 : (rhs < length (vecs w))%nat) by (by eapply lookup_lt_Some).
    unfold move_assign. rewrite bool_decide_eq_false_2 by done.
    erewrite (Swap_spec _ this rhs v1 v2);
      [ | done | done | done | by eapply owns_null_is_empty
        | by eapply owns_null_is_empty ].
    eexists. split; [reflexivity |]. cbn [heap vecs trace].
    split; [| split; [| done]].
    + exists v2. split; [| split; [done | by eapply owns_same_heap]].
      cbn [vecs]. rewrite list_lookup_insert_ne by done.
      by apply list_lookup_insert_eq.
    + exists v1. split; [| split; [done | by eapply owns_same_heap]].
      cbn [vecs]. apply list_lookup_insert_eq. by rewrite length_insert.
Qed.

(** C9, as the code has it.  Indexed access with [index >= size] fails
    the assertion of a debug build, and in a release build reading through
    the reference it returns is undefined behaviour.  [PopBack] on an empty
    vector is undefined behaviour in both builds: no assertion guards it. *)
Theorem precondition_violations (w : World) this vs cap :
  holds w this vs cap →
  (∀ i, Z.of_nat (length vs) ≤ i → index true this i w = AssertFail) ∧
  (∀ i, Z.of_nat (length vs) ≤ i →
        (p <- index false this i ;; load p) w = Undefined) ∧
  (vs = [] → PopBack debug this w = Undefined).
Proof.
  intros (v & Hv & Hcap & Hsz & Hbd & Hbuf). split; [| split].
  - intros i Hi. unfold index, bind, get_vec, assert_. rewrite Hv.
    by rewrite (proj2 (Z.ltb_ge _ _)) by lia.
  - intros i Hi. unfold index, RawMemory_index, bind, get_vec, assert_.
    rewrite Hv. simpl. unfold load, bind, read_cell, cells_of.
    destruct v as [[[[b|] o] c] sz]; simpl in *; [| done].
    destruct Hbuf as (-> & _ & ->).
    rewrite (proj2 (Z.leb_le _ _)) by lia.
    rewrite lookup_app_r by (rewrite length_fmap; lia).
    destruct (replicate _ Raw !! _) as [x|] eqn:E; [| done].
    by apply lookup_replicate in E as [-> _].
  - intros ->. unfold PopBack, RawMemory_plus, bind, get_vec, assert_.
    rewrite Hv. simpl in *. rewrite Hsz.
    rewrite (proj2 (Z.leb_le 0 _)) by lia.
    rewrite andb_false_r. unfold ret.
    unfold destroy_n. simpl. unfold bind, Destroy, bind, read_cell, cells_of.
    destruct v as [[[[b|] o] c] sz]; simpl in *; [| done].
    destruct Hbuf as (-> & _ & ->). done.
Qed.

End Claims.

(** * Instances *)

Ltac solve_holds :=
  eexists; split; [reflexivity |]; split; [reflexivity |];
  unfold owns; simpl; repeat split; try reflexivity; try (by vm_compute).

(** The sample states are valid vectors.  The element type enters the
    representation only through the bound on the capacity, and the
    element types above all have four bytes: the statements below, made
    for [int], are by computation statements for the other two as well. *)
Lemma full3_holds : holds (H := int_traits) full3 0 [1; 2; 3] 3.
Proof. solve_holds. Qed.


Lemma Reserve_within_capacity_is_noop_witness :
  Reserve (H := int_traits) never 0 2 full3 = Ok tt full3.
Proof.
  apply (Reserve_within_capacity_is_noop (H := int_traits) never full3 0 _ 2 eq_refl).
  simpl. lia.
Defined.

Lemma two_vectors_holds :
  holds (H := int_traits) two_vectors 0 [7] 1 ∧
  holds (H := int_traits) two_vectors 1 [1; 2] 2.
Proof. split; solve_holds. Qed.

Lemma one_empty_holds : holds (H := int_traits) one_empty 0 [] 0.
Proof. solve_holds. Qed.

(** Against C3 as stated: after [a = std::move(b)] with [a] holding 7 the
    source [b] is not empty, it holds 7 in a block of capacity 1. *)
Lemma move_assign_source_not_emptied :
  ¬ (∀ (w : World Z) this rhs vs cap w',
       invariant (H := int_traits) w this → holds (H := int_traits) w rhs vs cap →
       move_assign this rhs w = Ok tt w' →
       holds (H := int_traits) w' this vs cap ∧ holds (H := int_traits) w' rhs [] 0).
Proof.
  intros Hclaim.
  edestruct (Hclaim two_vectors 0%nat 1%nat [1; 2] 2) as [_ (v & Hv & Hcap & _)].
  - exists [7], 1. apply two_vectors_holds.
  - apply two_vectors_holds.
  - vm_compute. reflexivity.
  - vm_compute in Hv. injection Hv as <-. vm_compute in Hcap. discriminate.
Qed.

Lemma move_transfers_contents_witness :
  (∃ w', Vector_move 1 two_vectors = Ok 2%nat w' ∧
         holds (H := int_traits) w' 2 [1; 2] 2 ∧
         holds (H := int_traits) w' 1 [] 0) ∧
  (∃ w', move_assign 0 1 two_vectors = Ok tt w' ∧
         holds (H := int_traits) w' 0 [1; 2] 2 ∧
         holds (H := int_traits) w' 1 [7] 1).
Proof.
  destruct (move_transfers_contents (H := int_traits) two_vectors) as [Hctor Hassign].
  destruct two_vectors_holds as [H0 H1].
  split.
  - destruct (Hctor 1%nat [1; 2] 2 H1) as (w' & E & Hnew & Hold & _).
    exists w'. split; [exact E |]. split; [exact Hnew | exact Hold].
  - destruct (Hassign 0%nat 1%nat [7] 1 [1; 2] 2 ltac:(lia) H0 H1)
      as (w' & E & Hthis & Hrhs & _).
    exists w'. split; [exact E |]. split; [exact Hthis | exact Hrhs].
Defined.

(** Against C9 as stated: in a debug build [PopBack] on an empty vector
    does not fail an assertion. *)
Lemma PopBack_empty_no_assertion :
  ¬ (∀ (w : World Z) this cap,
       holds (H := int_traits) w this [] cap → PopBack true this w = AssertFail).
Proof.
  intros Hclaim.
  specialize (Hclaim one_empty 0%nat 0 one_empty_holds).
  vm_compute in Hclaim. discriminate.
Qed.

Lemma precondition_violations_witness :
  index true 0 3 full3 = AssertFail ∧
  (p <- index false 0 3 ;; load p) full3 = Undefined ∧
  PopBack true 0 one_empty = Undefined.
Proof.
  destruct (precondition_violations true full3 0 [1; 2; 3] 3 full3_holds)
    as (Hdebug & Hrelease & _).
  destruct (precondition_violations true one_empty 0 [] 0 one_empty_holds)
    as (_ & _ & Hpop).
  split; [apply Hdebug; simpl; lia |].
  split; [apply Hrelease; simpl; lia | by apply Hpop].
Defined.

(** [Reserve(2^62 + 1)] on a vector of three elements of four bytes
    each: [operator new] is asked for [(2^62 + 1) * 4] bytes, which is 4
    as a [size_t]; the block has one cell, and the second element is
    copied behind it. *)
Example Reserve_behind_the_block :
  Reserve (H := thrower_traits) never 0 (2 ^ 62 + 1) full3 = Undefined.
Proof. vm_compute. reflexivity. Qed.





Lemma full2_holds : holds (H := int_traits) full2 0 [1; 2] 2.
Proof. solve_holds. Qed.

Lemma spare1_holds : holds (H := int_traits) spare1 0 [1] 2.
Proof. solve_holds. Qed.

(** Against C2: the copy of an existing element into the new block throws
    while [Insert] grows a full vector.  The handler destroys the new
    element and the exception stops there: [Insert] returns normally, the
    old elements are destroyed with the old block, and the vector is left
    with size 3 over a block whose slots 0 and 1 hold no object. *)
Theorem Emplace_swallows_transfer_failure :
  ∃ p w',
    Insert (H := thrower_traits) (copy_throws_at 1) true 0 (Ptr (Some 0%nat) 1) 99 full2
      = Ok p w' ∧
    trace w' =
      [EvAlloc 16 1; EvCtor (CopyCtor 99) (Ptr (Some 1%nat) 1);
       EvThrow (ACtor (CopyCtor 1)); EvDtor (Ptr (Some 1%nat) 1);
       EvCtor (CopyCtor 2) (Ptr (Some 1%nat) 2);
       EvDtor (Ptr (Some 0%nat) 0); EvDtor (Ptr (Some 0%nat) 1); EvDealloc 0] ∧
    vecs w' = [{| data_ := {| buffer_ := Ptr (Some 1%nat) 0; capacity_ := 4 |};
                  size_ := 3 |}] ∧
    heap w' = [Freed [Raw; Raw]; Block [Raw; Raw; Live 2; Raw]].
Proof.
  eexists _, _. split; [vm_compute; reflexivity |]. by repeat split.
Qed.

(** Against C7: on a vector of a class type holding one element in a block
    of two, [Insert] at [begin()] move-assigns the element to the raw slot
    after it, where no object was constructed, which is undefined
    behaviour; there is no state to erase from. *)
Theorem Insert_with_spare_capacity_undefined :
  invariant (H := thrower_traits) spare1 0 ∧
  Insert (H := thrower_traits) never true 0 (Ptr (Some 0%nat) 0) 99 spare1 = Undefined.
Proof.
  split; [exists [1], 2; apply spare1_holds | reflexivity].
Qed.

(** For [int] the storage behind the last element does hold an object, and
    the same calls are defined as long as the position is in front of
    [end()]: [Insert] at index 1 of [1, 2, 3] in a block of four gives
    [1, 99, 2, 3], and [Erase] at index 1 gives [1, 2, 3] back. *)
Example int_Insert_Erase_with_spare_capacity :
  ∃ w1 w2 p w3 q w4,
    Reserve (H := int_traits) never 0 4 one_empty = Ok tt w1 ∧
    (PushBack (H := int_traits) never true 0 1 ;;
     PushBack (H := int_traits) never true 0 2 ;;
     PushBack (H := int_traits) never true 0 3) w1 = Ok tt w2 ∧
    holds (H := int_traits) w2 0 [1; 2; 3] 4 ∧
    (b <- begin 0 ;; Insert (H := int_traits) never true 0 (b +ₚ 1) 99) w2 = Ok p w3 ∧
    holds (H := int_traits) w3 0 [1; 99; 2; 3] 4 ∧
    Erase (H := int_traits) never true 0 p w3 = Ok q w4 ∧
    holds (H := int_traits) w4 0 [1; 2; 3] 4.
Proof.
  eexists _, _, _, _, _, _.
  split; [vm_compute; reflexivity |].
  split; [vm_compute; reflexivity |].
  split; [solve_holds |].
  split; [vm_compute; reflexivity |].
  split; [solve_holds |].
  split; [vm_compute; reflexivity | solve_holds].
Qed.

(** At [end()] the spare-capacity path is undefined for [int] too: the
    range [begin() + pos_index, end() - 2) handed to [std::move_backward]
    ends in front of its start. *)
Example int_Insert_at_end_with_spare_capacity :
  (b <- begin 0 ;; Insert (H := int_traits) never true 0 (b +ₚ 1) 99) spare1 = Undefined.
Proof. reflexivity. Qed.

(** The scenario of two [PushBack]s, an [Insert] at index 1 and an [Erase]
    at index 0, on integers: the vector ends as [99, 2]. *)
Example int_push_insert_erase_scenario :
  ∃ w',
    (PushBack (H := int_traits) never true 0 1 ;;
     PushBack (H := int_traits) never true 0 2 ;;
     b <- begin 0 ;;
     Insert (H := int_traits) never true 0 (b +ₚ 1) 99 ;;
     b <- begin 0 ;;
     Erase (H := int_traits) never true 0 b ;;
     ret tt) one_empty = Ok tt w' ∧
    holds (H := int_traits) w' 0 [99; 2] 4.
Proof.
  eexists. split; [vm_compute; reflexivity | solve_holds].
Qed.

(** Against C8: the copy of an element behind the insertion point throws
    while [Insert] grows a full vector.  The handler destroys the elements
    in front of the new one and the exception stops there: [Insert]
    returns normally with size 3 over a block whose slots 0 and 2 hold no
    object, so the invariant that held before is broken. *)
Theorem Emplace_breaks_invariant :
  invariant (H := thrower_traits) full2 0 ∧
  ∃ p w',
    Insert (H := thrower_traits) (copy_throws_at 2) true 0 (Ptr (Some 0%nat) 1) 99 full2
      = Ok p w' ∧
    vecs w' = [{| data_ := {| buffer_ := Ptr (Some 1%nat) 0; capacity_ := 4 |};
                  size_ := 3 |}] ∧
    heap w' = [Freed [Raw; Raw]; Block [Raw; Live 99; Raw; Raw]] ∧
    ¬ invariant (H := thrower_traits) w' 0.
Proof.
  split; [exists [1; 2], 2; apply full2_holds |].
  eexists _, _. split; [vm_compute; reflexivity |].
  split; [done |]. split; [done |].
  intros (vs & cap & v & Hv & Hcap & Hsz & Hbd & Hbuf).
  injection Hv as <-. simpl in *.
  destruct Hbuf as (_ & _ & Hb).
  destruct vs as [|? vs]; [done |]. simpl in Hb. discriminate.
Qed.

(** * Specifications of the remaining member functions *)

Section Specifications.

Context {T : Type} `{ElemTraits T}.
Variable throws : list (event T) → action T → bool.
Variable debug : bool.

Local Abbreviation World := (World T).

(** ** The two shapes of a valid vector *)

Lemma holds_inv (w : World) this vs cap :
  holds w this vs cap →
  Z.of_nat (length vs) ≤ cap ≤ MAX_ELEMS ∧
  ((vs = [] ∧ cap = 0 ∧
    vecs w !! this = Some {| data_ := RawMemory_default; size_ := 0 |}) ∨
   (0 < cap ∧ ∃ b,
      vecs w !! this =
        Some {| data_ := {| buffer_ := Ptr (Some b) 0; capacity_ := cap |};
                size_ := Z.of_nat (length vs) |} ∧
      heap w !! b =
        Some (Block ((Live <$> vs) ++ replicate (Z.to_nat cap - length vs) Raw)))).
Proof.
  intros (v & Hv & Hcap & Hsz & Hbd & Hbuf).
  destruct v as [[[[b|] o] c] sz]; simpl in *; subst c sz.
  - destruct Hbuf as (-> & Hpos & Hb). split; [done |]. right. split; [done |].
    by exists b.
  - destruct Hbuf as [Hnull ->]. injection Hnull as ->. split; [done |]. left.
    destruct vs; [done | simpl in Hbd; lia].
Qed.

Lemma holds_block (w : World) this vs cap b :
  vecs w !! this =
    Some {| data_ := {| buffer_ := Ptr (Some b) 0; capacity_ := cap |};
            size_ := Z.of_nat (length vs) |} →
  heap w !! b =
    Some (Block ((Live <$> vs) ++ replicate (Z.to_nat cap - length vs) Raw)) →
  Z.of_nat (length vs) ≤ cap ≤ MAX_ELEMS → 0 < cap →
  holds w this vs cap.
Proof.
  intros Hv Hb Hbd Hpos. eexists. split; [exact Hv |]. split; [done |].
  unfold owns. simpl. done.
Qed.

(** ** [PopBack] *)

Lemma PopBack_spec (w : World) this vs x cap :
  holds w this (vs ++ [x]) cap →
  ∃ b, vecs w !! this =
         Some {| data_ := {| buffer_ := Ptr (Some b) 0; capacity_ := cap |};
                 size_ := Z.of_nat (length vs) + 1 |} ∧
    PopBack debug this w =
      Ok tt {| heap := <[b := Block ((Live <$> vs) ++
                             replicate (Z.to_nat cap - length vs) Raw)]> (heap w);
               vecs := <[this := {| data_ := {| buffer_ := Ptr (Some b) 0;
                                                capacity_ := cap |};
                                    size_ := Z.of_nat (length vs) |}]> (vecs w);
               trace := trace w ++ [EvDtor (Ptr (Some b) (Z.of_nat (length vs)))] |}.
Proof.
  intros Hh. destruct (holds_inv _ _ _ _ Hh) as [Hbd [(Hnil & _) | (Hpos & b & Hv & Hb)]].
  { by destruct vs. }
  rewrite length_app in Hv, Hb, Hbd. simpl in Hv, Hb, Hbd.
  rewrite Nat2Z.inj_add in Hv. simpl in Hv.
  exists b. split; [done |].
  unfold PopBack. unfold bind at 1. rewrite (get_vec_spec _ _ _ Hv).
  cbn [data_ size_]. unfold bind at 1.
  rewrite RawMemory_plus_ok by (cbn [capacity_]; lia).
  cbn [buffer_]. unfold ptr_add. cbn [base off].
  unfold bind at 1. unfold destroy_n. change (Z.to_nat 1) with 1%nat.
  cbn [destroy_loop]. unfold bind at 1. unfold ptr_add. cbn [base off].
  rewrite fmap_app, <- app_assoc in Hb. simpl in Hb.
  erewrite (Destroy_middle _ b (Live <$> vs) x); [ | exact Hb | rewrite length_fmap; lia ].
  unfold ret. erewrite set_size_spec by exact Hv.
  cbn [heap vecs trace data_].
  rewrite size_t_small by lia.
  do 2 f_equal.
  - do 3 f_equal. replace (Z.to_nat cap - length vs)%nat
      with (S (Z.to_nat cap - (length vs + 1)))%nat by lia. done.
  - do 3 f_equal. lia.
  - do 4 f_equal. lia.
Qed.


(** ** [EmplaceBack] with spare capacity *)

Lemma EmplaceBack_spare_spec (w : World) this vs cap args :
  holds w this vs cap → Z.of_nat (length vs) < cap →
  ∃ b, vecs w !! this =
         Some {| data_ := {| buffer_ := Ptr (Some b) 0; capacity_ := cap |};
                 size_ := Z.of_nat (length vs) |} ∧
    heap w !! b =
      Some (Block ((Live <$> vs) ++ replicate (Z.to_nat cap - length vs) Raw)) ∧
    EmplaceBack throws debug this args w =
      if can_throw (ACtor args) && throws (trace w) (ACtor args)
      then Throw elem_exception
             {| heap := heap w; vecs := vecs w;
                trace := trace w ++ [EvThrow (ACtor args)] |}
      else Ok (Ptr (Some b) (Z.of_nat (length vs)))
             {| heap := <[b := Block ((Live <$> (vs ++ [built args])) ++
                             replicate (Z.to_nat cap - length vs - 1) Raw)]> (heap w);
                vecs := <[this := {| data_ := {| buffer_ := Ptr (Some b) 0;
                                                 capacity_ := cap |};
                                     size_ := Z.of_nat (length vs) + 1 |}]> (vecs w);
                trace := trace w ++ [EvCtor args (Ptr (Some b) (Z.of_nat (length vs)))] |}.
Proof.
  intros Hh Hspare.
  destruct (holds_inv _ _ _ _ Hh) as [Hbd [(_ & -> & _) | (Hpos & b & Hv & Hb)]]; [lia |].
  exists b. split; [done |]. split; [done |].
  assert (Hlt : (this < length (vecs w))%nat) by (by eapply lookup_lt_Some).
  unfold EmplaceBack. unfold bind at 1. rewrite (get_vec_spec _ _ _ Hv).
  cbn [data_ size_ capacity_ buffer_].
  rewrite (proj2 (Z.eqb_neq _ _)) by lia.
  unfold bind at 1. unfold bind at 1.
  rewrite RawMemory_plus_ok by (cbn [capacity_]; lia).
  cbn [buffer_]. unfold ptr_add. cbn [base off]. rewrite Z.add_0_l.
  assert (Hb' : heap w !! b = Some (Block ((Live <$> vs) ++ Raw ::
             replicate (Z.to_nat cap - length vs - 1) Raw))).
  { rewrite Hb. do 3 f_equal. rewrite <- replicate_S. f_equal. lia. }
  erewrite (construct_at_middle throws _ b (Live <$> vs) Raw);
    [ | exact Hb' | by rewrite length_fmap ].
  destruct (can_throw (ACtor args) && throws (trace w) (ACtor args)); [done |].
  unfold bind at 1. erewrite set_size_spec by exact Hv.
  unfold bind at 1.
  erewrite get_vec_spec by (cbn [vecs]; by apply list_lookup_insert_eq).
  unfold RawMemory_index, bind, assert_, ret. cbn [data_ size_ capacity_ buffer_].
  rewrite !size_t_small by (rewrite ?size_t_small; lia).
  rewrite (proj2 (Z.ltb_lt _ _)) by lia. rewrite andb_false_r.
  unfold ptr_add. cbn [base off heap vecs trace].
  f_equal; [f_equal; lia |]. f_equal.
  by rewrite fmap_app, <- app_assoc.
Qed.


(** ** [EmplaceBack] at capacity, whatever throws *)

Ltac heap_lookup' :=
  cbn [heap];
  repeat first
    [ rewrite list_lookup_insert_eq
        by (rewrite ?length_insert, ?length_app; simpl; lia)
    | rewrite list_lookup_insert_ne by lia
    | rewrite lookup_app_l by lia ].

Lemma EmplaceBack_full_spec (w : World) this vs cap args :
  holds w this vs cap → Z.of_nat (length vs) = cap →
  let n' := Z.max 1 (cap * 2) in
  let bnew := length (heap w) in
  let fresh := replicate (length vs) Raw ++ Live (built args) ::
               replicate (Z.to_nat n' - length vs - 1) Raw in
  match EmplaceBack throws debug this args w with
  | Ok p w' =>
      holds w' this (vs ++ [built args]) n' ∧
      p = Ptr (Some bnew) (Z.of_nat (length vs)) ∧
      vecs w' !! this =
        Some {| data_ := {| buffer_ := Ptr (Some bnew) 0; capacity_ := n' |};
                size_ := Z.of_nat (length vs) + 1 |} ∧
      ∃ v, vecs w !! this = Some v ∧
        trace w' = trace w ++ EvAlloc (byte_size n') bnew ::
          EvCtor args (Ptr (Some bnew) (Z.of_nat (length vs))) ::
          ctor_events transfer_ctor (Ptr (Some bnew) 0) 0 vs ++
          dtor_events (buffer_ (data_ v)) 0 (length vs) ++
          release_events (buffer_ (data_ v))
  | Throw e w' =>
      vecs w' = vecs w ∧
      ((e = bad_alloc ∧ heap w' = heap w ∧
        trace w' = trace w ++ [EvThrow (AAlloc (byte_size n'))])
       ∨
       (e = elem_exception ∧
        heap w' = heap w ++ [Freed (replicate (Z.to_nat n') Raw)] ∧
        trace w' = trace w ++
          [EvAlloc (byte_size n') bnew; EvThrow (ACtor args); EvDealloc bnew])
       ∨
       (e = elem_exception ∧
        ∃ t1 v t2, vs = t1 ++ v :: t2 ∧
          holds w' this ((source_after <$> t1) ++ v :: t2) cap ∧
          (∃ h, heap w' = h ++ [Freed fresh] ∧ (use_move = false → h = heap w)) ∧
          trace w' = trace w ++ EvAlloc (byte_size n') bnew ::
            EvCtor args (Ptr (Some bnew) (Z.of_nat (length vs))) ::
            ctor_events transfer_ctor (Ptr (Some bnew) 0) 0 t1 ++
            [EvThrow (ACtor (transfer_ctor v))] ++
            dtor_events (Ptr (Some bnew) 0) 0 (length t1) ++
            [EvDealloc bnew]))
  | _ => False
  end.
Proof.
  intros Hh Hfull n' bnew fresh. subst cap.
  destruct (holds_inv _ _ _ _ Hh) as [Hbd Hshape].
  assert (Hn' : 0 < n') by (subst n'; lia).
  assert (Hv0 : ∃ v, vecs w !! this = Some v ∧ size_ v = Z.of_nat (length vs) ∧
                     capacity_ (data_ v) = Z.of_nat (length vs)).
  { destruct Hshape as [(-> & _ & Hv) | (_ & b & Hv & _)]; eexists; (split; [exact Hv |]);
      simpl; lia. }
  destruct Hv0 as (v & Hv & Hsz & Hcap).
  assert (Hlt : (this < length (vecs w))%nat) by (by eapply lookup_lt_Some).
  unfold EmplaceBack. unfold bind at 1. rewrite (get_vec_spec _ _ _ Hv).
  rewrite (proj2 (Z.eqb_eq _ _)) by lia.
  rewrite Hsz. rewrite grown_capacity_max by lia. fold n'.
  unfold bind at 1. unfold bind at 1.
  rewrite RawMemory_new_spec by solve_fits.
  destruct (MAX_ELEMS <? n') eqn:Emax.
  { simpl. split; [done |]. by left. }
  destruct (throws (trace w) (AAlloc (byte_size n'))) eqn:Ealloc.
  { simpl. split; [done |]. by left. }
  simpl orb. cbv iota. apply Z.ltb_ge in Emax. fold bnew.
  unfold bind at 1. unfold unwinding, try_catch.
  unfold bind at 1. rewrite RawMemory_plus_ok by (cbn [capacity_]; lia).
  cbn [buffer_]. unfold ptr_add. cbn [base off]. rewrite Z.add_0_l.
  unfold bind at 1.
  erewrite (construct_at_middle throws _ bnew (replicate (length vs) Raw) Raw
              (replicate (Z.to_nat n' - length vs - 1) Raw));
    [ | cbn [heap]; rewrite (list_lookup_middle _ [] _ bnew eq_refl);
        do 2 f_equal; rewrite <- replicate_S, <- replicate_add; f_equal; lia
      | rewrite length_replicate; lia ].
  cbn [trace].
  destruct (can_throw (ACtor args) && throws _ (ACtor args)).
  { (* the constructor of the new element threw *)
    unfold bind at 1.
    erewrite RawMemory_delete_block
      by (cbn [heap]; apply (list_lookup_middle _ [] _ bnew eq_refl)).
    unfold throw. cbn [heap vecs trace]. split; [done |]. right. left.
    split; [done |]. split.
    - subst bnew. rewrite (insert_app_r_alt _ _ (length (heap w))) by lia.
      rewrite Nat.sub_diag. reflexivity.
    - by rewrite <- !app_assoc. }
  rewrite SafeCopyingOrMoving_loop.
  set (w1 := {| heap := <[bnew := _]> _; vecs := _; trace := _ |}).
  assert (Hw1 : heap w1 !! bnew = Some (Block fresh)).
  { subst w1. cbn [heap]. apply list_lookup_insert_eq. rewrite length_app. simpl. lia. }
  destruct Hshape as [(-> & _ & Hv') | (Hpos & b & Hv' & Hb)].
  - (* the vector is empty and owns nothing *)
    rewrite Hv in Hv'. injection Hv' as ->.
    cbn [data_ size_ buffer_ RawMemory_default length].
    change (Z.of_nat 0) with 0. change (Z.to_nat 0) with 0%nat.
    cbn [uninitialized_loop]. unfold ret.
    unfold bind at 1. erewrite set_data_spec by exact Hv.
    unfold bind at 1. rewrite destroy_n_zero.
    unfold RawMemory_default. rewrite RawMemory_delete_null.
    unfold bind at 1.
    erewrite set_size_spec by (cbn [vecs]; by apply list_lookup_insert_eq).
    unfold bind at 1.
    erewrite get_vec_spec
      by (cbn [vecs]; apply list_lookup_insert_eq; by rewrite length_insert).
    unfold RawMemory_index, bind, assert_, ret. cbn [data_ size_ capacity_ buffer_].
    rewrite !size_t_small by (rewrite ?size_t_small; lia).
    rewrite (proj2 (Z.ltb_lt _ _)) by lia. rewrite andb_false_r.
    split; [| split; [done | split]].
    2: { cbn [vecs]. rewrite list_insert_insert_eq. by apply list_lookup_insert_eq. }
    + eapply (holds_block _ _ _ _ bnew).
      * cbn [vecs]. rewrite list_insert_insert_eq.
        by apply list_lookup_insert_eq.
      * cbn [heap]. rewrite Hw1. subst fresh. simpl. done.
      * simpl. lia.
      * lia.
    + eexists. split; [exact Hv |]. subst w1. cbn [trace]. simpl.
      by rewrite <- !app_assoc.
  - (* the vector owns a block *)
    rewrite Hv in Hv'. injection Hv' as ->.
    cbn [data_ size_ buffer_ capacity_].
    rewrite Nat2Z.id.
    assert (Hblt : (b < bnew)%nat) by (by eapply lookup_lt_Some).
    assert (Hne : b ≠ bnew) by lia.
    rewrite Nat2Z.id, Nat.sub_diag in Hb. simpl in Hb.
    pose proof (transfer_loop_spec throws _ _ _ (transfer_step_spec throws) b bnew []
      [] [] (Live (built args) :: replicate (Z.to_nat n' - length vs - 1) Raw)
      0 0 Hne eq_refl eq_refl
      vs [] w1 _ _
      ltac:(subst w1; heap_lookup'; exact Hb) eq_refl Hw1 eq_refl) as Hloop.
    simpl in Hloop. change 0 with (Z.of_nat 0) at 3.
    destruct (uninitialized_loop _ _ _ _ _ w1) as [[] w2 | e w2 | |]; try done.
    + (* every element was transferred *)
      subst w2. unfold bind at 1.
      erewrite set_data_spec by exact Hv.
      unfold bind at 1.
      erewrite (destroy_n_spec b 0 _ (source_after <$> vs) []);
        [ | cbn [heap]; rewrite list_lookup_insert_eq
                by (subst w1; rewrite !length_insert, length_app; simpl; lia);
            simpl; reflexivity
          | done | by rewrite length_fmap ].
      erewrite RawMemory_delete_block;
        [ | cbn [heap]; rewrite list_lookup_insert_eq
                by (subst w1; cbn [heap]; rewrite !length_insert, length_app; simpl; lia);
            reflexivity ].
      unfold bind at 1.
      erewrite set_size_spec by (cbn [vecs]; by apply list_lookup_insert_eq).
      unfold bind at 1.
      erewrite get_vec_spec
        by (cbn [vecs]; apply list_lookup_insert_eq; by rewrite length_insert).
      unfold RawMemory_index, bind, assert_, ret. cbn [data_ size_ capacity_ buffer_].
      rewrite !size_t_small by (rewrite ?size_t_small; lia).
      rewrite (proj2 (Z.ltb_lt _ _)) by lia. rewrite andb_false_r.
      unfold ptr_add. cbn [base off].
      split; [| split; [f_equal; lia | split]].
      2: { cbn [vecs]. rewrite list_insert_insert_eq. by apply list_lookup_insert_eq. }
      * eapply (holds_block _ _ _ _ bnew).
        -- cbn [vecs]. rewrite list_insert_insert_eq.
           rewrite length_app. simpl. rewrite Nat2Z.inj_add. simpl.
           by apply list_lookup_insert_eq.
        -- subst w1. cbn [heap]. rewrite !list_insert_insert_eq.
           rewrite list_lookup_insert_ne by lia.
           rewrite list_lookup_insert_eq by (rewrite length_app; simpl; lia).
           rewrite length_app. simpl.
           rewrite fmap_app, <- app_assoc. simpl.
           by replace (Z.to_nat n' - (length vs + 1))%nat
             with (Z.to_nat n' - length vs - 1)%nat by lia.
        -- rewrite length_app. simpl. lia.
        -- lia.
      * eexists. split; [exact Hv |]. subst w1. cbn [trace data_ buffer_]. simpl.
        rewrite length_fmap, <- !app_assoc. done.
    + (* a constructor threw during the transfer *)
      destruct Hloop as [-> (t1 & x & t2 & Hvs & Hthrow & ->)].
      unfold bind at 1.
      erewrite RawMemory_delete_block;
        [ | cbn [heap]; rewrite list_lookup_insert_ne by done;
            rewrite list_lookup_insert_eq
              by (subst w1; cbn [heap]; rewrite length_insert, length_app; simpl; lia);
            reflexivity ].
      unfold throw. cbn [heap vecs trace]. split; [done |]. right. right.
      split; [done |]. exists t1, x, t2. split; [done |].
      assert (Hlen : length ((source_after <$> t1) ++ x :: t2) = length vs).
      { rewrite Hvs, !length_app, length_fmap. done. }
      split; [| split].
      * eapply (holds_block _ _ _ _ b).
        -- cbn [vecs]. rewrite Hlen. exact Hv.
        -- subst w1. cbn [heap].
           rewrite list_lookup_insert_ne by done.
           rewrite list_lookup_insert_eq
             by (rewrite !length_insert, length_app; simpl; lia).
           rewrite Hlen, Nat2Z.id, Nat.sub_diag. simpl.
           rewrite app_nil_r, fmap_app. simpl. by rewrite app_nil_r.
        -- rewrite Hlen. lia.
        -- lia.
      * exists (<[b := Block ((Live <$> (source_after <$> t1)) ++ Live x ::
                 (Live <$> t2))]> (heap w)).
        split.
        -- subst w1 bnew. cbn [heap]. rewrite list_insert_insert_eq.
           rewrite fresh_block_update by done.
           do 3 f_equal. subst fresh. simpl. by rewrite app_nil_r.
        -- intros E. apply list_insert_id. rewrite Hb, Hvs.
           rewrite (source_after_copy _ E).
           by rewrite app_nil_r, fmap_app.
      * subst w1. cbn [trace]. rewrite <- !app_assoc. done.
Qed.


(** ** What a change elsewhere leaves of a vector *)

(** The block that a record points to, if any. *)
Lemma holds_frame (w w' : World) this vs cap :
  holds w this vs cap →
  vecs w' !! this = vecs w !! this →
  (∀ b bl, heap w !! b = Some bl →
     (∃ v, vecs w !! this = Some v ∧ base (buffer_ (data_ v)) = Some b) →
     heap w' !! b = Some bl) →
  holds w' this vs cap.
Proof.
  intros (v & Hv & Hcap & Hsz & Hbd & Hbuf) Hvecs Hheap.
  exists v. split; [by rewrite Hvecs |]. split; [done |].
  unfold owns. split; [done |]. split; [done |].
  destruct (base (buffer_ (data_ v))) as [b|] eqn:Eb; [| done].
  destruct Hbuf as (? & ? & Hb). split; [done |]. split; [done |].
  apply Hheap; [done |]. by exists v.
Qed.

Lemma holds_heap_app (w w' : World) this vs cap h :
  holds w this vs cap →
  vecs w' !! this = vecs w !! this →
  heap w' = heap w ++ h →
  holds w' this vs cap.
Proof.
  intros Hh Hvecs Hheap. eapply holds_frame; [done | done |].
  intros b bl Hb _. rewrite Hheap. rewrite lookup_app_l; [done |].
  by eapply lookup_lt_Some.
Qed.

(** ** Element access *)

Lemma index_spec (w : World) this vs cap i x :
  holds w this vs cap → vs !! i = Some x →
  ∃ v, vecs w !! this = Some v ∧
    index debug this (Z.of_nat i) w = Ok (buffer_ (data_ v) +ₚ Z.of_nat i) w ∧
    load (buffer_ (data_ v) +ₚ Z.of_nat i) w = Ok x w.
Proof.
  intros Hh Hx.
  assert (Hi : (i < length vs)%nat) by (by eapply lookup_lt_Some).
  destruct (holds_inv _ _ _ _ Hh) as [Hbd [(-> & _) | (Hpos & b & Hv & Hb)]]; [done |].
  eexists. split; [exact Hv |]. cbn [data_ buffer_]. split.
  - unfold index, bind. rewrite (get_vec_spec _ _ _ Hv).
    unfold assert_. cbn [size_ data_].
    rewrite (proj2 (Z.ltb_lt _ _)) by lia. rewrite andb_false_r.
    unfold RawMemory_index, bind, assert_, ret. cbn [capacity_ buffer_].
    rewrite (proj2 (Z.ltb_lt _ _)) by lia. by rewrite andb_false_r.
  - unfold ptr_add. cbn [base off]. rewrite Z.add_0_l.
    rewrite <- (take_drop_middle _ _ _ Hx) in Hb.
    rewrite fmap_app, <- app_assoc in Hb. simpl in Hb.
    eapply load_middle; [exact Hb |].
    rewrite length_fmap, length_take. lia.
Qed.

Lemma begin_end_spec (w : World) this vs cap :
  holds w this vs cap →
  ∃ v, vecs w !! this = Some v ∧
    begin this w = Ok (buffer_ (data_ v)) w ∧
    end_ debug this w = Ok (buffer_ (data_ v) +ₚ Z.of_nat (length vs)) w.
Proof.
  intros (v & Hv & Hcap & Hsz & Hbd & Hbuf).
  exists v. split; [done |]. split; [by apply begin_spec |].
  unfold end_, bind. rewrite (get_vec_spec _ _ _ Hv).
  rewrite RawMemory_plus_ok by lia. by rewrite Hsz.
Qed.

(** ** The destructor *)

Lemma Vector_destroy_spec (w : World) this vs cap :
  holds w this vs cap →
  ∃ v, vecs w !! this = Some v ∧
    Vector_destroy this w =
      Ok tt {| heap := match base (buffer_ (data_ v)) with
                       | Some b => <[b := Freed (replicate (Z.to_nat cap) Raw)]> (heap w)
                       | None => heap w
                       end;
               vecs := vecs w;
               trace := trace w ++ dtor_events (buffer_ (data_ v)) 0 (length vs) ++
                        release_events (buffer_ (data_ v)) |}.
Proof.
  intros Hh.
  destruct (holds_inv _ _ _ _ Hh) as [Hbd [(-> & -> & Hv) | (Hpos & b & Hv & Hb)]].
  - eexists. split; [exact Hv |].
    unfold Vector_destroy, bind. rewrite (get_vec_spec _ _ _ Hv).
    cbn [data_ size_ buffer_ RawMemory_default base nullptr].
    rewrite destroy_n_zero. unfold RawMemory_default. rewrite RawMemory_delete_null.
    destruct w. simpl. by rewrite app_nil_r.
  - eexists. split; [exact Hv |].
    unfold Vector_destroy. unfold bind at 1. rewrite (get_vec_spec _ _ _ Hv).
    cbn [data_ size_ buffer_ base].
    unfold bind at 1.
    erewrite (destroy_n_spec b 0 _ vs []); [ | exact Hb | done | done ].
    erewrite RawMemory_delete_block
      by (cbn [heap]; apply list_lookup_insert_eq; by eapply lookup_lt_Some).
    cbn [heap vecs trace]. rewrite list_insert_insert_eq.
    simpl. rewrite <- app_assoc.
    replace (replicate (length vs) Raw ++ replicate (Z.to_nat cap - length vs) Raw)
      with (replicate (Z.to_nat cap) (@Raw T)); [done |].
    rewrite <- replicate_add. f_equal. lia.
Qed.


(** ** The constructors that allocate *)

Lemma RawMemory_new_zero (w : World) :
  RawMemory_new throws 0 w = Ok RawMemory_default w.
Proof. done. Qed.

Lemma new_vec_holds_block (w : World) b vs cap :
  heap w !! b =
    Some (Block ((Live <$> vs) ++ replicate (Z.to_nat cap - length vs) Raw)) →
  Z.of_nat (length vs) ≤ cap ≤ MAX_ELEMS → 0 < cap →
  holds {| heap := heap w;
           vecs := vecs w ++ [{| data_ := {| buffer_ := Ptr (Some b) 0; capacity_ := cap |};
                                 size_ := Z.of_nat (length vs) |}];
           trace := trace w |} (length (vecs w)) vs cap.
Proof.
  intros Hb Hbd Hpos. eapply (holds_block _ _ _ _ b); try done.
  cbn [vecs]. by apply list_lookup_middle.
Qed.

Lemma Vector_sized_spec (w : World) n :
  0 ≤ n → byte_size n < SIZE_MOD →
  let bnew := length (heap w) in
  let vs := replicate (Z.to_nat n) value_init in
  match Vector_sized throws n w with
  | Ok this w' =>
      this = length (vecs w) ∧
      vecs w' = vecs w ++
        [{| data_ := if n =? 0 then RawMemory_default
                     else {| buffer_ := Ptr (Some bnew) 0; capacity_ := n |};
            size_ := n |}] ∧
      holds w' this vs n ∧
      (if n =? 0 then heap w' = heap w ∧ trace w' = trace w
       else heap w' = heap w ++ [Block (Live <$> vs)] ∧
            trace w' = trace w ++ EvAlloc (byte_size n) bnew ::
              ctor_events (λ _, ValueCtor) (Ptr (Some bnew) 0) 0 vs)
  | Throw e w' =>
      0 < n ∧ vecs w' = vecs w ∧
      ((e = bad_alloc ∧ heap w' = heap w ∧
        trace w' = trace w ++ [EvThrow (AAlloc (byte_size n))])
       ∨
       (e = elem_exception ∧
        heap w' = heap w ++ [Freed (replicate (Z.to_nat n) Raw)] ∧
        ∃ k1, (k1 < Z.to_nat n)%nat ∧
          trace w' = trace w ++ EvAlloc (byte_size n) bnew ::
            ctor_events (λ _, ValueCtor) (Ptr (Some bnew) 0) 0
              (replicate k1 value_init) ++
            [EvThrow (ACtor ValueCtor)] ++
            dtor_events (Ptr (Some bnew) 0) 0 k1 ++ [EvDealloc bnew]))
  | _ => False
  end.
Proof.
  intros Hn Hfit bnew vs.
  destruct (Z.eq_dec n 0) as [-> | Hne].
  - (* no storage is asked for *)
    unfold Vector_sized. unfold bind at 1. rewrite RawMemory_new_zero.
    unfold bind, unwinding, try_catch, uninitialized_value_construct_n, new_vec. simpl.
    split; [done |]. split; [done |]. split; [| done].
    eexists. split; [by apply list_lookup_middle |]. split; [done |].
    unfold owns. simpl. pose proof MAX_ELEMS_bounds. repeat split; try done; lia.
  - assert (Hpos : 0 < n) by lia.
    rewrite (proj2 (Z.eqb_neq _ _)) by done.
    unfold Vector_sized. unfold bind at 1.
    rewrite RawMemory_new_spec by solve_fits.
    destruct (MAX_ELEMS <? n) eqn:Emax.
    { simpl. split; [done |]. split; [done |]. by left. }
    destruct (throws (trace w) (AAlloc (byte_size n))) eqn:Ealloc.
    { simpl. split; [done |]. split; [done |]. by left. }
    simpl orb. cbv iota. apply Z.ltb_ge in Emax. fold bnew.
    unfold bind at 1. unfold unwinding, try_catch.
    unfold uninitialized_value_construct_n. cbn [buffer_].
    set (w1 := {| heap := heap w ++ _; vecs := _; trace := _ |}).
    pose proof (value_loop_spec throws bnew [] [] 0 (Ptr (Some bnew) 0) eq_refl
                  (Z.to_nat n) 0 w1 _
                  ltac:(subst w1 bnew; cbn [heap]; apply list_lookup_middle; done)) as Hloop.
    specialize (Hloop ltac:(simpl; by rewrite app_nil_r)).
    change (Z.of_nat 0) with 0 in Hloop.
    destruct (uninitialized_loop _ _ _ _ _ w1) as [[] w2 | e w2 | |]; try done.
    + subst w2. unfold new_vec. cbn [heap vecs trace].
      split; [done |]. split; [done |].
      assert (Hlen : length vs = Z.to_nat n) by (subst vs; by rewrite length_replicate).
      split; [| split].
      * eapply (holds_block _ _ _ _ bnew).
        -- cbn [vecs]. rewrite Hlen, Z2Nat.id by lia. by apply list_lookup_middle.
        -- cbn [heap]. subst w1. cbn [heap].
           rewrite list_lookup_insert_eq by (rewrite length_app; simpl; lia).
           rewrite Hlen, Nat.sub_diag. simpl. by rewrite !app_nil_r.
        -- lia.
        -- done.
      * subst w1 bnew. cbn [heap].
        rewrite (insert_app_r_alt _ _ (length (heap w))) by lia.
        rewrite Nat.sub_diag. simpl. by rewrite app_nil_r.
      * subst w1. cbn [trace]. by rewrite <- app_assoc.
    + destruct Hloop as [-> (k1 & Hk1 & Hthrow & ->)].
      unfold bind at 1.
      erewrite RawMemory_delete_block
        by (cbn [heap]; apply list_lookup_insert_eq; subst w1; cbn [heap];
            rewrite length_app; simpl; lia).
      unfold throw. cbn [heap vecs trace]. split; [done |]. split; [done |]. right.
      split; [done |]. split.
      * subst w1 bnew. cbn [heap]. rewrite list_insert_insert_eq.
        rewrite (insert_app_r_alt _ _ (length (heap w))) by lia.
        rewrite Nat.sub_diag. simpl. by rewrite app_nil_r.
      * exists k1. split; [done |]. subst w1. cbn [trace].
        by rewrite <- !app_assoc.
Qed.

Lemma Vector_copy_spec (w : World) other vs cap :
  holds w other vs cap →
  let bnew := length (heap w) in
  let n := Z.of_nat (length vs) in
  match Vector_copy throws other w with
  | Ok this w' =>
      this = length (vecs w) ∧
      vecs w' = vecs w ++
        [{| data_ := if n =? 0 then RawMemory_default
                     else {| buffer_ := Ptr (Some bnew) 0; capacity_ := n |};
            size_ := n |}] ∧
      holds w' this vs n ∧
      (if n =? 0 then heap w' = heap w ∧ trace w' = trace w
       else heap w' = heap w ++ [Block (Live <$> vs)] ∧
            trace w' = trace w ++ EvAlloc (byte_size n) bnew ::
              ctor_events CopyCtor (Ptr (Some bnew) 0) 0 vs)
  | Throw e w' =>
      0 < n ∧ vecs w' = vecs w ∧
      ((e = bad_alloc ∧ heap w' = heap w ∧
        trace w' = trace w ++ [EvThrow (AAlloc (byte_size n))])
       ∨
       (e = elem_exception ∧
        heap w' = heap w ++ [Freed (replicate (Z.to_nat n) Raw)] ∧
        ∃ t1 v t2, vs = t1 ++ v :: t2 ∧
          trace w' = trace w ++ EvAlloc (byte_size n) bnew ::
            ctor_events CopyCtor (Ptr (Some bnew) 0) 0 t1 ++
            [EvThrow (ACtor (CopyCtor v))] ++
            dtor_events (Ptr (Some bnew) 0) 0 (length t1) ++ [EvDealloc bnew]))
  | _ => False
  end.
Proof.
  intros Hh bnew n.
  destruct (holds_inv _ _ _ _ Hh) as [Hbd [(-> & -> & Hv) | (Hpos & b & Hv & Hb)]].
  - (* the source is empty and owns nothing *)
    unfold Vector_copy. unfold bind at 1. rewrite (get_vec_spec _ _ _ Hv).
    cbn [size_]. unfold bind at 1. rewrite RawMemory_new_zero.
    unfold bind, unwinding, try_catch, uninitialized_copy_n, new_vec. simpl.
    split; [done |]. split; [done |]. split; [| done].
    eexists. split; [by apply list_lookup_middle |]. split; [done |].
    unfold owns. simpl. pose proof MAX_ELEMS_bounds. repeat split; try done; lia.
  - unfold Vector_copy. unfold bind at 1. rewrite (get_vec_spec _ _ _ Hv).
    cbn [size_ data_ buffer_]. fold n.
    destruct (Z.eq_dec n 0) as [Hz | Hne].
    + (* the source holds no element: nothing is allocated *)
      assert (vs = []) as -> by (destruct vs; [done | subst n; simpl in Hz; lia]).
      subst n. simpl Z.of_nat.
      unfold bind at 1. rewrite RawMemory_new_zero.
      unfold bind, unwinding, try_catch, uninitialized_copy_n, new_vec. simpl.
      split; [done |]. split; [done |]. split; [| done].
      eexists. split; [by apply list_lookup_middle |]. split; [done |].
      unfold owns. simpl. pose proof MAX_ELEMS_bounds. repeat split; try done; lia.
    + assert (Hnpos : 0 < n) by lia.
      rewrite (proj2 (Z.eqb_neq _ _)) by done.
      unfold bind at 1. rewrite RawMemory_new_spec by solve_fits.
      destruct (MAX_ELEMS <? n) eqn:Emax.
      { simpl. split; [done |]. split; [done |]. by left. }
      destruct (throws (trace w) (AAlloc (byte_size n))) eqn:Ealloc.
      { simpl. split; [done |]. split; [done |]. by left. }
      simpl orb. cbv iota. apply Z.ltb_ge in Emax. fold bnew.
      unfold bind at 1. unfold unwinding, try_catch.
      unfold uninitialized_copy_n. cbn [buffer_].
      set (w1 := {| heap := heap w ++ _; vecs := _; trace := _ |}).
      assert (Hblt : (b < bnew)%nat) by (by eapply lookup_lt_Some).
      assert (Hbne : b ≠ bnew) by lia.
      pose proof (transfer_loop_spec throws _ _ _ (copy_construct_step throws) b bnew []
        (replicate (Z.to_nat cap - length vs) Raw) [] []
        0 0 Hbne eq_refl eq_refl
        vs [] w1 _ _
        ltac:(subst w1; cbn [heap]; rewrite lookup_app_l by done; exact Hb) eq_refl
        ltac:(subst w1 bnew; cbn [heap]; apply list_lookup_middle; done)) as Hloop.
      specialize (Hloop ltac:(subst n; rewrite Nat2Z.id; simpl; by rewrite app_nil_r)).
      simpl in Hloop. subst n. rewrite Nat2Z.id.
      change 0 with (Z.of_nat 0) at 3.
      destruct (uninitialized_loop _ _ _ _ _ w1) as [[] w2 | e w2 | |]; try done.
      * subst w2. unfold new_vec. cbn [heap vecs trace].
        split; [done |]. split; [done |].
        rewrite list_fmap_id.
        split; [| split].
        -- eapply (holds_block _ _ _ _ bnew).
           ++ cbn [vecs]. by apply list_lookup_middle.
           ++ cbn [heap]. subst w1. cbn [heap].
              rewrite list_lookup_insert_ne by done.
              rewrite list_lookup_insert_eq by (rewrite length_app; simpl; lia).
              rewrite Nat2Z.id, Nat.sub_diag. simpl. by rewrite !app_nil_r.
           ++ lia.
           ++ lia.
        -- subst w1 bnew. cbn [heap].
           rewrite list_insert_id.
           ++ rewrite (insert_app_r_alt _ _ (length (heap w))) by lia.
              rewrite Nat.sub_diag. simpl. by rewrite app_nil_r.
           ++ rewrite list_lookup_insert_ne by done.
              rewrite lookup_app_l by done. done.
        -- subst w1. cbn [trace]. by rewrite <- app_assoc.
      * destruct Hloop as [-> (t1 & x & t2 & Hvs & Hthrow & ->)].
        unfold bind at 1.
        erewrite RawMemory_delete_block;
          [ | cbn [heap]; rewrite list_lookup_insert_ne by done;
              rewrite list_lookup_insert_eq
                by (subst w1; cbn [heap]; rewrite length_app; simpl; lia);
              reflexivity ].
        unfold throw. cbn [heap vecs trace]. split; [lia |]. split; [done |]. right.
        split; [done |]. split.
        -- subst w1 bnew. cbn [heap].
           rewrite !list_fmap_id.
           rewrite fresh_block_update by done.
           rewrite list_insert_id.
           ++ simpl. by rewrite app_nil_r.
           ++ rewrite Hb, Hvs. by rewrite fmap_app, <- app_assoc.
        -- exists t1, x, t2. split; [done |]. subst w1. cbn [trace].
           by rewrite <- !app_assoc.
Qed.


(** ** Assignment to an element *)

Lemma copy_assign_cell_spec (w : World) bs bd spre v spost dpre d dpost so do_ :
  heap w !! bs = Some (Block (spre ++ Live v :: spost)) →
  heap w !! bd = Some (Block (dpre ++ Live d :: dpost)) →
  so = Z.of_nat (length spre) → do_ = Z.of_nat (length dpre) →
  copy_assign_cell throws (Ptr (Some bs) so) (Ptr (Some bd) do_) w =
    if throws (trace w) (ACopyAssign v)
    then Throw elem_exception
           {| heap := heap w; vecs := vecs w;
              trace := trace w ++ [EvThrow (ACopyAssign v)] |}
    else Ok tt
           {| heap := <[bd := Block (dpre ++ Live v :: dpost)]> (heap w);
              vecs := vecs w;
              trace := trace w ++ [EvAssign (ACopyAssign v) (Ptr (Some bd) do_)] |}.
Proof.
  intros Hs Hd Hso Hdo. unfold copy_assign_cell. unfold bind at 1.
  rewrite (load_middle _ _ _ _ _ _ Hs Hso).
  unfold assign_at. unfold bind at 1.
  rewrite (read_cell_middle _ _ _ _ _ _ Hd Hdo).
  unfold bind at 1. unfold may_throw. cbn [can_throw andb].
  destruct (throws (trace w) (ACopyAssign v)); [done |].
  unfold bind at 1.
  rewrite (write_cell_middle _ _ _ _ (Live v) _ _ Hd Hdo).
  done.
Qed.

(** The loop [data_[i] = rhs[i]] over the first elements of two vectors
    that do not share a block: an assignment that throws leaves the
    elements in front of it assigned and the others as they were. *)
Lemma assign_elements_spec this rhs bt br cap_t cap_r sz_t (src : list T) post_t post_r :
  bt ≠ br →
  Z.of_nat (length src) ≤ cap_r →
  ∀ (old : list T) (i : nat) (w : World),
    vecs w !! this =
      Some {| data_ := {| buffer_ := Ptr (Some bt) 0; capacity_ := cap_t |};
              size_ := sz_t |} →
    vecs w !! rhs =
      Some {| data_ := {| buffer_ := Ptr (Some br) 0; capacity_ := cap_r |};
              size_ := Z.of_nat (length src) |} →
    heap w !! br = Some (Block ((Live <$> src) ++ post_r)) →
    heap w !! bt = Some (Block ((Live <$> take i src) ++ (Live <$> old) ++ post_t)) →
    (i + length old ≤ length src)%nat →
    Z.of_nat (i + length old) ≤ cap_t →
    match assign_elements throws debug this rhs (Z.of_nat i) (length old) w with
    | Ok _ w' =>
        vecs w' = vecs w ∧ trace w `prefix_of` trace w' ∧
        heap w' = <[bt := Block ((Live <$> take (i + length old) src) ++ post_t)]> (heap w)
    | Throw e w' =>
        vecs w' = vecs w ∧ trace w `prefix_of` trace w' ∧
        ∃ j, (j < length old)%nat ∧
          heap w' = <[bt := Block ((Live <$> take (i + j) src) ++
                                   (Live <$> drop j old) ++ post_t)]> (heap w)
    | _ => False
    end.
Proof.
  intros Hne Hcr.
  induction old as [|o old IH]; intros i w Hvt Hvr Hbr Hbt Hlen Hct.
  - simpl. unfold ret. split; [done |]. split; [done |].
    rewrite Nat.add_0_r. symmetry. apply list_insert_id. by rewrite Hbt.
  - simpl in Hlen, Hct.
    assert (Hi : (i < length src)%nat) by lia.
    destruct (lookup_lt_is_Some_2 src i Hi) as [v Hv].
    cbn [assign_elements length]. unfold bind at 1.
    unfold index. unfold bind at 1. rewrite (get_vec_spec _ _ _ Hvr).
    unfold bind at 1. unfold assert_. cbn [size_ data_].
    rewrite (proj2 (Z.ltb_lt _ _)) by lia. rewrite andb_false_r.
    unfold RawMemory_index at 1. unfold bind at 1. unfold assert_. cbn [capacity_ buffer_].
    rewrite (proj2 (Z.ltb_lt _ _)) by lia. rewrite andb_false_r. unfold ret at 1.
    unfold bind at 1. rewrite (get_data_spec _ _ _ Hvt). cbn [data_].
    unfold bind at 1.
    unfold RawMemory_index at 1. unfold bind at 1. unfold assert_. cbn [capacity_ buffer_].
    rewrite (proj2 (Z.ltb_lt _ _)) by lia. rewrite andb_false_r. unfold ret at 1.
    unfold ptr_add. cbn [base off]. rewrite !Z.add_0_l.
    assert (Hbr' : heap w !! br =
      Some (Block ((Live <$> take i src) ++ Live v :: (Live <$> drop (S i) src) ++ post_r))).
    { rewrite Hbr. rewrite <- (take_drop_middle _ _ _ Hv) at 1.
      by rewrite fmap_app, <- app_assoc. }
    unfold bind at 1.
    erewrite (copy_assign_cell_spec _ br bt _ v _ (Live <$> take i src) o);
      [ | exact Hbr' | exact Hbt | rewrite length_fmap, length_take; lia
        | rewrite length_fmap, length_take; lia ].
    destruct (throws (trace w) (ACopyAssign v)).
    { cbn [heap vecs trace]. split; [done |]. split; [by apply prefix_app_r |].
      exists 0%nat. split; [simpl; lia |].
      rewrite Nat.add_0_r, drop_0. symmetry. apply list_insert_id. by rewrite Hbt. }
    assert (Hblt : (bt < length (heap w))%nat) by (by eapply lookup_lt_Some).
    set (w1 := {| heap := _; vecs := _; trace := _ |}).
    replace (Z.of_nat i + 1) with (Z.of_nat (S i)) by lia.
    specialize (IH (S i) w1 Hvt Hvr).
    specialize (IH ltac:(subst w1; cbn [heap]; by rewrite list_lookup_insert_ne by done)).
    specialize (IH ltac:(subst w1; cbn [heap]; rewrite list_lookup_insert_eq by done;
                         rewrite (take_S_r _ _ _ Hv), fmap_app, <- app_assoc; done)).
    specialize (IH ltac:(lia) ltac:(lia)).
    destruct (assign_elements _ _ _ _ _ _ w1) as [[] w2 | e w2 | |]; try done.
    + destruct IH as (Hvecs & Htr & Hheap). split; [done |].
      split; [etrans; [| exact Htr]; subst w1; by apply prefix_app_r |].
      rewrite Hheap. subst w1. cbn [heap]. rewrite list_insert_insert_eq.
      by replace (S i + length old)%nat with (i + S (length old))%nat by lia.
    + destruct IH as (Hvecs & Htr & j & Hj & Hheap). split; [done |].
      split; [etrans; [| exact Htr]; subst w1; by apply prefix_app_r |].
      exists (S j). split; [lia |].
      rewrite Hheap. subst w1. cbn [heap]. rewrite list_insert_insert_eq.
      by replace (S i + j)%nat with (i + S j)%nat by lia.
Qed.


(** ** Copy assignment into storage that is large enough *)

Lemma set_size_same (w : World) this v :
  vecs w !! this = Some v →
  set_size this (size_ v) w = Ok tt w.
Proof.
  intros Hv. rewrite (set_size_spec _ _ _ _ Hv).
  destruct w as [h vs tr]. cbn [heap vecs trace] in *. f_equal. f_equal.
  apply list_insert_id. rewrite Hv. by destruct v.
Qed.

Lemma copy_assign_in_place_spec (w : World) this rhs vs_t cap_t vs_r cap_r :
  this ≠ rhs →
  holds w this vs_t cap_t → holds w rhs vs_r cap_r → separate w this rhs →
  Z.of_nat (length vs_r) ≤ cap_t →
  match copy_assign throws debug this rhs w with
  | Ok _ w' =>
      holds w' this vs_r cap_t ∧ holds w' rhs vs_r cap_r ∧
      length (heap w') = length (heap w)
  | Throw e w' =>
      (∃ vs', holds w' this vs' cap_t ∧ length vs' = length vs_t) ∧
      holds w' rhs vs_r cap_r ∧ length (heap w') = length (heap w)
  | _ => False
  end.
Proof.
  intros Hthis Ht Hr Hsep Hfit.
  destruct (holds_inv _ _ _ _ Ht) as [Hbdt Hst].
  destruct (holds_inv _ _ _ _ Hr) as [Hbdr Hsr].
  unfold copy_assign. rewrite bool_decide_eq_false_2 by done.
  destruct Hst as [(-> & -> & Hvt) | (Hpt & bt & Hvt & Hbt)].
  - (* the destination owns nothing, so the source is empty *)
    assert (vs_r = []) as -> by (destruct vs_r; [done | simpl in Hfit; lia]).
    assert (Hvr : ∃ vr, vecs w !! rhs = Some vr ∧ size_ vr = 0).
    { destruct Hsr as [(_ & _ & Hvr) | (_ & br & Hvr & _)]; eexists; (split; [exact Hvr | done]). }
    destruct Hvr as (vr & Hvr & Hszr).
    unfold bind at 1. rewrite (get_vec_spec _ _ _ Hvt).
    unfold bind at 1. rewrite (get_vec_spec _ _ _ Hvr).
    cbn [data_ size_ capacity_ RawMemory_default]. rewrite Hszr.
    change (0 <? 0) with false. cbv iota.
    change (Z.to_nat 0) with 0%nat. cbn [assign_elements].
    unfold bind at 1. unfold bind at 1. unfold ret at 1.
    unfold bind at 1. rewrite RawMemory_plus_ok by (by vm_compute).
    change (size_t (0 - 0)) with 0. rewrite destroy_n_zero.
    pose proof (set_size_same _ _ _ Hvt) as Hs. cbn [size_] in Hs. rewrite Hs. done.
  - destruct Hsr as [(-> & -> & Hvr) | (Hpr & br & Hvr & Hbr)].
    + (* the source is empty and owns nothing: every element is destroyed *)
      unfold bind at 1. rewrite (get_vec_spec _ _ _ Hvt).
      unfold bind at 1. rewrite (get_vec_spec _ _ _ Hvr).
      cbn [data_ size_ capacity_ RawMemory_default].
      rewrite (proj2 (Z.ltb_ge _ _)) by lia.
      rewrite (proj2 (Z.ltb_ge _ _)) by lia.
      change (Z.to_nat 0) with 0%nat. cbn [assign_elements].
      unfold bind at 1. unfold bind at 1. unfold ret at 1.
      unfold bind at 1. rewrite RawMemory_plus_ok by (cbn [capacity_]; lia).
      cbn [buffer_]. unfold ptr_add. cbn [base off]. rewrite Z.add_0_l, Z.sub_0_r.
      rewrite size_t_small by lia.
      erewrite (destroy_n_spec bt 0 _ vs_t []); [ | exact Hbt | done | done ].
      erewrite set_size_spec by exact Hvt.
      cbn [heap vecs trace data_].
      split; [| split].
      * eapply (holds_block _ _ _ _ bt).
        -- cbn [vecs]. apply list_lookup_insert_eq. by eapply lookup_lt_Some.
        -- cbn [heap]. rewrite list_lookup_insert_eq by (by eapply lookup_lt_Some).
           simpl. do 2 f_equal. rewrite <- replicate_add. f_equal. lia.
        -- simpl. lia.
        -- done.
      * exists {| data_ := RawMemory_default; size_ := 0 |}. split; [| split; [done |]].
        -- cbn [vecs]. rewrite list_lookup_insert_ne by done. exact Hvr.
        -- unfold owns. simpl. pose proof MAX_ELEMS_bounds. repeat split; try done; lia.
      * cbn [heap]. by rewrite length_insert.
    + (* both own a block *)
      assert (Hne : bt ≠ br).
      { intros ->. by specialize (Hsep _ _ Hvt Hvr eq_refl). }
      assert (Hltt : (bt < length (heap w))%nat) by (by eapply lookup_lt_Some).
      assert (Hthislt : (this < length (vecs w))%nat) by (by eapply lookup_lt_Some).
      unfold bind at 1. rewrite (get_vec_spec _ _ _ Hvt).
      unfold bind at 1. rewrite (get_vec_spec _ _ _ Hvr).
      cbn [data_ size_ capacity_].
      rewrite (proj2 (Z.ltb_ge _ _)) by lia.
      destruct (Z.of_nat (length vs_t) <? Z.of_nat (length vs_r)) eqn:Elt.
      * (* fewer elements than the source: assign, then construct the rest *)
        apply Z.ltb_lt in Elt.
        rewrite Nat2Z.id.
        pose proof (assign_elements_spec this rhs bt br cap_t cap_r _ vs_r
          (replicate (Z.to_nat cap_t - length vs_t) Raw)
          (replicate (Z.to_nat cap_r - length vs_r) Raw) Hne ltac:(lia)
          vs_t 0%nat w Hvt Hvr Hbr Hbt ltac:(simpl; lia) ltac:(simpl; lia)) as Hloop.
        change (Z.of_nat 0) with 0 in Hloop. simpl (0 + _)%nat in Hloop.
        unfold bind at 1. unfold bind at 1.
        destruct (assign_elements _ _ _ _ _ _ w) as [[] w1 | e w1 | |]; try done.
        -- destruct Hloop as (Hvecs & Htr & Hheap).
           unfold bind at 1. rewrite RawMemory_plus_ok by (cbn [capacity_]; lia).
           unfold bind at 1. rewrite RawMemory_plus_ok by (cbn [capacity_]; lia).
           cbn [buffer_]. unfold ptr_add. cbn [base off]. rewrite !Z.add_0_l.
           rewrite size_t_small by lia.
           unfold uninitialized_copy_n.
           replace (Z.to_nat (Z.of_nat (length vs_r) - Z.of_nat (length vs_t)))
             with (length (drop (length vs_t) vs_r)) by (rewrite length_drop; lia).
           pose proof (transfer_loop_spec throws _ _ _ (copy_construct_step throws) br bt
             (Live <$> take (length vs_t) vs_r)
             (replicate (Z.to_nat cap_r - length vs_r) Raw)
             (Live <$> take (length vs_t) vs_r)
             (replicate (Z.to_nat cap_t - length vs_r) Raw)
             (Z.of_nat (length vs_t)) (Z.of_nat (length vs_t))
             ltac:(done)
             ltac:(rewrite length_fmap, length_take; lia)
             ltac:(rewrite length_fmap, length_take; lia)
             (drop (length vs_t) vs_r) [] w1 _ _
             ltac:(rewrite Hheap; rewrite list_lookup_insert_ne by done; exact Hbr)
             ltac:(simpl; rewrite app_assoc, <- fmap_app, take_drop; reflexivity)
             ltac:(rewrite Hheap; apply list_lookup_insert_eq; done)) as Hcopy.
           specialize (Hcopy ltac:(simpl; do 2 f_equal;
             rewrite <- replicate_add; f_equal; rewrite length_drop; lia)).
           simpl in Hcopy. change 0 with (Z.of_nat 0) at 1.
           destruct (uninitialized_loop _ _ _ _ _ w1) as [[] w2 | e w2 | |]; try done.
           ++ subst w2.
              erewrite set_size_spec by (cbn [vecs]; rewrite Hvecs; exact Hvt).
              cbn [heap vecs trace data_]. rewrite Hvecs, Hheap.
              rewrite !list_insert_insert_eq.
              rewrite list_fmap_id.
              split; [| split].
              ** eapply (holds_block _ _ _ _ bt).
                 --- cbn [vecs]. by apply list_lookup_insert_eq.
                 --- cbn [heap]. rewrite list_lookup_insert_ne by done.
                     rewrite list_lookup_insert_eq by done.
                     rewrite app_assoc, <- fmap_app, take_drop. done.
                 --- lia.
                 --- done.
              ** eapply (holds_block _ _ _ _ br).
                 --- cbn [vecs]. rewrite list_lookup_insert_ne by done. exact Hvr.
                 --- cbn [heap]. rewrite list_lookup_insert_eq
                       by (rewrite length_insert; by eapply lookup_lt_Some).
                     rewrite app_assoc, <- fmap_app, take_drop. done.
                 --- lia.
                 --- done.
              ** cbn [heap]. by rewrite !length_insert.
           ++ destruct Hcopy as [-> (t1 & x & t2 & Hvs & Hthrow & ->)].
              cbn [heap vecs trace]. rewrite Hvecs, Hheap.
              rewrite !list_insert_insert_eq.
              rewrite list_fmap_id.
              split; [| split].
              ** exists (take (length vs_t) vs_r). split.
                 --- eapply (holds_block _ _ _ _ bt).
                     +++ rewrite length_take.
                         replace (length vs_t `min` length vs_r)%nat
                           with (length vs_t) by lia. exact Hvt.
                     +++ cbn [heap]. rewrite list_lookup_insert_ne by done.
                         rewrite list_lookup_insert_eq by done.
                         rewrite length_take. do 3 f_equal.
                         rewrite <- replicate_add. f_equal.
                         rewrite Hvs, length_app. simpl.
                         assert (length (drop (length vs_t) vs_r) =
                                 length vs_r - length vs_t)%nat by apply length_drop.
                         rewrite Hvs, length_app in H0. simpl in H0. lia.
                     +++ rewrite length_take. lia.
                     +++ done.
                 --- rewrite length_take. lia.
              ** eapply (holds_block _ _ _ _ br).
                 --- exact Hvr.
                 --- cbn [heap]. rewrite list_lookup_insert_eq
                       by (rewrite length_insert; by eapply lookup_lt_Some).
                     transitivity (Some (Block
                       ((Live <$> (take (length vs_t) vs_r ++ drop (length vs_t) vs_r)) ++
                        replicate (Z.to_nat cap_r - length vs_r) Raw)));
                       [ rewrite Hvs, !fmap_app, <- !app_assoc; done
                       | by rewrite take_drop ].
                 --- lia.
                 --- done.
              ** cbn [heap]. by rewrite !length_insert.
        -- destruct Hloop as (Hvecs & Htr & j & Hj & Hheap).
           split; [| split].
           ++ exists (take j vs_r ++ drop j vs_t). split.
              ** assert (Hlen : length (take j vs_r ++ drop j vs_t) = length vs_t).
                 { rewrite length_app, length_take, length_drop. lia. }
                 eapply (holds_block _ _ _ _ bt).
                 --- rewrite Hlen, Hvecs. exact Hvt.
                 --- rewrite Hheap, Hlen. rewrite list_lookup_insert_eq by done.
                     by rewrite fmap_app, <- app_assoc.
                 --- rewrite Hlen. lia.
                 --- done.
              ** rewrite length_app, length_take, length_drop. lia.
           ++ eapply (holds_block _ _ _ _ br).
              ** rewrite Hvecs. exact Hvr.
              ** rewrite Hheap. rewrite list_lookup_insert_ne by done. exact Hbr.
              ** lia.
              ** done.
           ++ rewrite Hheap. by rewrite length_insert.
      * (* at least as many elements as the source: assign, then destroy the rest *)
        apply Z.ltb_ge in Elt.
        rewrite Nat2Z.id.
        assert (Hbt' : heap w !! bt =
          Some (Block ((Live <$> take 0 vs_r) ++ (Live <$> take (length vs_r) vs_t) ++
                       ((Live <$> drop (length vs_r) vs_t) ++
                        replicate (Z.to_nat cap_t - length vs_t) Raw)))).
        { rewrite Hbt. simpl. by rewrite app_assoc, <- fmap_app, take_drop. }
        assert (Hlk : length (take (length vs_r) vs_t) = length vs_r)
          by (rewrite length_take; lia).
        pose proof (assign_elements_spec this rhs bt br cap_t cap_r _ vs_r
          ((Live <$> drop (length vs_r) vs_t) ++
           replicate (Z.to_nat cap_t - length vs_t) Raw)
          (replicate (Z.to_nat cap_r - length vs_r) Raw) Hne ltac:(lia)
          (take (length vs_r) vs_t) 0%nat w Hvt Hvr Hbr Hbt'
          ltac:(rewrite Hlk; simpl; lia) ltac:(rewrite Hlk; simpl; lia)) as Hloop.
        rewrite Hlk in Hloop.
        change (Z.of_nat 0) with 0 in Hloop. simpl (0 + _)%nat in Hloop.
        unfold bind at 1. unfold bind at 1.
        destruct (assign_elements _ _ _ _ _ _ w) as [[] w1 | e w1 | |]; try done.
        -- destruct Hloop as (Hvecs & Htr & Hheap).
           unfold bind at 1. rewrite RawMemory_plus_ok by (cbn [capacity_]; lia).
           cbn [buffer_]. unfold ptr_add. cbn [base off]. rewrite !Z.add_0_l.
           rewrite size_t_small by lia.
           rewrite firstn_all in Hheap.
           erewrite (destroy_n_spec bt _ _ (drop (length vs_r) vs_t) (Live <$> vs_r));
             [ | rewrite Hheap; rewrite list_lookup_insert_eq by done; reflexivity
               | by rewrite length_fmap
               | rewrite length_drop; lia ].
           erewrite set_size_spec by (cbn [vecs]; rewrite Hvecs; exact Hvt).
           cbn [heap vecs trace data_]. rewrite Hvecs, Hheap.
           rewrite !list_insert_insert_eq.
           split; [| split].
           ++ eapply (holds_block _ _ _ _ bt).
              ** cbn [vecs]. by apply list_lookup_insert_eq.
              ** cbn [heap]. rewrite list_lookup_insert_eq by done.
                 do 3 f_equal. rewrite <- replicate_add. f_equal.
                 rewrite length_drop. lia.
              ** lia.
              ** done.
           ++ eapply (holds_block _ _ _ _ br).
              ** cbn [vecs]. rewrite list_lookup_insert_ne by done. exact Hvr.
              ** cbn [heap]. rewrite list_lookup_insert_ne by done. exact Hbr.
              ** lia.
              ** done.
           ++ cbn [heap]. by rewrite !length_insert.
        -- destruct Hloop as (Hvecs & Htr & j & Hj & Hheap).
           split; [| split].
           ++ exists (take j vs_r ++ drop j (take (length vs_r) vs_t) ++
                      drop (length vs_r) vs_t).
              assert (Hlen : length (take j vs_r ++ drop j (take (length vs_r) vs_t) ++
                      drop (length vs_r) vs_t) = length vs_t).
              { rewrite !length_app, length_take, !length_drop, length_take. lia. }
              split; [| done].
              eapply (holds_block _ _ _ _ bt).
              ** rewrite Hlen, Hvecs. exact Hvt.
              ** rewrite Hheap, Hlen. rewrite list_lookup_insert_eq by done.
                 by rewrite !fmap_app, <- !app_assoc.
              ** rewrite Hlen. lia.
              ** done.
           ++ eapply (holds_block _ _ _ _ br).
              ** rewrite Hvecs. exact Hvr.
              ** rewrite Hheap. rewrite list_lookup_insert_ne by done. exact Hbr.
              ** lia.
              ** done.
           ++ rewrite Hheap. by rewrite length_insert.
Qed.


(** ** Copy assignment that has to allocate *)

Lemma copy_assign_realloc_spec (w : World) this rhs vs_t cap_t vs_r cap_r :
  this ≠ rhs →
  holds w this vs_t cap_t → holds w rhs vs_r cap_r → separate w this rhs →
  cap_t < Z.of_nat (length vs_r) →
  let bnew := length (heap w) in
  let n := Z.of_nat (length vs_r) in
  match copy_assign throws debug this rhs w with
  | Ok _ w' =>
      holds w' this vs_r n ∧ holds w' rhs vs_r cap_r ∧
      ∃ vt, vecs w !! this = Some vt ∧
        trace w' = trace w ++ EvAlloc (byte_size n) bnew ::
          ctor_events CopyCtor (Ptr (Some bnew) 0) 0 vs_r ++
          dtor_events (buffer_ (data_ vt)) 0 (length vs_t) ++
          release_events (buffer_ (data_ vt))
  | Throw e w' =>
      vecs w' = vecs w ∧ holds w' this vs_t cap_t ∧ holds w' rhs vs_r cap_r
  | _ => False
  end.
Proof.
  intros Hthis Ht Hr Hsep Hsmall bnew n.
  destruct (holds_inv _ _ _ _ Ht) as [Hbdt _].
  assert (Hnpos : 0 < n) by (subst n; lia).
  pose proof Ht as (vt & Hvt & Hcapt & Hownt).
  pose proof Hr as (vr & Hvr & Hcapr & Hownr).
  assert (Hszr : size_ vr = n) by (by destruct Hownr as [-> _]).
  assert (Hlt : (this < length (vecs w))%nat) by (by eapply lookup_lt_Some).
  assert (Hlr : (rhs < length (vecs w))%nat) by (by eapply lookup_lt_Some).
  unfold copy_assign. rewrite bool_decide_eq_false_2 by done.
  unfold bind at 1. rewrite (get_vec_spec _ _ _ Hvt).
  unfold bind at 1. rewrite (get_vec_spec _ _ _ Hvr).
  rewrite Hcapt, Hszr. rewrite (proj2 (Z.ltb_lt _ _)) by done.
  unfold bind at 1. unfold bind at 1.
  pose proof (Vector_copy_spec w rhs vs_r cap_r Hr) as Hcopy.
  cbv zeta in Hcopy. fold n bnew in Hcopy.
  rewrite (proj2 (Z.eqb_neq n 0)) in Hcopy by lia.
  destruct (Vector_copy throws rhs w) as [c w1 | e w1 | |]; try done.
  - destruct Hcopy as (-> & Hvecs1 & Hc & Hheap1 & Htr1).
    set (vc := {| data_ := {| buffer_ := Ptr (Some bnew) 0; capacity_ := n |};
                  size_ := n |}) in *.
    pose proof Hc as (vc' & Hvc & Hcapc & Hownc).
    assert (vc' = vc) as ->.
    { rewrite Hvecs1 in Hvc. rewrite list_lookup_middle in Hvc by done. by injection Hvc. }
    assert (Hvt1 : vecs w1 !! this = Some vt) by (rewrite Hvecs1; by rewrite lookup_app_l).
    unfold bind at 1.
    erewrite (Swap_spec w1 this (length (vecs w)) vt vc);
      [ | lia | done | done | by eapply owns_null_is_empty | by eapply owns_null_is_empty ].
    set (w2 := {| heap := heap w1; vecs := _; trace := trace w1 |}).
    assert (Hold : holds w2 (length (vecs w)) vs_t cap_t).
    { exists vt. split; [| split; [done |]].
      - subst w2. cbn [vecs]. apply list_lookup_insert_eq.
        rewrite length_insert, Hvecs1, length_app. simpl. lia.
      - subst w2. unfold owns. cbn [heap]. rewrite Hheap1.
        destruct Hownt as (? & ? & Hbuf). split; [done |]. split; [done |].
        destruct (base (buffer_ (data_ vt))) as [b|]; [| done].
        destruct Hbuf as (? & ? & Hb). split; [done |]. split; [done |].
        rewrite lookup_app_l by (by eapply lookup_lt_Some). done. }
    destruct (Vector_destroy_spec w2 _ _ _ Hold) as (v' & Hv' & ->).
    assert (v' = vt) as ->.
    { subst w2. cbn [vecs] in Hv'. rewrite list_lookup_insert_eq in Hv'
        by (rewrite length_insert, Hvecs1, length_app; simpl; lia).
      by injection Hv'. }
    assert (Hvthis : vecs w2 !! this = Some vc).
    { subst w2. cbn [vecs]. rewrite list_lookup_insert_ne by lia.
      apply list_lookup_insert_eq. rewrite Hvecs1, length_app. simpl. lia. }
    assert (Hszc : size_ vc = n) by (by destruct Hownc as [-> _]).
    rewrite <- Hszc.
    erewrite set_size_same by (cbn [vecs]; exact Hvthis).
    destruct Hownc as (_ & Hbdc & Hbufc). cbn [vc data_ buffer_ base] in Hbufc.
    destruct Hbufc as (Hoffc & _ & Hbc).
    split; [| split].
    + exists vc. split; [exact Hvthis |]. split; [done |].
      unfold owns. cbn [vc data_ buffer_ base size_ capacity_ off].
      split; [lia |]. split; [done |].
      split; [done |]. split; [lia |]. cbn [heap].
      subst w2. cbn [heap].
      destruct (base (buffer_ (data_ vt))) as [bt|] eqn:Ebt; [| done].
      rewrite list_lookup_insert_ne; [done |].
      destruct Hownt as (_ & _ & Hbuft). rewrite Ebt in Hbuft.
      destruct Hbuft as (_ & _ & Hbt). apply lookup_lt_Some in Hbt. subst bnew. lia.
    + exists vr. split; [| split; [done |]].
      * subst w2. cbn [vecs]. rewrite !list_lookup_insert_ne by lia.
        rewrite Hvecs1. by rewrite lookup_app_l.
      * destruct Hownr as (? & ? & Hbufr). split; [done |]. split; [done |].
        destruct (base (buffer_ (data_ vr))) as [br|] eqn:Ebr; [| done].
        destruct Hbufr as (? & ? & Hbr). split; [done |]. split; [done |].
        cbn [heap]. subst w2. cbn [heap].
        assert (Hbrlt : (br < length (heap w))%nat) by (by eapply lookup_lt_Some).
        destruct (base (buffer_ (data_ vt))) as [bt|] eqn:Ebt.
        -- rewrite list_lookup_insert_ne.
           ++ rewrite Hheap1, lookup_app_l by done. done.
           ++ intros ->. specialize (Hsep _ _ Hvt Hvr). rewrite Ebt, Ebr in Hsep.
              by specialize (Hsep eq_refl).
        -- rewrite Hheap1, lookup_app_l by done. done.
    + exists vt. split; [done |]. cbn [trace]. subst w2. cbn [trace].
      rewrite Htr1. by rewrite <- !app_assoc.
  - destruct Hcopy as (_ & Hvecs1 & Hcase).
    cbn [vecs]. split; [done |].
    assert (Hh : ∃ h, heap w1 = heap w ++ h).
    { destruct Hcase as [(_ & -> & _) | (_ & -> & _)]; [exists [] | eexists]; try done.
      by rewrite app_nil_r. }
    destruct Hh as (h & Hh).
    split; eapply holds_heap_app; try done; by rewrite Hvecs1.
Qed.


(** ** [Erase], whatever throws *)

Lemma move_assign_left (w : World) b pre d v post o :
  heap w !! b = Some (Block (pre ++ Live d :: Live v :: post)) →
  o = Z.of_nat (length pre) →
  move_assign_cell throws (Ptr (Some b) (o + 1)) (Ptr (Some b) o) w =
    if throws (trace w) (AMoveAssign v)
    then Throw elem_exception
           {| heap := heap w; vecs := vecs w;
              trace := trace w ++ [EvThrow (AMoveAssign v)] |}
    else Ok tt
           {| heap := <[b := Block (pre ++ Live v :: Live (moved_from v) :: post)]> (heap w);
              vecs := vecs w;
              trace := trace w ++ [EvAssign (AMoveAssign v) (Ptr (Some b) o)] |}.
Proof.
  intros Hb Ho.
  assert (Hlb : (b < length (heap w))%nat) by (by eapply lookup_lt_Some).
  assert (Hb' : heap w !! b = Some (Block ((pre ++ [Live d]) ++ Live v :: post)))
    by (by rewrite Hb, <- app_assoc).
  unfold move_assign_cell. unfold bind at 1.
  rewrite (load_middle _ _ _ _ _ (o + 1) Hb') by (rewrite length_app; simpl; lia).
  unfold bind at 1. unfold assign_at. unfold bind at 1.
  rewrite (read_cell_middle _ _ _ _ _ o Hb) by lia.
  unfold bind at 1. unfold may_throw. cbn [can_throw andb].
  destruct (throws (trace w) (AMoveAssign v)); [done |].
  unfold bind at 1.
  rewrite (write_cell_middle _ _ _ _ (Live v) _ o Hb) by lia.
  unfold emit.
  erewrite (write_cell_middle _ b (pre ++ [Live v]) (Live v) (Live (moved_from v)) post (o + 1));
    [ | cbn [heap]; rewrite list_lookup_insert_eq by done; by rewrite <- app_assoc
      | rewrite length_app; simpl; lia ].
  cbn [heap vecs trace]. rewrite list_insert_insert_eq. by rewrite <- app_assoc.
Qed.

(** The loop of [std::move] that closes a gap: an assignment that throws
    leaves as many objects as there were. *)
Lemma shift_left_any b o post :
  ∀ (todo : list T) pre d (w : World) i,
    heap w !! b = Some (Block (pre ++ Live d :: (Live <$> todo) ++ post)) →
    o + i = Z.of_nat (length pre) →
    match assign_forward (move_assign_cell throws) (Ptr (Some b) (o + 1)) (Ptr (Some b) o)
            i (length todo) w with
    | Ok _ w' =>
        vecs w' = vecs w ∧ trace w `prefix_of` trace w' ∧
        ∃ d', heap w' =
          <[b := Block (pre ++ (Live <$> todo) ++ Live d' :: post)]> (heap w)
    | Throw e w' =>
        vecs w' = vecs w ∧ trace w `prefix_of` trace w' ∧
        ∃ vs', length vs' = S (length todo) ∧
          heap w' = <[b := Block (pre ++ (Live <$> vs') ++ post)]> (heap w)
    | _ => False
    end.
Proof.
  induction todo as [|t todo IH]; intros pre d w i Hb Hi.
  - simpl. unfold ret. split; [done |]. split; [done |]. exists d.
    symmetry. by apply list_insert_id.
  - assert (Hlb : (b < length (heap w))%nat) by (by eapply lookup_lt_Some).
    cbn [assign_forward length]. unfold bind at 1.
    unfold ptr_add. cbn [base off].
    replace (o + 1 + i) with (o + i + 1) by lia.
    simpl in Hb.
    rewrite (move_assign_left w b pre d t _ (o + i) Hb Hi).
    destruct (throws (trace w) (AMoveAssign t)).
    { cbn [heap vecs trace]. split; [done |]. split; [by apply prefix_app_r |].
      exists (d :: t :: todo). split; [done |].
      symmetry. by apply list_insert_id. }
    set (w1 := {| heap := _; vecs := _; trace := _ |}).
    specialize (IH (pre ++ [Live t]) (moved_from t) w1 (i + 1)).
    specialize (IH ltac:(subst w1; cbn [heap]; rewrite list_lookup_insert_eq by done;
                         by rewrite <- app_assoc)).
    specialize (IH ltac:(rewrite length_app; simpl; lia)).
    destruct (assign_forward _ _ _ _ _ w1) as [[] w2 | e w2 | |]; try done.
    + destruct IH as (Hvecs & Htr & d' & Hheap). split; [done |].
      split; [etrans; [| exact Htr]; subst w1; by apply prefix_app_r |].
      exists d'. rewrite Hheap. subst w1. cbn [heap].
      rewrite list_insert_insert_eq. by rewrite <- !app_assoc.
    + destruct IH as (Hvecs & Htr & vs' & Hlen & Hheap). split; [done |].
      split; [etrans; [| exact Htr]; subst w1; by apply prefix_app_r |].
      exists (t :: vs'). split; [simpl; lia |].
      rewrite Hheap. subst w1. cbn [heap].
      rewrite list_insert_insert_eq. by rewrite <- !app_assoc.
Qed.

Lemma Erase_spec (w : World) this vs cap k :
  holds w this vs cap → (k < length vs)%nat →
  match (b <- begin this ;; Erase throws debug this (b +ₚ Z.of_nat k)) w with
  | Ok p w' =>
      holds w' this (take k vs ++ drop (S k) vs) cap ∧
      (∃ v, vecs w !! this = Some v ∧ p = buffer_ (data_ v) +ₚ Z.of_nat k) ∧
      (∀ v, vecs w !! this = Some v → elsewhere_unchanged w w' this v)
  | Throw e w' =>
      (∃ vs', length vs' = length vs ∧ holds w' this vs' cap) ∧
      (∀ v, vecs w !! this = Some v → elsewhere_unchanged w w' this v)
  | _ => False
  end.
Proof.
  intros Hh Hk.
  destruct (holds_inv _ _ _ _ Hh) as [Hbd [(-> & _) | (Hpos & b & Hv & Hb)]];
    [simpl in Hk; lia |].
  assert (Hlt : (this < length (vecs w))%nat) by (by eapply lookup_lt_Some).
  unfold bind at 1. rewrite (begin_spec _ _ _ Hv).
  unfold Erase. unfold bind at 1. unfold cbegin. rewrite (begin_spec _ _ _ Hv).
  unfold bind at 1. unfold distance. cbn [ptr_add base off data_ buffer_].
  rewrite bool_decide_eq_true_2 by done. unfold ret.
  replace (0 + Z.of_nat k - 0) with (Z.of_nat k) by lia.
  rewrite (size_t_small (Z.of_nat k)) by lia.
  unfold bind at 1. rewrite (begin_spec _ _ _ Hv).
  unfold bind at 1. unfold end_ at 1. unfold bind at 1.
  rewrite (get_vec_spec _ _ _ Hv). rewrite RawMemory_plus_ok by (cbn [data_ size_ capacity_]; lia).
  cbn [data_ buffer_ size_ capacity_]. unfold ptr_add. cbn [base off].
  destruct (lookup_lt_is_Some_2 vs k Hk) as [d Hd].
  assert (Hlb : (b < length (heap w))%nat) by (by eapply lookup_lt_Some).
  assert (Htake : length (take k vs) = k) by (rewrite length_take; lia).
  assert (Hdrop : length (drop (S k) vs) = (length vs - S k)%nat) by apply length_drop.
  assert (Hb' : heap w !! b = Some (Block
    ((Live <$> take k vs) ++ Live d :: (Live <$> drop (S k) vs) ++
     replicate (Z.to_nat cap - length vs) Raw))).
  { rewrite Hb. rewrite <- (take_drop_middle _ _ _ Hd) at 1.
    by rewrite fmap_app, <- app_assoc. }
  unfold bind at 1. unfold std_move. unfold bind at 1.
  rewrite range_length_ok by lia.
  replace (Z.to_nat (0 + Z.of_nat (length vs) - (0 + Z.of_nat k + 1)))
    with (length (drop (S k) vs)) by lia.
  pose proof (shift_left_any b (0 + Z.of_nat k)
               (replicate (Z.to_nat cap - length vs) Raw)
               (drop (S k) vs) (Live <$> take k vs) d w 0 Hb'
               ltac:(rewrite length_fmap; lia)) as Hloop.
  destruct (assign_forward _ _ _ _ _ w) as [[] w1 | e w1 | |]; try done.
  - destruct Hloop as (Hvecs & Htr & d' & Hheap).
    unfold bind at 1. unfold end_. unfold bind at 1.
    erewrite get_vec_spec by (rewrite Hvecs; exact Hv).
    rewrite RawMemory_plus_ok by (cbn; lia).
    cbn [data_ buffer_ size_ capacity_]. unfold ptr_add. cbn [base off].
    unfold bind at 1. unfold destroy_at.
    erewrite (Destroy_middle _ b ((Live <$> take k vs) ++ (Live <$> drop (S k) vs)) d'
                (replicate (Z.to_nat cap - length vs) Raw));
      [ | rewrite Hheap; rewrite list_lookup_insert_eq by done; by rewrite <- app_assoc
        | rewrite length_app, !length_fmap; lia ].
    cbn [heap vecs trace]. unfold bind.
    erewrite get_vec_spec by (cbn [vecs]; rewrite Hvecs; exact Hv).
    erewrite set_size_spec by (cbn [vecs]; rewrite Hvecs; exact Hv).
    erewrite begin_spec by (cbn [vecs]; rewrite Hvecs; by apply list_lookup_insert_eq).
    cbn [data_ buffer_ size_]. unfold ret, ptr_add. cbn [base off].
    rewrite Hheap, Hvecs. rewrite list_insert_insert_eq.
    split; [| split].
    + eapply (holds_block _ _ _ _ b).
      * cbn [vecs]. rewrite length_app, Htake, Hdrop.
        rewrite size_t_small by lia.
        replace (Z.of_nat (length vs) - 1) with (Z.of_nat (k + (length vs - S k))) by lia.
        by apply list_lookup_insert_eq.
      * cbn [heap]. rewrite list_lookup_insert_eq by done.
        rewrite length_app, Htake, Hdrop. rewrite fmap_app.
        replace (Z.to_nat cap - (k + (length vs - S k)))%nat
          with (S (Z.to_nat cap - length vs)) by lia.
        reflexivity.
      * rewrite length_app, Htake, Hdrop. lia.
      * done.
    + eexists. split; [exact Hv |]. done.
    + intros v0 Hv0. rewrite Hv in Hv0. injection Hv0 as <-.
      unfold elsewhere_unchanged. cbn [heap vecs data_ buffer_ base].
      split; [| split; [| split]].
      * eexists. split; [by apply list_lookup_insert_eq | done].
      * intros o Ho. by rewrite list_lookup_insert_ne.
      * by rewrite length_insert.
      * intros b' Hb'0. rewrite list_lookup_insert_ne; [done | congruence].
  - destruct Hloop as (Hvecs & Htr & vs' & Hlen & Hheap).
    split; cycle 1.
    { intros v0 Hv0. rewrite Hv in Hv0. injection Hv0 as <-.
      unfold elsewhere_unchanged. cbn [data_ buffer_ base].
      rewrite Hvecs, Hheap. split; [| split; [| split]].
      - by eexists.
      - done.
      - by rewrite length_insert.
      - intros b' Hb'0. rewrite list_lookup_insert_ne; [done | congruence]. }
    exists (take k vs ++ vs').
    assert (Hlen' : length (take k vs ++ vs') = length vs).
    { rewrite length_app, Htake, Hlen, Hdrop. lia. }
    split; [done |].
    eapply (holds_block _ _ _ _ b).
    + rewrite Hvecs, Hlen'. exact Hv.
    + rewrite Hheap, Hlen'. rewrite list_lookup_insert_eq by done.
      by rewrite fmap_app, <- app_assoc.
    + rewrite Hlen'. lia.
    + done.
Qed.

(** [Erase] at [end()]: the range to move over ends in front of its
    start. *)
Lemma Erase_end_undefined (w : World) this vs cap :
  holds w this vs cap →
  (e <- end_ debug this ;; Erase throws debug this e) w = Undefined.
Proof.
  intros Hh.
  destruct (begin_end_spec _ _ _ _ Hh) as (v & Hv & Hbegin & Hend).
  destruct Hh as (v' & Hv' & Hcap & Hsz & Hbd & Hbuf).
  rewrite Hv in Hv'. injection Hv' as <-.
  unfold bind at 1. rewrite Hend.
  unfold Erase. unfold bind at 1. unfold cbegin. rewrite Hbegin.
  unfold bind at 1. unfold distance. cbn [ptr_add base off].
  rewrite bool_decide_eq_true_2 by done. unfold ret.
  replace (off (buffer_ (data_ v)) + Z.of_nat (length vs) - off (buffer_ (data_ v)))
    with (Z.of_nat (length vs)) by lia.
  rewrite (size_t_small (Z.of_nat (length vs))) by lia.
  unfold bind at 1. rewrite Hbegin.
  unfold bind at 1. rewrite Hend.
  unfold bind at 1. unfold std_move. unfold bind at 1.
  unfold range_length. cbn [ptr_add base off].
  rewrite bool_decide_eq_true_2 by done.
  by rewrite (proj2 (Z.leb_gt _ _)) by lia.
Qed.


(** ** [Swap] with itself, and twice *)

Lemma Swap_self (w : World) a va :
  vecs w !! a = Some va → null_is_empty va →
  Swap a a w = Ok tt w.
Proof.
  intros Ha Hna.
  assert (Hla : (a < length (vecs w))%nat) by (by eapply lookup_lt_Some).
  destruct va as [da sa]. unfold null_is_empty in *. simpl in *.
  unfold Swap, swap_data. unfold bind at 1. unfold bind at 1.
  rewrite (get_data_spec _ _ _ Ha). cbn [data_].
  unfold bind at 1. rewrite (set_data_spec _ _ _ _ Ha). cbn [size_].
  unfold bind at 1. erewrite get_data_spec
    by (cbn [vecs]; by apply list_lookup_insert_eq).
  cbn [data_ buffer_ RawMemory_default].
  unfold bind at 1. erewrite get_data_spec
    by (cbn [vecs]; by apply list_lookup_insert_eq).
  cbn [data_ buffer_ RawMemory_default].
  unfold bind at 1. unfold ptr_eqb at 1. rewrite bool_decide_eq_true_2 by done.
  unfold ret at 1.
  unfold bind at 1. erewrite get_data_spec
    by (cbn [vecs]; by apply list_lookup_insert_eq).
  cbn [data_ buffer_ RawMemory_default]. change (Ptr None 0) with nullptr.
  unfold bind at 1.
  destruct (ptr_eqb nullptr (buffer_ da)) eqn:E.
  - apply (ptr_eqb_null _ Hna) in E. subst da. unfold ret.
    unfold RawMemory_default at 1. rewrite RawMemory_delete_null.
    unfold swap_size, bind.
    erewrite !get_size_spec by (cbn [vecs]; by apply list_lookup_insert_eq).
    erewrite set_size_spec by (cbn [vecs]; by apply list_lookup_insert_eq).
    erewrite set_size_spec
      by (cbn [vecs]; apply list_lookup_insert_eq; by rewrite length_insert).
    cbn [heap vecs trace size_ data_]. rewrite !list_insert_insert_eq.
    rewrite list_insert_id by done. by destruct w.
  - unfold bind at 1.
    erewrite set_data_spec by (cbn [vecs]; by apply list_lookup_insert_eq).
    unfold ret. unfold RawMemory_default at 1. rewrite RawMemory_delete_null.
    unfold swap_size, bind.
    erewrite !get_size_spec
      by (cbn [vecs]; apply list_lookup_insert_eq; by rewrite length_insert).
    erewrite set_size_spec
      by (cbn [vecs]; apply list_lookup_insert_eq; by rewrite length_insert).
    erewrite set_size_spec
      by (cbn [vecs]; apply list_lookup_insert_eq; by rewrite !length_insert).
    cbn [heap vecs trace size_ data_]. rewrite !list_insert_insert_eq.
    rewrite list_insert_id by done. by destruct w.
Qed.

Lemma Swap_twice (w : World) a b va vb :
  a ≠ b →
  vecs w !! a = Some va → vecs w !! b = Some vb →
  null_is_empty va → null_is_empty vb →
  (Swap a b ;; Swap a b) w = Ok tt w.
Proof.
  intros Hne Ha Hb Hna Hnb.
  assert (Hla : (a < length (vecs w))%nat) by (by eapply lookup_lt_Some).
  assert (Hlb : (b < length (vecs w))%nat) by (by eapply lookup_lt_Some).
  unfold bind. rewrite (Swap_spec w a b va vb) by done.
  erewrite (Swap_spec _ a b vb va);
    [ | done
      | cbn [vecs]; rewrite list_lookup_insert_ne by done; by apply list_lookup_insert_eq
      | cbn [vecs]; apply list_lookup_insert_eq; by rewrite length_insert
      | done | done ].
  cbn [heap vecs trace]. destruct w as [h vs tr]. cbn [heap vecs trace] in *.
  f_equal. f_equal.
  apply list_eq. intros i.
  destruct (decide (i = b)) as [-> | Hib].
  - rewrite list_lookup_insert_eq by (by rewrite !length_insert). done.
  - rewrite list_lookup_insert_ne by done.
    destruct (decide (i = a)) as [-> | Hia].
    + rewrite list_lookup_insert_eq by (by rewrite !length_insert). done.
    + by rewrite !list_lookup_insert_ne by done.
Qed.


(** ** Element types whose move constructor is [noexcept] *)

Lemma read_cell_nothrow (p : ptr) (w : World) :
  match read_cell p w with
  | Throw _ _ => False
  | _ => True
  end.
Proof. unfold read_cell. by repeat case_match. Qed.

Lemma write_cell_nothrow (p : ptr) (c : cell T) (w : World) :
  match write_cell p c w with
  | Throw _ _ => False
  | _ => True
  end.
Proof. unfold write_cell. by repeat case_match. Qed.

Lemma move_construct_nothrow (w : World) src dst :
  is_nothrow_move_constructible = true →
  match move_construct throws src dst w with
  | Throw _ _ => False
  | _ => True
  end.
Proof.
  intros Hnt. unfold move_construct, load. unfold bind at 1. unfold bind at 1.
  pose proof (read_cell_nothrow src w) as H1.
  destruct (read_cell src w) as [[|v] w1 | | |]; try done.
  unfold ret. unfold bind at 1. unfold construct_at. unfold bind at 1.
  pose proof (read_cell_nothrow dst w1) as H2.
  destruct (read_cell dst w1) as [c w2 | | |]; try done.
  unfold bind at 1. unfold may_throw. cbn [can_throw]. rewrite Hnt. cbn [negb andb].
  unfold bind at 1.
  pose proof (write_cell_nothrow dst (Live (built (MoveCtor v))) w2) as H3.
  destruct (write_cell dst _ w2) as [[] w3 | | |]; try done.
  unfold emit.
  match goal with |- context [write_cell src ?c ?w] =>
    pose proof (write_cell_nothrow src c w) as H4;
    destruct (write_cell src c w) as [[] w4 | | |] end; done.
Qed.

Lemma destroy_loop_nothrow first k : ∀ i (w : World),
  match destroy_loop first i k w with
  | Throw _ _ => False
  | _ => True
  end.
Proof.
  induction k as [|k IH]; intros i w; [done |].
  cbn [destroy_loop]. unfold bind.
  destruct (Destroy _ w) as [[] w1 | e w1 | |] eqn:E; try done.
  - apply IH.
  - unfold Destroy in E. unfold bind at 1 in E.
    pose proof (read_cell_nothrow (first +ₚ i) w) as H1.
    destruct (read_cell _ w) as [[|v] w2 | | |]; try done.
    unfold bind in E.
    pose proof (write_cell_nothrow (first +ₚ i) Raw w2) as H2.
    by destruct (write_cell _ _ w2) as [[] w3 | | |].
Qed.

Lemma uninitialized_move_nothrow first result k :
  is_nothrow_move_constructible = true →
  ∀ i (w : World),
    match uninitialized_loop (move_construct throws) first result i k w with
    | Throw _ _ => False
    | _ => True
    end.
Proof.
  intros Hnt. induction k as [|k IH]; intros i w; [done |].
  cbn [uninitialized_loop]. unfold bind, try_catch.
  pose proof (move_construct_nothrow w (first +ₚ i) (result +ₚ i) Hnt) as Hstep.
  destruct (move_construct _ _ _ w) as [[] w1 | e w1 | |]; try done.
  apply IH.
Qed.

(** With a [noexcept] move constructor the only exception that leaves
    [Reserve] is the failure to allocate. *)
Lemma Reserve_nothrow_move (w : World) this n :
  is_nothrow_move_constructible = true →
  match Reserve throws this n w with
  | Throw e _ => e = bad_alloc
  | _ => True
  end.
Proof.
  intros Hnt. unfold Reserve. unfold bind at 1.
  destruct (get_vec this w) as [v w0 | e w0 | |] eqn:Ev; try done;
    [| unfold get_vec in Ev; by repeat case_match ].
  destruct (n <=? capacity_ (data_ v)); [done |].
  unfold bind at 1.
  destruct (RawMemory_new throws n w0) as [d w1 | e w1 | |] eqn:En; try done; cycle 1.
  { unfold RawMemory_new, bind, Allocate, operator_new, ret in En.
    destruct (n =? 0); [done |].
    destruct (_ || _); [| done]. by injection En as <- _. }
  unfold use_move. rewrite Hnt. cbn [orb].
  unfold bind at 1. unfold unwinding, try_catch.
  unfold uninitialized_move_n.
  pose proof (uninitialized_move_nothrow (buffer_ (data_ v)) (buffer_ d)
                (Z.to_nat (size_ v)) Hnt 0 w1) as Hloop.
  destruct (uninitialized_loop _ _ _ _ _ w1) as [[] w2 | e w2 | |]; try done.
  unfold bind at 1.
  destruct (set_data this d w2) as [[] w3 | e w3 | |] eqn:Es; try done;
    [| unfold set_data, bind, get_vec, set_vec in Es; by repeat case_match ].
  unfold bind at 1. unfold destroy_n.
  pose proof (destroy_loop_nothrow (buffer_ (data_ v)) (Z.to_nat (size_ v)) 0 w3) as Hd.
  destruct (destroy_loop _ _ _ w3) as [[] w4 | e w4 | |]; try done.
  destruct (RawMemory_delete _ w4) as [[] w5 | e w5 | |] eqn:Ed; try done.
  unfold RawMemory_delete, Deallocate, operator_delete, ret, undefined in Ed.
  by repeat case_match.
Qed.


(** * When nothing throws *)

Section Quiet.

Hypothesis never_throws : ∀ tr a, throws tr a = false.

Lemma EmplaceBack_quiet (w : World) this vs cap args :
  holds w this vs cap →
  (Z.of_nat (length vs) = cap → Z.max 1 (cap * 2) ≤ MAX_ELEMS) →
  match EmplaceBack throws debug this args w with
  | Ok p w' =>
      holds w' this (vs ++ [built args])
        (if Z.of_nat (length vs) =? cap then Z.max 1 (cap * 2) else cap) ∧
      load p w' = Ok (built args) w'
  | _ => False
  end.
Proof.
  intros Hh Hmax.
  assert (Hlast : (vs ++ [built args]) !! length vs = Some (built args))
    by (by apply list_lookup_middle).
  destruct (Z.eq_dec (Z.of_nat (length vs)) cap) as [Hfull | Hspare].
  - rewrite (proj2 (Z.eqb_eq _ _)) by done.
    pose proof (EmplaceBack_ok throws debug never_throws w this vs cap args Hh Hfull
                  (Hmax Hfull)) as Hok.
    pose proof (EmplaceBack_full_spec w this vs cap args Hh Hfull) as Hspec.
    cbv zeta in Hspec.
    destruct (EmplaceBack throws debug this args w) as [p w' | | |]; try done.
    destruct Hspec as (Hh' & -> & Hv' & _). split; [done |].
    destruct (index_spec _ _ _ _ _ _ Hh' Hlast) as (v & Hv & _ & Hload).
    rewrite Hv' in Hv. injection Hv as <-. cbn [data_ buffer_] in Hload.
    unfold ptr_add in Hload. cbn [base off] in Hload. by rewrite Z.add_0_l in Hload.
  - rewrite (proj2 (Z.eqb_neq _ _)) by done.
    destruct (holds_inv _ _ _ _ Hh) as [Hbd _].
    destruct (EmplaceBack_spare_spec w this vs cap args Hh ltac:(lia))
      as (b & Hv & Hb & ->).
    rewrite never_throws, andb_false_r.
    assert (Hlb : (b < length (heap w))%nat) by (by eapply lookup_lt_Some).
    assert (Hh' : holds
      {| heap := <[b := Block ((Live <$> vs ++ [built args]) ++
                        replicate (Z.to_nat cap - length vs - 1) Raw)]> (heap w);
         vecs := <[this := {| data_ := {| buffer_ := Ptr (Some b) 0; capacity_ := cap |};
                              size_ := Z.of_nat (length vs) + 1 |}]> (vecs w);
         trace := trace w ++ [EvCtor args (Ptr (Some b) (Z.of_nat (length vs)))] |}
      this (vs ++ [built args]) cap).
    { eapply (holds_block _ _ _ _ b).
      - cbn [vecs]. rewrite length_app. simpl. rewrite Nat2Z.inj_add. simpl.
        apply list_lookup_insert_eq. by eapply lookup_lt_Some.
      - cbn [heap]. rewrite list_lookup_insert_eq by done.
        rewrite length_app. simpl.
        by replace (Z.to_nat cap - (length vs + 1))%nat
          with (Z.to_nat cap - length vs - 1)%nat by lia.
      - rewrite length_app. simpl. lia.
      - lia. }
    split; [done |].
    destruct (index_spec _ _ _ _ _ _ Hh' Hlast) as (v & Hv' & _ & Hload).
    cbn [vecs] in Hv'. rewrite list_lookup_insert_eq in Hv' by (by eapply lookup_lt_Some).
    injection Hv' as <-. cbn [data_ buffer_] in Hload.
    unfold ptr_add in Hload. cbn [base off] in Hload. by rewrite Z.add_0_l in Hload.
Qed.

(** Pushing the elements of a list one after the other. *)
Lemma PushBack_each (xs : list T) : ∀ (w : World) this vs cap,
  holds w this vs cap →
  (vs = [] ∧ cap = 0) ∨
    (∃ e, 0 ≤ e ∧ cap = 2 ^ e ∧ Z.of_nat (length vs) ≤ cap < 2 * Z.of_nat (length vs)) →
  2 * Z.of_nat (length vs + length xs) ≤ MAX_ELEMS →
  ∃ w' cap',
    foldr (λ x k, PushBack throws debug this x ;; k) (ret tt) xs w = Ok tt w' ∧
    holds w' this (vs ++ xs) cap' ∧
    ((vs ++ xs = [] ∧ cap' = 0) ∨
     (∃ e, 0 ≤ e ∧ cap' = 2 ^ e ∧
           Z.of_nat (length (vs ++ xs)) ≤ cap' < 2 * Z.of_nat (length (vs ++ xs)))).
Proof.
  induction xs as [|x xs IH]; intros w this vs cap Hh Hcap Hmax.
  - exists w, cap. rewrite app_nil_r. done.
  - cbn [foldr]. unfold bind at 1. unfold PushBack. unfold bind at 1.
    simpl in Hmax.
    destruct (holds_inv _ _ _ _ Hh) as [Hbd _].
    pose proof (EmplaceBack_quiet w this vs cap (CopyCtor x) Hh) as Hpush.
    specialize (Hpush ltac:(intros; lia)).
    destruct (EmplaceBack throws debug this (CopyCtor x) w) as [p w1 | | |]; try done.
    destruct Hpush as [Hh1 _]. cbn [built] in Hh1. unfold ret at 1.
    edestruct (IH w1 this (vs ++ [x])) as (w' & cap' & Hrun & Hh' & Hcap'); [exact Hh1 | | |].
    + right. rewrite length_app. simpl.
      destruct (Z.eq_dec (Z.of_nat (length vs)) cap) as [Hfull | Hspare].
      * rewrite (proj2 (Z.eqb_eq _ _)) by done.
        destruct Hcap as [(-> & ->) | (e & He & -> & Hin)].
        -- exists 0. simpl. lia.
        -- exists (e + 1). rewrite Z.pow_add_r by lia.
           change (2 ^ 1) with 2. lia.
      * rewrite (proj2 (Z.eqb_neq _ _)) by done.
        destruct Hcap as [(-> & ->) | (e & He & -> & Hin)]; [done |].
        exists e. lia.
    + rewrite length_app. simpl. lia.
    + exists w', cap'. rewrite <- app_assoc in Hh', Hcap'. simpl in Hh', Hcap'.
      done.
Qed.


(** ** [Emplace] with spare capacity, for implicit-lifetime types *)

Lemma move_assign_right (w : World) b pre v c post o :
  heap w !! b = Some (Block (pre ++ Live v :: c :: post)) →
  o = Z.of_nat (length pre) →
  (c = Raw → is_implicit_lifetime = true) →
  move_assign_cell throws (Ptr (Some b) o) (Ptr (Some b) (o + 1)) w =
    Ok tt {| heap := <[b := Block (pre ++ Live (moved_from v) :: Live v :: post)]> (heap w);
             vecs := vecs w;
             trace := trace w ++ [EvAssign (AMoveAssign v) (Ptr (Some b) (o + 1))] |}.
Proof.
  intros Hb Ho Hc.
  assert (Hlb : (b < length (heap w))%nat) by (by eapply lookup_lt_Some).
  assert (Hb' : heap w !! b = Some (Block ((pre ++ [Live v]) ++ c :: post)))
    by (by rewrite Hb, <- app_assoc).
  unfold move_assign_cell. unfold bind at 1.
  rewrite (load_middle _ _ _ _ _ o Hb) by lia.
  unfold bind at 1. unfold assign_at. unfold bind at 1.
  rewrite (read_cell_middle _ _ _ _ _ (o + 1) Hb') by (rewrite length_app; simpl; lia).
  assert (Hassign :
    (may_throw throws (AMoveAssign v);;
     write_cell (Ptr (Some b) (o + 1)) (Live v);;
     emit (EvAssign (AMoveAssign v) (Ptr (Some b) (o + 1)))) w =
    Ok tt {| heap := <[b := Block ((pre ++ [Live v]) ++ Live v :: post)]> (heap w);
             vecs := vecs w;
             trace := trace w ++ [EvAssign (AMoveAssign v) (Ptr (Some b) (o + 1))] |}).
  { unfold bind at 1. unfold may_throw. rewrite never_throws, andb_false_r.
    unfold bind at 1.
    rewrite (write_cell_middle _ _ _ _ (Live v) _ (o + 1) Hb')
      by (rewrite length_app; simpl; lia).
    done. }
  assert (Hstep : (match c with
           | Live _ => may_throw throws (AMoveAssign v);;
                       write_cell (Ptr (Some b) (o + 1)) (Live v);;
                       emit (EvAssign (AMoveAssign v) (Ptr (Some b) (o + 1)))
           | Raw => if is_implicit_lifetime
                    then may_throw throws (AMoveAssign v);;
                         write_cell (Ptr (Some b) (o + 1)) (Live v);;
                         emit (EvAssign (AMoveAssign v) (Ptr (Some b) (o + 1)))
                    else undefined
           end) w =
    Ok tt {| heap := <[b := Block ((pre ++ [Live v]) ++ Live v :: post)]> (heap w);
             vecs := vecs w;
             trace := trace w ++ [EvAssign (AMoveAssign v) (Ptr (Some b) (o + 1))] |}).
  { destruct c; [| done]. by rewrite Hc. }
  rewrite Hstep.
  erewrite (write_cell_middle _ b pre (Live v) (Live (moved_from v)) (Live v :: post) o);
    [ | cbn [heap]; rewrite list_lookup_insert_eq by done; by rewrite <- app_assoc
      | done ].
  cbn [heap vecs trace]. by rewrite list_insert_insert_eq.
Qed.

Lemma copy_assign_right (w : World) b pre v d post o :
  heap w !! b = Some (Block (pre ++ Live v :: Live d :: post)) →
  o = Z.of_nat (length pre) →
  copy_assign_cell throws (Ptr (Some b) o) (Ptr (Some b) (o + 1)) w =
    Ok tt {| heap := <[b := Block (pre ++ Live v :: Live v :: post)]> (heap w);
             vecs := vecs w;
             trace := trace w ++ [EvAssign (ACopyAssign v) (Ptr (Some b) (o + 1))] |}.
Proof.
  intros Hb Ho.
  assert (Hb' : heap w !! b = Some (Block ((pre ++ [Live v]) ++ Live d :: post)))
    by (by rewrite Hb, <- app_assoc).
  erewrite (copy_assign_cell_spec w b b pre v _ (pre ++ [Live v]) d post);
    [ | exact Hb | exact Hb' | done | rewrite length_app; simpl; lia ].
  rewrite never_throws. by rewrite <- app_assoc.
Qed.

(** The loop of [std::move_backward] and [std::copy_backward] that opens
    a gap: the objects of [todo] go one slot to the right, the last one
    first, over the object [hole] behind them. *)
Lemma shift_right (step : ptr → ptr → M T unit) (sa : T → T) :
  (∀ (w : World) b pre v d post o,
     heap w !! b = Some (Block (pre ++ Live v :: Live d :: post)) →
     o = Z.of_nat (length pre) →
     ∃ tr, step (Ptr (Some b) o) (Ptr (Some b) (o + 1)) w =
       Ok tt {| heap := <[b := Block (pre ++ Live (sa v) :: Live v :: post)]> (heap w);
                vecs := vecs w; trace := tr |}) →
  ∀ b o pre (todo : list T) post hole (w : World),
    heap w !! b = Some (Block (pre ++ (Live <$> todo) ++ Live hole :: post)) →
    o = Z.of_nat (length pre) →
    ∃ h' tr,
      assign_backward step (Ptr (Some b) o) (Ptr (Some b) (o + 1)) (length todo) w =
        Ok tt {| heap := <[b := Block (pre ++ Live h' :: (Live <$> todo) ++ post)]> (heap w);
                 vecs := vecs w; trace := tr |}.
Proof.
  intros Hstep b o pre todo.
  induction todo as [|t todo IH] using rev_ind; intros post hole w Hb Ho.
  - exists hole, (trace w). simpl. unfold ret. destruct w; simpl in *.
    by rewrite list_insert_id.
  - assert (Hlb : (b < length (heap w))%nat) by (by eapply lookup_lt_Some).
    rewrite length_app. simpl. rewrite Nat.add_1_r.
    cbn [assign_backward]. unfold bind at 1. unfold ptr_add. cbn [base off].
    rewrite fmap_app in Hb. simpl in Hb.
    assert (Hb' : heap w !! b =
      Some (Block ((pre ++ (Live <$> todo)) ++ Live t :: Live hole :: post)))
      by (by rewrite Hb, <- !app_assoc).
    replace (o + 1 + Z.of_nat (length todo)) with (o + Z.of_nat (length todo) + 1) by lia.
    destruct (Hstep w b _ t hole post (o + Z.of_nat (length todo)) Hb')
      as (tr1 & ->); [rewrite length_app, length_fmap; lia |].
    edestruct (IH (Live t :: post) (sa t)) as (h' & tr & ->);
      [ cbn [heap]; rewrite list_lookup_insert_eq by done; by rewrite <- app_assoc
      | done | ].
    exists h', tr. cbn [heap vecs trace].
    rewrite list_insert_insert_eq. rewrite fmap_app. simpl.
    by rewrite <- !app_assoc.
Qed.


Lemma backward_step_right :
  ∀ (w : World) b pre v d post o,
    heap w !! b = Some (Block (pre ++ Live v :: Live d :: post)) →
    o = Z.of_nat (length pre) →
    ∃ tr, (if use_move then move_assign_cell throws else copy_assign_cell throws)
            (Ptr (Some b) o) (Ptr (Some b) (o + 1)) w =
      Ok tt {| heap := <[b := Block (pre ++ Live (source_after v) :: Live v :: post)]>
                         (heap w);
               vecs := vecs w; trace := tr |}.
Proof.
  intros w b pre v d post o Hb Ho. unfold source_after.
  destruct use_move.
  - eexists. by apply (move_assign_right w b pre v (Live d) post o).
  - eexists. by apply (copy_assign_right w b pre v d post o).
Qed.

Lemma Emplace_spare_core (w : World) this l1 l2 lst cap args :
  is_implicit_lifetime = true →
  holds w this (l1 ++ l2 ++ [lst]) cap →
  Z.of_nat (length (l1 ++ l2 ++ [lst])) < cap →
  match (b <- begin this ;;
         Emplace throws debug this (b +ₚ Z.of_nat (length l1)) args) w with
  | Ok p w' =>
      holds w' this (l1 ++ built args :: l2 ++ [lst]) cap ∧
      (∃ v', vecs w' !! this = Some v' ∧ p = buffer_ (data_ v') +ₚ Z.of_nat (length l1)) ∧
      length (heap w') = length (heap w)
  | _ => False
  end.
Proof.
  intros Himp Hh Hspare.
  destruct (holds_inv _ _ _ _ Hh) as [Hbd [(Hnil & _) | (Hpos & b & Hv & Hb)]].
  { by destruct l1, l2. }
  set (k := length l1) in *. set (m := length l2) in *.
  assert (Hlen : length (l1 ++ l2 ++ [lst]) = (k + m + 1)%nat).
  { rewrite !length_app. simpl. lia. }
  rewrite Hlen in *.
  assert (Hlt : (this < length (vecs w))%nat) by (by eapply lookup_lt_Some).
  assert (Hlb : (b < length (heap w))%nat) by (by eapply lookup_lt_Some).
  set (raws := replicate (Z.to_nat cap - (k + m + 1) - 1) (@Raw T)).
  assert (Hb0 : heap w !! b = Some (Block
    (((Live <$> l1) ++ (Live <$> l2)) ++ Live lst :: Raw :: raws))).
  { rewrite Hb. rewrite !fmap_app, <- !app_assoc. simpl. do 5 f_equal.
    subst raws. rewrite <- replicate_S. f_equal. lia. }
  unfold bind at 1. rewrite (begin_spec _ _ _ Hv).
  unfold Emplace. unfold bind at 1. unfold cbegin. rewrite (begin_spec _ _ _ Hv).
  unfold bind at 1. unfold distance. cbn [ptr_add base off data_ buffer_].
  rewrite bool_decide_eq_true_2 by done. unfold ret at 1.
  replace (0 + Z.of_nat k - 0) with (Z.of_nat k) by lia.
  rewrite (size_t_small (Z.of_nat k)) by lia.
  unfold bind at 1. rewrite (get_vec_spec _ _ _ Hv).
  cbn [data_ size_ capacity_].
  rewrite (proj2 (Z.eqb_neq _ _)) by lia.
  rewrite (proj2 (Z.eqb_neq _ 0)) by lia.
  unfold bind at 1. unfold bind at 1. unfold end_ at 1. unfold bind at 1.
  rewrite (get_vec_spec _ _ _ Hv).
  rewrite RawMemory_plus_ok by (cbn [data_ size_ capacity_]; lia).
  cbn [data_ buffer_ size_ capacity_]. unfold ptr_add at 1 2 3 4. cbn [base off].
  (* the last element goes to the slot behind it *)
  unfold bind at 1. unfold std_move. unfold bind at 1.
  rewrite range_length_ok by lia.
  replace (0 + Z.of_nat (k + m + 1) - (0 + Z.of_nat (k + m + 1) + -1)) with 1 by lia.
  change (Z.to_nat 1) with 1%nat. cbn [assign_forward]. unfold bind at 1.
  unfold ptr_add at 1 2. cbn [base off].
  replace (0 + Z.of_nat (k + m + 1) + -1 + 0) with (Z.of_nat (k + m)) by lia.
  replace (0 + Z.of_nat (k + m + 1) + 0) with (Z.of_nat (k + m) + 1) by lia.
  rewrite (move_assign_right w b _ lst Raw raws (Z.of_nat (k + m)) Hb0)
    by (rewrite ?length_app, ?length_fmap; done).
  unfold ret at 1.
  set (w1 := {| heap := _; vecs := _; trace := _ |}).
  (* the size grows *)
  unfold bind at 1. erewrite set_size_spec by (subst w1; cbn [vecs]; exact Hv).
  cbn [data_]. rewrite size_t_small by lia.
  (* the temporary *)
  unfold bind at 1. unfold may_throw. cbn [trace]. rewrite never_throws, andb_false_r.
  unfold bind at 1. unfold emit at 1.
  unfold bind at 1. unfold unwinding, try_catch.
  cbn [heap vecs trace].
  set (w2 := {| heap := heap w1; vecs := _; trace := _ |}).
  assert (Hv2 : vecs w2 !! this =
    Some {| data_ := {| buffer_ := Ptr (Some b) 0; capacity_ := cap |};
            size_ := Z.of_nat (k + m + 1) + 1 |}).
  { subst w2 w1. cbn [vecs]. by apply list_lookup_insert_eq. }
  unfold bind at 1. rewrite (begin_spec _ _ _ Hv2).
  unfold bind at 1. unfold end_ at 1. unfold bind at 1.
  rewrite (get_vec_spec _ _ _ Hv2).
  rewrite RawMemory_plus_ok by (cbn [data_ size_ capacity_]; lia).
  cbn [data_ buffer_ size_ capacity_]. unfold ptr_add. cbn [base off].
  (* the elements behind the position go one slot to the right *)
  assert (Hshift : ∃ h' tr,
    (if use_move
     then move_backward throws (Ptr (Some b) (0 + Z.of_nat k))
            (Ptr (Some b) (0 + (Z.of_nat (k + m + 1) + 1) + -2))
            (Ptr (Some b) (0 + (Z.of_nat (k + m + 1) + 1) + -1))
     else copy_backward throws (Ptr (Some b) (0 + Z.of_nat k))
            (Ptr (Some b) (0 + (Z.of_nat (k + m + 1) + 1) + -2))
            (Ptr (Some b) (0 + (Z.of_nat (k + m + 1) + 1) + -1))) w2 =
    Ok tt {| heap := <[b := Block ((Live <$> l1) ++ Live h' :: (Live <$> l2) ++
                                   Live lst :: raws)]> (heap w2);
             vecs := vecs w2; trace := tr |}).
  { assert (Hb2 : heap w2 !! b = Some (Block
      ((Live <$> l1) ++ (Live <$> l2) ++ Live (moved_from lst) :: Live lst :: raws))).
    { subst w2 w1. cbn [heap]. rewrite list_lookup_insert_eq by done.
      by rewrite <- app_assoc. }
    destruct (shift_right _ _ backward_step_right b (Z.of_nat k) (Live <$> l1) l2
                (Live lst :: raws) (moved_from lst) w2 Hb2
                ltac:(by rewrite length_fmap)) as (h' & tr & Hrun).
    exists h', tr. rewrite <- Hrun. fold m.
    destruct use_move; unfold move_backward, copy_backward; unfold bind;
      rewrite range_length_ok by lia; unfold ptr_add; cbn [base off];
      replace (0 + (Z.of_nat (k + m + 1) + 1) + -2 - (0 + Z.of_nat k))
        with (Z.of_nat m) by lia;
      rewrite Nat2Z.id;
      replace (0 + (Z.of_nat (k + m + 1) + 1) + -1 + - Z.of_nat m)
        with (Z.of_nat k + 1) by lia;
      by rewrite Z.add_0_l. }
  destruct Hshift as (h' & tr & Hshift).
  unfold bind at 1. rewrite Hshift.
  set (w3 := {| heap := _; vecs := vecs w2; trace := tr |}).
  unfold bind at 1. erewrite get_data_spec by (subst w3; cbn [vecs]; exact Hv2).
  cbn [data_].
  unfold bind at 1. rewrite RawMemory_plus_ok by (cbn [capacity_]; lia).
  cbn [buffer_]. unfold ptr_add at 1. cbn [base off]. rewrite Z.add_0_l.
  erewrite (construct_at_ok throws never_throws w3 b (Live <$> l1) (Live h')
              ((Live <$> l2) ++ Live lst :: raws));
    [ | subst w3 w2 w1; cbn [heap];
        rewrite list_lookup_insert_eq by (by rewrite length_insert); reflexivity
      | by rewrite length_fmap ].
  unfold emit at 1. unfold bind at 1.
  erewrite get_data_spec by (subst w3; cbn [vecs]; exact Hv2).
  rewrite RawMemory_plus_ok by (cbn [data_ capacity_]; lia).
  cbn [data_ buffer_ heap vecs trace]. cbn [built].
  split; [| split].
  - eapply (holds_block _ _ _ _ b).
    + cbn [vecs]. subst w3. cbn [vecs].
      replace (length (l1 ++ built args :: l2 ++ [lst])) with (k + m + 1 + 1)%nat
        by (rewrite !length_app; simpl; rewrite length_app; simpl; lia).
      rewrite Nat2Z.inj_add. exact Hv2.
    + cbn [heap]. subst w3 w2 w1. cbn [heap].
      rewrite !list_insert_insert_eq. rewrite list_lookup_insert_eq by done.
      replace (length (l1 ++ built args :: l2 ++ [lst])) with (k + m + 1 + 1)%nat
        by (rewrite !length_app; simpl; rewrite length_app; simpl; lia).
      rewrite !fmap_app. simpl. rewrite fmap_app. simpl.
      rewrite <- !app_assoc. simpl.
      subst raws. rewrite <- (app_assoc _ [Live lst]). simpl.
      by replace (Z.to_nat cap - (k + m + 1 + 1))%nat
        with (Z.to_nat cap - (k + m + 1) - 1)%nat by lia.
    + replace (length (l1 ++ built args :: l2 ++ [lst])) with (k + m + 1 + 1)%nat
        by (rewrite !length_app; simpl; rewrite length_app; simpl; lia).
      lia.
    + done.
  - eexists. split; [subst w3; cbn [vecs]; exact Hv2 |]. done.
  - subst w3 w2 w1. cbn [heap]. by rewrite !length_insert.
Qed.


(** At [end()] the range handed to [std::move_backward] ends in front of
    its start. *)
Lemma Emplace_spare_end_undefined (w : World) this vs cap args :
  holds w this vs cap → (0 < length vs)%nat → Z.of_nat (length vs) < cap →
  (e <- end_ debug this ;; Emplace throws debug this e args) w = Undefined.
Proof.
  intros Hh Hne Hspare.
  destruct (begin_end_spec _ _ _ _ Hh) as (v0 & Hv0 & _ & Hend).
  unfold bind at 1. rewrite Hend.
  destruct is_implicit_lifetime eqn:Himp; cycle 1.
  { by eapply Emplace_spare_undefined. }
  destruct (holds_inv _ _ _ _ Hh) as [Hbd [(-> & _) | (Hpos & b & Hv & Hb)]];
    [simpl in Hne; lia |].
  rewrite Hv0 in Hv. injection Hv as ->.
  assert (Hlt : (this < length (vecs w))%nat) by (by eapply lookup_lt_Some).
  assert (Hlb : (b < length (heap w))%nat) by (by eapply lookup_lt_Some).
  destruct (lookup_lt_is_Some_2 vs (length vs - 1)) as [lst Hlst]; [lia |].
  set (n := length vs) in *.
  set (raws := replicate (Z.to_nat cap - n - 1) (@Raw T)).
  assert (Hb0 : heap w !! b = Some (Block
    ((Live <$> take (n - 1) vs) ++ Live lst :: Raw :: raws))).
  { rewrite Hb. rewrite <- (take_drop_middle _ _ _ Hlst) at 1.
    rewrite fmap_app, <- app_assoc. simpl. do 4 f_equal.
    replace (S (n - 1)) with n by lia. subst n. rewrite drop_all. simpl.
    subst raws. rewrite <- replicate_S. f_equal. lia. }
  cbn [data_ buffer_]. unfold ptr_add at 1. cbn [base off].
  unfold Emplace. unfold bind at 1. unfold cbegin. rewrite (begin_spec _ _ _ Hv0).
  unfold bind at 1. unfold distance. cbn [ptr_add base off data_ buffer_].
  rewrite bool_decide_eq_true_2 by done. unfold ret at 1.
  replace (0 + Z.of_nat n - 0) with (Z.of_nat n) by lia.
  rewrite (size_t_small (Z.of_nat n)) by lia.
  unfold bind at 1. rewrite (get_vec_spec _ _ _ Hv0).
  cbn [data_ size_ capacity_].
  rewrite (proj2 (Z.eqb_neq _ _)) by lia.
  rewrite (proj2 (Z.eqb_neq _ 0)) by lia.
  unfold bind at 1. unfold bind at 1. unfold end_ at 1. unfold bind at 1.
  rewrite (get_vec_spec _ _ _ Hv0).
  rewrite RawMemory_plus_ok by (cbn [data_ size_ capacity_]; lia).
  cbn [data_ buffer_ size_ capacity_]. unfold ptr_add at 1 2 3 4. cbn [base off].
  unfold bind at 1. unfold std_move. unfold bind at 1.
  rewrite range_length_ok by lia.
  replace (0 + Z.of_nat n - (0 + Z.of_nat n + -1)) with 1 by lia.
  change (Z.to_nat 1) with 1%nat. cbn [assign_forward]. unfold bind at 1.
  unfold ptr_add at 1 2. cbn [base off].
  replace (0 + Z.of_nat n + -1 + 0) with (Z.of_nat (n - 1)) by lia.
  replace (0 + Z.of_nat n + 0) with (Z.of_nat (n - 1) + 1) by lia.
  rewrite (move_assign_right w b _ lst Raw raws (Z.of_nat (n - 1)) Hb0)
    by (rewrite ?length_fmap, ?length_take; done || lia).
  unfold ret at 1.
  set (w1 := {| heap := _; vecs := _; trace := _ |}).
  unfold bind at 1. erewrite set_size_spec by (subst w1; cbn [vecs]; exact Hv0).
  cbn [data_]. rewrite size_t_small by lia.
  unfold bind at 1. unfold may_throw. cbn [trace]. rewrite never_throws, andb_false_r.
  unfold bind at 1. unfold emit at 1.
  unfold bind at 1. unfold unwinding, try_catch.
  cbn [heap vecs trace].
  set (w2 := {| heap := heap w1; vecs := _; trace := _ |}).
  assert (Hv2 : vecs w2 !! this =
    Some {| data_ := {| buffer_ := Ptr (Some b) 0; capacity_ := cap |};
            size_ := Z.of_nat n + 1 |}).
  { subst w2 w1. cbn [vecs]. by apply list_lookup_insert_eq. }
  unfold bind at 1. rewrite (begin_spec _ _ _ Hv2).
  unfold bind at 1. unfold end_ at 1. unfold bind at 1.
  rewrite (get_vec_spec _ _ _ Hv2).
  rewrite RawMemory_plus_ok by (cbn [data_ size_ capacity_]; lia).
  cbn [data_ buffer_ size_ capacity_]. unfold ptr_add. cbn [base off].
  unfold bind at 1.
  assert (Hbad :
    range_length (Ptr (Some b) (0 + Z.of_nat n)) (Ptr (Some b) (0 + (Z.of_nat n + 1) + -2)) w2
      = Undefined).
  { unfold range_length. cbn [base off].
    rewrite bool_decide_eq_true_2 by done.
    by rewrite (proj2 (Z.leb_gt _ _)) by lia. }
  destruct use_move; unfold move_backward, copy_backward; unfold bind at 1;
    by rewrite Hbad.
Qed.

End Quiet.

End Specifications.

Lemma never_is_quiet {T} : ∀ (tr : list (event T)) (a : action T), never tr a = false.
Proof. done. Qed.

(** * Growth at capacity *)

Section Growth.

Context {T : Type} `{ElemTraits T}.
Variable throws : list (event T) → action T → bool.
Variable debug : bool.

Local Abbreviation World := (World T).

(** C4.  On a vector whose size equals its capacity, every back
    insertion and every positional insertion asks [operator new] for
    room for [max(1, capacity * 2)] elements before anything else: a run
    that returns leaves the vector in that new block with that capacity,
    and a run that throws shows the request, refused or granted, in its
    history.  A back insertion does return or throw, whatever throws.
    When nothing throws and the request can be met, each of the six
    insertions returns, with the new element at its place among the
    former ones in the new block.  From capacity 0 the new capacity
    is 1. *)
Theorem growth_at_capacity (w : World) this vs cap :
  holds w this vs cap → Z.of_nat (length vs) = cap →
  let n' := Z.max 1 (cap * 2) in
  let bnew := length (heap w) in
  (∀ args, grown this (trace w) bnew n' (EmplaceBack throws debug this args w)) ∧
  (∀ value, grown this (trace w) bnew n' (PushBack throws debug this value w)) ∧
  (∀ value, grown this (trace w) bnew n' (PushBack_move throws debug this value w)) ∧
  (∀ pos args, grown this (trace w) bnew n' (Emplace throws debug this pos args w)) ∧
  (∀ pos value, grown this (trace w) bnew n' (Insert throws debug this pos value w)) ∧
  (∀ pos value, grown this (trace w) bnew n' (Insert_move throws debug this pos value w)) ∧
  (∀ args, returns_or_throws (EmplaceBack throws debug this args w)) ∧
  (∀ value, returns_or_throws (PushBack throws debug this value w)) ∧
  (∀ value, returns_or_throws (PushBack_move throws debug this value w)) ∧
  ((∀ tr a, throws tr a = false) → n' ≤ MAX_ELEMS →
   (∀ args,
      match EmplaceBack throws debug this args w with
      | Ok _ w' => holds w' this (vs ++ [built args]) n'
      | _ => False
      end) ∧
   (∀ value,
      match PushBack throws debug this value w with
      | Ok _ w' => holds w' this (vs ++ [value]) n'
      | _ => False
      end) ∧
   (∀ value,
      match PushBack_move throws debug this value w with
      | Ok _ w' => holds w' this (vs ++ [value]) n'
      | _ => False
      end) ∧
   (∀ k args, (k ≤ length vs)%nat →
      match (b <- begin this ;;
             Emplace throws debug this (b +ₚ Z.of_nat k) args) w with
      | Ok _ w' => holds w' this (take k vs ++ built args :: drop k vs) n'
      | _ => False
      end) ∧
   (∀ k value, (k ≤ length vs)%nat →
      match (b <- begin this ;;
             Insert throws debug this (b +ₚ Z.of_nat k) value) w with
      | Ok _ w' => holds w' this (take k vs ++ value :: drop k vs) n'
      | _ => False
      end) ∧
   (∀ k value, (k ≤ length vs)%nat →
      match (b <- begin this ;;
             Insert_move throws debug this (b +ₚ Z.of_nat k) value) w with
      | Ok _ w' => holds w' this (take k vs ++ value :: drop k vs) n'
      | _ => False
      end)) ∧
  (cap = 0 → n' = 1).
Proof.
  intros Hholds Hfull n' bnew.
  assert (Hback : ∀ args, returns_or_throws (EmplaceBack throws debug this args w)).
  { intros args.
    pose proof (EmplaceBack_full_spec throws debug w this vs cap args Hholds Hfull)
      as Hspec.
    by destruct (EmplaceBack throws debug this args w). }
  repeat apply conj.
  - intros. by apply EmplaceBack_grows with vs.
  - intros. apply grown_ret_tt. by apply EmplaceBack_grows with vs.
  - intros. apply grown_ret_tt. by apply EmplaceBack_grows with vs.
  - intros. by apply Emplace_grows with vs.
  - intros. by apply Emplace_grows with vs.
  - intros. by apply Emplace_grows with vs.
  - exact Hback.
  - intros value. unfold PushBack, bind. specialize (Hback (CopyCtor value)).
    by destruct (EmplaceBack throws debug this (CopyCtor value) w).
  - intros value. unfold PushBack_move, bind. specialize (Hback (MoveCtor value)).
    by destruct (EmplaceBack throws debug this (MoveCtor value) w).
  - intros Hnever Hmax.
    assert (Hok : ∀ args,
      match EmplaceBack throws debug this args w with
      | Ok _ w' => holds w' this (vs ++ [built args]) n'
      | _ => False
      end) by (intros args; by apply EmplaceBack_ok).
    assert (Hins : ∀ k args, (k ≤ length vs)%nat →
      match (b <- begin this ;;
             Emplace throws debug this (b +ₚ Z.of_nat k) args) w with
      | Ok _ w' => holds w' this (take k vs ++ built args :: drop k vs) n'
      | _ => False
      end).
    { intros k args Hk.
      pose proof (Emplace_full_ok throws debug Hnever w this vs cap k args
                    Hholds Hfull Hk Hmax) as E.
      destruct (bind _ _ w); try done. apply E. }
    repeat apply conj.
    + exact Hok.
    + intros value. unfold PushBack, bind. specialize (Hok (CopyCtor value)).
      by destruct (EmplaceBack throws debug this (CopyCtor value) w).
    + intros value. unfold PushBack_move, bind. specialize (Hok (MoveCtor value)).
      by destruct (EmplaceBack throws debug this (MoveCtor value) w).
    + exact Hins.
    + intros k value Hk. exact (Hins k (CopyCtor value) Hk).
    + intros k value Hk. exact (Hins k (MoveCtor value) Hk).
  - intros ->. done.
Qed.

End Growth.

Lemma growth_at_capacity_witness :
  (∃ p w', EmplaceBack (H := int_traits) never true 0 (ArgsCtor 9) full2 = Ok p w' ∧
           holds (H := int_traits) w' 0 [1; 2; 9] 4) ∧
  (∃ p w', Insert_move (H := int_traits) never true 0 (Ptr (Some 0%nat) 1) 9 full2
             = Ok p w' ∧
           holds (H := int_traits) w' 0 [1; 9; 2] 4) ∧
  (∃ w', PushBack (H := int_traits) never true 0 9 one_empty = Ok tt w' ∧
         holds (H := int_traits) w' 0 [9] 1).
Proof.
  destruct (growth_at_capacity (H := int_traits) never true full2 0 [1; 2] 2
              full2_holds eq_refl) as (_ & _ & _ & _ & _ & _ & _ & _ & _ & Hfull & _).
  destruct (growth_at_capacity (H := int_traits) never true one_empty 0 [] 0
              one_empty_holds eq_refl) as (_ & _ & _ & _ & _ & _ & _ & _ & _ & Hempty & _).
  destruct (Hfull never_is_quiet ltac:(by vm_compute)) as (Hback & _ & _ & _ & _ & Hins).
  destruct (Hempty never_is_quiet ltac:(by vm_compute)) as (_ & Hpush & _).
  split; [| split].
  - specialize (Hback (ArgsCtor 9)).
    destruct (EmplaceBack _ _ _ _ _) as [p w' | | |] eqn:E; try done.
    by exists p, w'.
  - specialize (Hins 1%nat 9 ltac:(simpl; lia)).
    change ((b <- begin 0;; Insert_move (H := int_traits) never true 0 (b +ₚ Z.of_nat 1) 9)
              full2)
      with (Insert_move (H := int_traits) never true 0 (Ptr (Some 0%nat) 1) 9 full2)
      in Hins.
    destruct (Insert_move _ _ _ _ _ _) as [p w' | | |] eqn:E; try done.
    by exists p, w'.
  - specialize (Hpush 9).
    destruct (PushBack _ _ _ _ _) as [[] w' | | |] eqn:E; try done.
    by exists w'.
Defined.

(** * The contracts of the remaining member functions *)

Section Contracts.

Context {T : Type} `{ElemTraits T}.
Variable throws : list (event T) → action T → bool.
Variable debug : bool.

Local Abbreviation World := (World T).

(** X1.  [Vector(size_t size)], for a size whose byte count
    [size * sizeof(T)] fits in a [size_t], either returns a new vector
    that holds [size] value-initialised elements in a fresh block of
    capacity [size] (in no block when [size] is 0, and then nothing is
    allocated), or throws and leaves no trace in the store: after
    [bad_alloc] the heap is as before, and after an exception of a
    constructor the elements constructed so far were destroyed, one
    destructor call each, and the block was released holding no object.
    The vectors that existed are valid as before in every case. *)
Theorem Vector_sized_contract (w : World) n :
  0 ≤ n → byte_size n < SIZE_MOD →
  let bnew := length (heap w) in
  let vs := replicate (Z.to_nat n) value_init in
  match Vector_sized throws n w with
  | Ok this w' =>
      this = length (vecs w) ∧
      holds w' this vs n ∧
      (∀ other vs' cap', holds w other vs' cap' → holds w' other vs' cap') ∧
      (if n =? 0 then heap w' = heap w ∧ trace w' = trace w
       else heap w' = heap w ++ [Block (Live <$> vs)] ∧
            trace w' = trace w ++ EvAlloc (byte_size n) bnew ::
              ctor_events (λ _, ValueCtor) (Ptr (Some bnew) 0) 0 vs)
  | Throw e w' =>
      0 < n ∧ vecs w' = vecs w ∧
      (∀ other vs' cap', holds w other vs' cap' → holds w' other vs' cap') ∧
      ((e = bad_alloc ∧ heap w' = heap w ∧
        trace w' = trace w ++ [EvThrow (AAlloc (byte_size n))])
       ∨
       (e = elem_exception ∧
        heap w' = heap w ++ [Freed (replicate (Z.to_nat n) Raw)] ∧
        ∃ k1, (k1 < Z.to_nat n)%nat ∧
          trace w' = trace w ++ EvAlloc (byte_size n) bnew ::
            ctor_events (λ _, ValueCtor) (Ptr (Some bnew) 0) 0
              (replicate k1 value_init) ++
            [EvThrow (ACtor ValueCtor)] ++
            dtor_events (Ptr (Some bnew) 0) 0 k1 ++ [EvDealloc bnew]))
  | _ => False
  end.
Proof.
  intros Hn Hfit bnew vs.
  pose proof (Vector_sized_spec throws w n Hn Hfit) as Hspec. cbv zeta in Hspec.
  fold bnew vs in Hspec.
  destruct (Vector_sized throws n w) as [this w' | e w' | |]; try done.
  - destruct Hspec as (-> & Hvecs & Hh & Hrest).
    split; [done |]. split; [done |]. split; [| done].
    intros other vs' cap' Ho.
    assert (Hlt : (other < length (vecs w))%nat).
    { destruct Ho as (v & Hv & _). by eapply lookup_lt_Some. }
    assert (Hheap : ∃ h, heap w' = heap w ++ h).
    { destruct (n =? 0); destruct Hrest as [-> _]; [exists [] | eexists]; try done.
      by rewrite app_nil_r. }
    destruct Hheap as (h & Hheap).
    eapply holds_heap_app; [exact Ho | | exact Hheap].
    rewrite Hvecs. by rewrite lookup_app_l.
  - destruct Hspec as (Hpos & Hvecs & Hcase).
    split; [done |]. split; [done |]. split; [| done].
    intros other vs' cap' Ho.
    assert (Hheap : ∃ h, heap w' = heap w ++ h).
    { destruct Hcase as [(_ & -> & _) | (_ & -> & _)]; [exists [] | eexists]; try done.
      by rewrite app_nil_r. }
    destruct Hheap as (h & Hheap).
    eapply holds_heap_app; [exact Ho | by rewrite Hvecs | exact Hheap].
Qed.

(** X2.  [Vector(const Vector&)] either returns a new vector that holds
    the elements of the source, in their order, in a fresh block whose
    capacity is the source's size, not its capacity (in no block when the
    source is empty), or throws and leaves no trace in the store.  The
    source and every other vector are valid as before in every case, and
    the copy shares no storage with the source. *)
Theorem Vector_copy_contract (w : World) other vs cap :
  holds w other vs cap →
  let bnew := length (heap w) in
  let n := Z.of_nat (length vs) in
  match Vector_copy throws other w with
  | Ok this w' =>
      this = length (vecs w) ∧
      holds w' this vs n ∧
      (∀ o vs' cap', holds w o vs' cap' → holds w' o vs' cap') ∧
      separate w' this other ∧
      (if n =? 0 then heap w' = heap w ∧ trace w' = trace w
       else heap w' = heap w ++ [Block (Live <$> vs)] ∧
            trace w' = trace w ++ EvAlloc (byte_size n) bnew ::
              ctor_events CopyCtor (Ptr (Some bnew) 0) 0 vs)
  | Throw e w' =>
      0 < n ∧ vecs w' = vecs w ∧
      (∀ o vs' cap', holds w o vs' cap' → holds w' o vs' cap') ∧
      ((e = bad_alloc ∧ heap w' = heap w ∧
        trace w' = trace w ++ [EvThrow (AAlloc (byte_size n))])
       ∨
       (e = elem_exception ∧
        heap w' = heap w ++ [Freed (replicate (Z.to_nat n) Raw)] ∧
        ∃ t1 v t2, vs = t1 ++ v :: t2 ∧
          trace w' = trace w ++ EvAlloc (byte_size n) bnew ::
            ctor_events CopyCtor (Ptr (Some bnew) 0) 0 t1 ++
            [EvThrow (ACtor (CopyCtor v))] ++
            dtor_events (Ptr (Some bnew) 0) 0 (length t1) ++ [EvDealloc bnew]))
  | _ => False
  end.
Proof.
  intros Hh bnew n.
  pose proof (Vector_copy_spec throws w other vs cap Hh) as Hspec. cbv zeta in Hspec.
  fold bnew n in Hspec.
  assert (Holt : (other < length (vecs w))%nat).
  { destruct Hh as (v & Hv & _). by eapply lookup_lt_Some. }
  destruct (Vector_copy throws other w) as [this w' | e w' | |]; try done.
  - destruct Hspec as (-> & Hvecs & Hnew & Hrest).
    assert (Hheap : ∃ h, heap w' = heap w ++ h).
    { destruct (n =? 0); destruct Hrest as [-> _]; [exists [] | eexists]; try done.
      by rewrite app_nil_r. }
    destruct Hheap as (h & Hheap).
    split; [done |]. split; [done |]. split; [| split; [| done]].
    + intros o vs' cap' Ho.
      assert (Hlt : (o < length (vecs w))%nat).
      { destruct Ho as (v & Hv & _). by eapply lookup_lt_Some. }
      eapply holds_heap_app; [exact Ho | | exact Hheap].
      rewrite Hvecs. by rewrite lookup_app_l.
    + intros va vb Hva Hvb Hbase.
      rewrite Hvecs in Hva, Hvb.
      rewrite list_lookup_middle in Hva by done. injection Hva as <-.
      rewrite lookup_app_l in Hvb by done.
      cbn [data_ buffer_] in *.
      destruct (n =? 0); [done |]. cbn [buffer_ base] in *.
      destruct Hh as (v & Hv & _ & _ & _ & Hbuf).
      rewrite Hv in Hvb. injection Hvb as <-.
      rewrite <- Hbase in Hbuf. destruct Hbuf as (_ & _ & Hb).
      apply lookup_lt_Some in Hb. subst bnew. lia.
  - destruct Hspec as (Hpos & Hvecs & Hcase).
    split; [done |]. split; [done |]. split; [| done].
    intros o vs' cap' Ho.
    assert (Hheap : ∃ h, heap w' = heap w ++ h).
    { destruct Hcase as [(_ & -> & _) | (_ & -> & _)]; [exists [] | eexists]; try done.
      by rewrite app_nil_r. }
    destruct Hheap as (h & Hheap).
    eapply holds_heap_app; [exact Ho | by rewrite Hvecs | exact Hheap].
Qed.


(** X3.  The destructor of a valid vector destroys each of its elements
    once, in index order, and then releases the block, which holds no
    object any more; every other block is untouched and no exception can
    leave it.  A vector that owns no block releases nothing. *)
Theorem Vector_destroy_contract (w : World) this vs cap :
  holds w this vs cap →
  ∃ v w',
    vecs w !! this = Some v ∧
    Vector_destroy this w = Ok tt w' ∧
    vecs w' = vecs w ∧
    trace w' = trace w ++ dtor_events (buffer_ (data_ v)) 0 (length vs) ++
               release_events (buffer_ (data_ v)) ∧
    match base (buffer_ (data_ v)) with
    | Some b =>
        heap w' !! b = Some (Freed (replicate (Z.to_nat cap) Raw)) ∧
        ∀ b', b' ≠ b → heap w' !! b' = heap w !! b'
    | None => heap w' = heap w
    end.
Proof.
  intros Hh.
  destruct (Vector_destroy_spec w this vs cap Hh) as (v & Hv & Hrun).
  eexists v, _. split; [exact Hv |]. split; [exact Hrun |].
  cbn [heap vecs trace]. split; [done |]. split; [done |].
  destruct (base (buffer_ (data_ v))) as [b|] eqn:Eb; [| done].
  split.
  - apply list_lookup_insert_eq.
    destruct Hh as (v' & Hv' & _ & _ & _ & Hbuf).
    rewrite Hv in Hv'. injection Hv' as <-. rewrite Eb in Hbuf.
    destruct Hbuf as (_ & _ & Hb). by eapply lookup_lt_Some.
  - intros b' Hne. by rewrite list_lookup_insert_ne.
Qed.

(** X4.  Copy assignment between two distinct vectors that share no
    storage.  When it returns, the destination holds the elements of the
    source in their order, and its capacity is the source's size if the
    old capacity was smaller than that, and the old capacity otherwise;
    in the second case nothing is allocated.  When it throws, the
    destination is still a valid vector of its old capacity with as many
    elements as before, and it is unchanged if the old capacity was too
    small (the copy is built first and swapped in).  The source is valid
    and unchanged in every case. *)
Theorem copy_assign_contract (w : World) this rhs vs_t cap_t vs_r cap_r :
  this ≠ rhs →
  holds w this vs_t cap_t → holds w rhs vs_r cap_r → separate w this rhs →
  match copy_assign throws debug this rhs w with
  | Ok _ w' =>
      holds w' this vs_r (if cap_t <? Z.of_nat (length vs_r)
                          then Z.of_nat (length vs_r) else cap_t) ∧
      holds w' rhs vs_r cap_r ∧
      (Z.of_nat (length vs_r) ≤ cap_t → length (heap w') = length (heap w))
  | Throw e w' =>
      (∃ vs', holds w' this vs' cap_t ∧ length vs' = length vs_t ∧
              (cap_t < Z.of_nat (length vs_r) → vs' = vs_t)) ∧
      holds w' rhs vs_r cap_r
  | _ => False
  end.
Proof.
  intros Hne Ht Hr Hsep.
  destruct (Z.ltb_spec cap_t (Z.of_nat (length vs_r))) as [Hsmall | Hfit].
  - pose proof (copy_assign_realloc_spec throws debug w this rhs vs_t cap_t vs_r cap_r
                  Hne Ht Hr Hsep Hsmall) as Hspec. cbv zeta in Hspec.
    destruct (copy_assign throws debug this rhs w) as [[] w' | e w' | |]; try done.
    + destruct Hspec as (Ht' & Hr' & _). split; [done |]. split; [done |]. lia.
    + destruct Hspec as (_ & Ht' & Hr'). split; [| done]. by exists vs_t.
  - pose proof (copy_assign_in_place_spec throws debug w this rhs vs_t cap_t vs_r cap_r
                  Hne Ht Hr Hsep Hfit) as Hspec.
    destruct (copy_assign throws debug this rhs w) as [[] w' | e w' | |]; try done.
    + destruct Hspec as (Ht' & Hr' & Hlen). done.
    + destruct Hspec as ((vs' & Ht' & Hlen) & Hr' & _). split; [| done].
      exists vs'. split; [done |]. split; [done |]. lia.
Qed.

(** X5.  [PopBack] on a vector that is not empty destroys the last
    element, once, and nothing else: the elements in front of it, the
    capacity and the block stay, nothing is allocated or released, and no
    exception can leave it. *)
Theorem PopBack_removes_last (w : World) this vs x cap :
  holds w this (vs ++ [x]) cap →
  ∃ v w',
    vecs w !! this = Some v ∧
    PopBack debug this w = Ok tt w' ∧
    holds w' this vs cap ∧
    (∃ v', vecs w' !! this = Some v' ∧ data_ v' = data_ v) ∧
    length (heap w') = length (heap w) ∧
    trace w' = trace w ++ [EvDtor (buffer_ (data_ v) +ₚ Z.of_nat (length vs))].
Proof.
  intros Hh.
  destruct (holds_inv w this _ cap Hh) as [Hbd _].
  rewrite length_app in Hbd. simpl in Hbd.
  destruct (PopBack_spec debug w this vs x cap Hh) as (b & Hv & Hrun).
  assert (Hlb : (b < length (heap w))%nat).
  { destruct Hh as (v' & Hv' & _ & _ & _ & Hbuf).
    rewrite Hv in Hv'. injection Hv' as <-. cbn [data_ buffer_ base] in Hbuf.
    destruct Hbuf as (_ & _ & Hb). by eapply lookup_lt_Some. }
  eexists _, _. split; [exact Hv |]. split; [exact Hrun |].
  cbn [heap vecs trace data_ buffer_]. split; [| split; [| split]].
  - eapply (holds_block _ _ _ _ b); cbn [heap vecs]; try lia.
    + apply list_lookup_insert_eq. by eapply lookup_lt_Some.
    + by apply list_lookup_insert_eq.
  - eexists. split; [apply list_lookup_insert_eq; by eapply lookup_lt_Some | done].
  - by rewrite length_insert.
  - unfold ptr_add. cbn [base off]. by rewrite Z.add_0_l.
Qed.

(** X6.  [EmplaceBack] on a vector with spare capacity constructs the new
    element in place, behind the last one: the block and the capacity are
    the same, nothing is allocated and no other element is touched, and
    the reference returned is the new element.  If the constructor
    throws, the exception propagates and heap and vector are as before. *)
Theorem EmplaceBack_with_spare_capacity (w : World) this vs cap args :
  holds w this vs cap → Z.of_nat (length vs) < cap →
  ∃ v, vecs w !! this = Some v ∧
    match EmplaceBack throws debug this args w with
    | Ok p w' =>
        holds w' this (vs ++ [built args]) cap ∧
        (∃ v', vecs w' !! this = Some v' ∧ data_ v' = data_ v) ∧
        p = buffer_ (data_ v) +ₚ Z.of_nat (length vs) ∧
        load p w' = Ok (built args) w' ∧
        length (heap w') = length (heap w) ∧
        trace w' = trace w ++ [EvCtor args p]
    | Throw e w' =>
        e = elem_exception ∧ heap w' = heap w ∧ vecs w' = vecs w ∧
        trace w' = trace w ++ [EvThrow (ACtor args)]
    | _ => False
    end.
Proof.
  intros Hh Hspare.
  destruct (holds_inv w this _ cap Hh) as [Hbd _].
  destruct (EmplaceBack_spare_spec throws debug w this vs cap args Hh Hspare)
    as (b & Hv & Hb & ->).
  assert (Hlb : (b < length (heap w))%nat) by (by eapply lookup_lt_Some).
  assert (Hlt : (this < length (vecs w))%nat) by (by eapply lookup_lt_Some).
  eexists. split; [exact Hv |].
  destruct (can_throw (ACtor args) && throws (trace w) (ACtor args)); [done |].
  cbn [heap vecs trace data_ buffer_].
  assert (Hh' : holds
    {| heap := <[b := Block ((Live <$> vs ++ [built args]) ++
                      replicate (Z.to_nat cap - length vs - 1) Raw)]> (heap w);
       vecs := <[this := {| data_ := {| buffer_ := Ptr (Some b) 0; capacity_ := cap |};
                            size_ := Z.of_nat (length vs) + 1 |}]> (vecs w);
       trace := trace w ++ [EvCtor args (Ptr (Some b) (Z.of_nat (length vs)))] |}
    this (vs ++ [built args]) cap).
  { eapply (holds_block _ _ _ _ b).
    - cbn [vecs]. rewrite length_app. simpl. rewrite Nat2Z.inj_add. simpl.
      by apply list_lookup_insert_eq.
    - cbn [heap]. rewrite list_lookup_insert_eq by done.
      rewrite length_app. simpl.
      by replace (Z.to_nat cap - (length vs + 1))%nat
        with (Z.to_nat cap - length vs - 1)%nat by lia.
    - rewrite length_app. simpl. lia.
    - lia. }
  split; [done |]. split; [| split; [| split; [| split]]].
  - eexists. split; [by apply list_lookup_insert_eq | done].
  - unfold ptr_add. cbn [base off]. by rewrite Z.add_0_l.
  - assert (Hlast : (vs ++ [built args]) !! length vs = Some (built args))
      by (by apply list_lookup_middle).
    destruct (index_spec debug _ _ _ _ _ _ Hh' Hlast) as (v & Hv' & _ & Hload).
    cbn [vecs] in Hv'. rewrite list_lookup_insert_eq in Hv' by done.
    injection Hv' as <-. cbn [data_ buffer_] in Hload.
    unfold ptr_add in Hload. cbn [base off] in Hload. by rewrite Z.add_0_l in Hload.
  - by rewrite length_insert.
  - done.
Qed.

(** X7.  [EmplaceBack] on a full vector of a type that is transferred by
    copy.  When it returns, the vector holds the old elements and the new
    one behind them in a block of the doubled capacity, and the reference
    returned is the slot behind the old elements in that block, which
    holds the new element.  When it throws, the vector, its block
    and its elements are as before and the new block is released; the
    block holds no object if the allocation or the constructor of the new
    element failed, but if the copy of an old element failed it still
    holds the new element, which was constructed first and is never
    destroyed. *)
Theorem EmplaceBack_at_capacity_contract (w : World) this vs cap args :
  holds w this vs cap → Z.of_nat (length vs) = cap → use_move = false →
  let n' := Z.max 1 (cap * 2) in
  let bnew := length (heap w) in
  match EmplaceBack throws debug this args w with
  | Ok p w' =>
      holds w' this (vs ++ [built args]) n' ∧
      p = Ptr (Some bnew) (Z.of_nat (length vs)) ∧
      load p w' = Ok (built args) w'
  | Throw e w' =>
      vecs w' = vecs w ∧ holds w' this vs cap ∧
      ((e = bad_alloc ∧ heap w' = heap w)
       ∨
       (e = elem_exception ∧
        heap w' = heap w ++ [Freed (replicate (Z.to_nat n') Raw)] ∧
        trace w' = trace w ++
          [EvAlloc (byte_size n') bnew; EvThrow (ACtor args); EvDealloc bnew])
       ∨
       (e = elem_exception ∧
        heap w' = heap w ++
          [Freed (replicate (length vs) Raw ++ Live (built args) ::
                  replicate (Z.to_nat n' - length vs - 1) Raw)] ∧
        ∃ t1 v t2, vs = t1 ++ v :: t2 ∧
          trace w' = trace w ++ EvAlloc (byte_size n') bnew ::
            EvCtor args (Ptr (Some bnew) (Z.of_nat (length vs))) ::
            ctor_events CopyCtor (Ptr (Some bnew) 0) 0 t1 ++
            [EvThrow (ACtor (CopyCtor v))] ++
            dtor_events (Ptr (Some bnew) 0) 0 (length t1) ++
            [EvDealloc bnew]))
  | _ => False
  end.
Proof.
  intros Hh Hfull Hcopy n' bnew.
  pose proof (EmplaceBack_full_spec throws debug w this vs cap args Hh Hfull) as Hspec.
  cbv zeta in Hspec. fold n' bnew in Hspec.
  destruct (EmplaceBack throws debug this args w) as [p w' | e w' | |]; try done.
  - destruct Hspec as (Hh' & -> & Hv' & _). split; [done |]. split; [done |].
    assert (Hlast : (vs ++ [built args]) !! length vs = Some (built args))
      by (by apply list_lookup_middle).
    destruct (index_spec debug _ _ _ _ _ _ Hh' Hlast) as (v & Hv & _ & Hload).
    rewrite Hv' in Hv. injection Hv as <-. cbn [data_ buffer_] in Hload.
    unfold ptr_add in Hload. cbn [base off] in Hload. by rewrite Z.add_0_l in Hload.
  - destruct Hspec as (Hvecs & [(-> & Hheap & Htr) | [(-> & Hheap & Htr) |
      (-> & t1 & v & t2 & Hvs & Hh' & (h & Hheap & Hsame) & Htr)]]).
    + split; [done |]. split; [by eapply holds_same_state | by left].
    + split; [done |]. split; [| right; left; done].
      eapply holds_heap_app; [exact Hh | by rewrite Hvecs | exact Hheap].
    + split; [done |].
      rewrite (source_after_copy _ Hcopy), <- Hvs in Hh'. split; [done |].
      right. right. split; [done |]. rewrite (Hsame Hcopy) in Hheap. split; [done |].
      exists t1, v, t2. split; [done |]. rewrite Htr.
      rewrite (ctor_events_copy _ _ _ Hcopy).
      unfold transfer_ctor. by rewrite Hcopy.
Qed.


(** X8.  [Erase] at a position inside the live range.  When it returns,
    the element at that position is gone, the others keep their order,
    and the iterator returned is the position that was given.  When a
    move assignment throws, the vector is still valid with as many
    elements as before.  In both cases the vector keeps its buffer and
    its capacity, nothing is allocated or released, and every other
    vector and every other block is as it was. *)
Theorem Erase_contract (w : World) this vs cap k :
  holds w this vs cap → (k < length vs)%nat →
  ∃ v, vecs w !! this = Some v ∧
    match (b <- begin this ;; Erase throws debug this (b +ₚ Z.of_nat k)) w with
    | Ok p w' =>
        holds w' this (take k vs ++ drop (S k) vs) cap ∧
        p = buffer_ (data_ v) +ₚ Z.of_nat k ∧
        elsewhere_unchanged w w' this v
    | Throw e w' =>
        (∃ vs', length vs' = length vs ∧ holds w' this vs' cap) ∧
        elsewhere_unchanged w w' this v
    | _ => False
    end.
Proof.
  intros Hh Hk.
  pose proof (Erase_spec throws debug w this vs cap k Hh Hk) as Hspec.
  destruct Hh as (v & Hv & _). exists v. split; [done |].
  destruct (bind _ _ w) as [p w' | e w' | |]; try done.
  - destruct Hspec as (Hh' & (v0 & Hv0 & ->) & Hframe).
    rewrite Hv in Hv0. injection Hv0 as <-.
    split; [done |]. split; [done |]. by apply Hframe.
  - destruct Hspec as (Hh' & Hframe). split; [done |]. by apply Hframe.
Qed.

(** X9.  [Erase] at [end()] is undefined behaviour on every valid vector,
    empty or not, in debug builds as in release builds: no assertion
    guards the position, and the range of elements to move ends in front
    of its start. *)
Theorem Erase_at_end_is_undefined (w : World) this vs cap :
  holds w this vs cap →
  (e <- end_ debug this ;; Erase throws debug this e) w = Undefined.
Proof. apply Erase_end_undefined. Qed.

(** X10.  On a valid vector [Size], [Capacity], [begin], [end] and the
    index operator with an index below the size return without changing
    anything and without failing an assertion, in debug and in release
    builds: [end()] is [size] slots behind [begin()], and the reference
    for index [i] is the slot [begin() + i], which holds element [i]. *)
Theorem element_access (w : World) this vs cap :
  holds w this vs cap →
  ∃ v, vecs w !! this = Some v ∧
    Size this w = Ok (Z.of_nat (length vs)) w ∧
    Capacity this w = Ok cap w ∧
    begin this w = Ok (buffer_ (data_ v)) w ∧
    end_ debug this w = Ok (buffer_ (data_ v) +ₚ Z.of_nat (length vs)) w ∧
    ∀ i x, vs !! i = Some x →
      index debug this (Z.of_nat i) w = Ok (buffer_ (data_ v) +ₚ Z.of_nat i) w ∧
      load (buffer_ (data_ v) +ₚ Z.of_nat i) w = Ok x w.
Proof.
  intros Hh.
  destruct (begin_end_spec debug w this vs cap Hh) as (v & Hv & Hbegin & Hend).
  exists v. split; [done |].
  pose proof Hh as (v' & Hv' & Hcap & Hsz & _).
  rewrite Hv in Hv'. injection Hv' as <-.
  split; [unfold Size; rewrite (get_size_spec _ _ _ Hv); by rewrite Hsz |].
  split; [unfold Capacity, bind; rewrite (get_data_spec _ _ _ Hv); by rewrite Hcap |].
  split; [done |]. split; [done |].
  intros i x Hx.
  destruct (index_spec debug w this vs cap i x Hh Hx) as (v' & Hv' & Hidx & Hload).
  rewrite Hv in Hv'. by injection Hv' as <-.
Qed.

(** X11.  [Swap] of a valid vector with itself changes nothing, and two
    [Swap]s of the same two valid vectors in a row give the state back as
    it was. *)
Theorem Swap_is_an_involution (w : World) a b vs_a cap_a vs_b cap_b :
  holds w a vs_a cap_a → holds w b vs_b cap_b →
  Swap a a w = Ok tt w ∧
  (a ≠ b → (Swap a b ;; Swap a b) w = Ok tt w).
Proof.
  intros (va & Hva & _ & Hoa) (vb & Hvb & _ & Hob).
  split.
  - eapply Swap_self; [exact Hva | by eapply owns_null_is_empty].
  - intros Hne.
    eapply Swap_twice; try done; by eapply owns_null_is_empty.
Qed.

Lemma ctor_events_move (p : ptr) i (vs : list T) :
  use_move = true →
  ctor_events transfer_ctor p i vs = ctor_events MoveCtor p i vs.
Proof.
  intros E. unfold transfer_ctor. by rewrite E.
Qed.

(** X12.  For an element type whose move constructor is [noexcept],
    [Reserve] beyond the capacity, for a capacity whose byte count fits
    in a [size_t], moves the elements, and the only way it can fail is
    the allocation: it either returns with the same elements in a block
    of the new capacity, every element move-constructed there and
    destroyed in the old block, or throws [bad_alloc] with heap and
    vector as before. *)
Theorem Reserve_with_noexcept_move (w : World) this vs cap n :
  is_nothrow_move_constructible = true →
  holds w this vs cap → cap < n → byte_size n < SIZE_MOD →
  match Reserve throws this n w with
  | Ok _ w' =>
      holds w' this vs n ∧
      ∃ v, vecs w !! this = Some v ∧
        trace w' = trace w ++ EvAlloc (byte_size n) (length (heap w)) ::
          ctor_events MoveCtor (Ptr (Some (length (heap w))) 0) 0 vs ++
          dtor_events (buffer_ (data_ v)) 0 (length vs) ++
          release_events (buffer_ (data_ v))
  | Throw e w' =>
      e = bad_alloc ∧ heap w' = heap w ∧ vecs w' = vecs w ∧
      trace w' = trace w ++ [EvThrow (AAlloc (byte_size n))]
  | _ => False
  end.
Proof.
  intros Hnt Hh Hn Hfit.
  assert (Hmove : use_move = true) by (unfold use_move; by rewrite Hnt).
  pose proof (Reserve_grow_spec throws w this vs cap n Hh Hn Hfit) as Hspec.
  pose proof (Reserve_nothrow_move throws w this n Hnt) as Hexn.
  destruct (Reserve throws this n w) as [[] w' | e w' | |]; try done.
  - destruct Hspec as (Hh' & _ & _ & v & Hv & Htr).
    split; [done |]. exists v. split; [done |].
    by rewrite <- (ctor_events_move _ _ _ Hmove).
  - subst e. destruct Hspec as [Hvecs [(_ & Hheap & Htr & _) | (? & _)]]; done.
Qed.

Lemma source_after_move (vs : list T) :
  use_move = true → source_after <$> vs = moved_from <$> vs.
Proof.
  intros E. apply list_fmap_ext. intros i x _. unfold source_after. by rewrite E.
Qed.

(** X13.  For an element type that is transferred by move, [Reserve]
    beyond the capacity, for a capacity whose byte count fits in a
    [size_t], returns with the same elements in a block of the new
    capacity or throws.  After [bad_alloc] the heap and the vector
    are as before.  After an exception of a move constructor the new
    block is released with no object in it and the vector is valid with
    its old block and capacity, but the elements in front of the one
    whose move threw were moved from, so they are not what they were:
    the strong guarantee is lost. *)
Theorem Reserve_by_throwing_move (w : World) this vs cap n :
  use_move = true → holds w this vs cap → cap < n → byte_size n < SIZE_MOD →
  match Reserve throws this n w with
  | Ok _ w' => holds w' this vs n
  | Throw e w' =>
      vecs w' = vecs w ∧
      ((e = bad_alloc ∧ heap w' = heap w)
       ∨
       (e = elem_exception ∧
        ∃ t1 v t2, vs = t1 ++ v :: t2 ∧
          holds w' this ((moved_from <$> t1) ++ v :: t2) cap ∧
          (∃ h, heap w' = h ++ [Freed (replicate (Z.to_nat n) Raw)]) ∧
          trace w' = trace w ++ EvAlloc (byte_size n) (length (heap w)) ::
            ctor_events MoveCtor (Ptr (Some (length (heap w))) 0) 0 t1 ++
            [EvThrow (ACtor (MoveCtor v))] ++
            dtor_events (Ptr (Some (length (heap w))) 0) 0 (length t1) ++
            [EvDealloc (length (heap w))]))
  | _ => False
  end.
Proof.
  intros Hmove Hh Hn Hfit.
  pose proof (Reserve_grow_spec throws w this vs cap n Hh Hn Hfit) as Hspec.
  destruct (Reserve throws this n w) as [[] w' | e w' | |]; try done.
  - by destruct Hspec as (Hh' & _).
  - destruct Hspec as [Hvecs [(-> & Hheap & _) |
      (-> & t1 & v & t2 & Hvs & _ & Hh' & (h & Hheap & _) & Htr)]].
    + split; [done |]. by left.
    + split; [done |]. right. split; [done |].
      exists t1, v, t2. split; [done |].
      rewrite (source_after_move _ Hmove) in Hh'. split; [done |].
      split; [by exists h |].
      rewrite Htr. rewrite (ctor_events_move _ _ _ Hmove).
      unfold transfer_ctor. by rewrite Hmove.
Qed.

(** X14.  Every mutating member function other than [Emplace] and
    [Insert] keeps the invariant of a valid vector, whatever throws:
    called within its precondition it returns or lets an exception
    through, never fails an assertion and never runs into undefined
    behaviour, and in the state it leaves the vector is valid.  For
    [Reserve] and [Resize] the precondition is that the byte count of
    the number of elements asked for fits in a [size_t].  The second
    vector of an assignment or [Swap] stays valid too. *)
Theorem invariant_is_kept (w : World) this vs cap :
  holds w this vs cap →
  (∀ n, byte_size n < SIZE_MOD → keeps_invariant this (Reserve throws this n w)) ∧
  (∀ n, 0 ≤ n → byte_size n < SIZE_MOD →
     keeps_invariant this (Resize throws debug this n w)) ∧
  (∀ args, keeps_invariant this (EmplaceBack throws debug this args w)) ∧
  (∀ x, keeps_invariant this (PushBack throws debug this x w)) ∧
  (∀ x, keeps_invariant this (PushBack_move throws debug this x w)) ∧
  (vs ≠ [] → keeps_invariant this (PopBack debug this w)) ∧
  (∀ k, (k < length vs)%nat →
     keeps_invariant this
       ((b <- begin this ;; Erase throws debug this (b +ₚ Z.of_nat k)) w)) ∧
  (∀ rhs, invariant w rhs → separate w this rhs →
     keeps_invariant this (copy_assign throws debug this rhs w) ∧
     keeps_invariant rhs (copy_assign throws debug this rhs w)) ∧
  (∀ rhs, invariant w rhs →
     keeps_invariant this (move_assign this rhs w) ∧
     keeps_invariant rhs (move_assign this rhs w) ∧
     keeps_invariant this (Swap this rhs w) ∧
     keeps_invariant rhs (Swap this rhs w)).
Proof.
  intros Hh.
  destruct (holds_inv w this vs cap Hh) as [Hbd _].
  assert (Hinv : invariant w this) by (by exists vs, cap).
  assert (Hpush : ∀ args, keeps_invariant this (EmplaceBack throws debug this args w)).
  { intros args.
    destruct (Z.eq_dec (Z.of_nat (length vs)) cap) as [Hfull | Hspare].
    - pose proof (EmplaceBack_full_spec throws debug w this vs cap args Hh Hfull) as Hspec.
      cbv zeta in Hspec.
      destruct (EmplaceBack throws debug this args w) as [p w' | e w' | |]; try done.
      + destruct Hspec as (Hh' & _). by eexists _, _.
      + destruct Hspec as (Hvecs & [(_ & Hheap & _) | [(_ & Hheap & _) |
          (_ & t1 & v & t2 & _ & Hh' & _)]]).
        * exists vs, cap. by eapply holds_same_state.
        * exists vs, cap. eapply holds_heap_app; [exact Hh | by rewrite Hvecs | exact Hheap].
        * by eexists _, _.
    - destruct (EmplaceBack_spare_spec throws debug w this vs cap args Hh ltac:(lia))
        as (b & Hv & Hb & ->).
      assert (Hlb : (b < length (heap w))%nat) by (by eapply lookup_lt_Some).
      destruct (can_throw (ACtor args) && throws (trace w) (ACtor args)).
      + exists vs, cap. by eapply holds_same_state.
      + exists (vs ++ [built args]), cap. eapply (holds_block _ _ _ _ b).
        * cbn [vecs]. rewrite length_app. simpl. rewrite Nat2Z.inj_add. simpl.
          apply list_lookup_insert_eq. by eapply lookup_lt_Some.
        * cbn [heap]. rewrite list_lookup_insert_eq by done.
          rewrite length_app. simpl.
          by replace (Z.to_nat cap - (length vs + 1))%nat
            with (Z.to_nat cap - length vs - 1)%nat by lia.
        * rewrite length_app. simpl. lia.
        * lia. }
  split; [| split; [| split; [| split; [| split; [| split; [| split; [| split]]]]]]].
  - (* Reserve *)
    intros n Hfit. destruct (Z.le_gt_cases n cap) as [Hle | Hgt].
    + destruct Hh as (v & Hv & Hcap & Hown).
      rewrite (Reserve_enough throws w this v n Hv) by lia.
      exists vs, cap. by exists v.
    + pose proof (Reserve_grow_spec throws w this vs cap n Hh ltac:(lia) Hfit) as Hspec.
      destruct (Reserve throws this n w) as [[] w' | e w' | |]; try done.
      * destruct Hspec as (Hh' & _). by eexists _, _.
      * destruct Hspec as [Hvecs [(_ & Hheap & _) | (_ & t1 & v & t2 & _ & _ & Hh' & _)]].
        -- exists vs, cap. by eapply holds_same_state.
        -- by eexists _, _.
  - (* Resize *)
    intros n Hn Hfit. destruct (Z.lt_ge_cases n (Z.of_nat (length vs))) as [Hlt | Hge].
    + destruct (Resize_shrink_spec throws debug w this vs cap n Hh ltac:(lia))
        as (w' & v & -> & _ & Hh' & _).
      by eexists _, _.
    + pose proof (Resize_grow_spec throws debug w this vs cap n Hh Hge Hfit) as Hspec.
      destruct (Resize throws debug this n w) as [[] w' | e w' | |]; try done.
      * destruct Hspec as (Hh' & _). by eexists _, _.
      * destruct Hspec as (_ & vs' & cap' & Hh' & _). by eexists _, _.
  - exact Hpush.
  - intros x. unfold PushBack, bind. specialize (Hpush (CopyCtor x)).
    by destruct (EmplaceBack throws debug this (CopyCtor x) w).
  - intros x. unfold PushBack_move, bind. specialize (Hpush (MoveCtor x)).
    by destruct (EmplaceBack throws debug this (MoveCtor x) w).
  - (* PopBack *)
    intros Hne.
    destruct (exists_last Hne) as (front & x & ->).
    rewrite length_app in Hbd. simpl in Hbd.
    destruct (PopBack_spec debug w this front x cap Hh) as (b & Hv & ->).
    assert (Hlb : (b < length (heap w))%nat).
    { destruct Hh as (v' & Hv' & _ & _ & _ & Hbuf).
      rewrite Hv in Hv'. injection Hv' as <-. cbn [data_ buffer_ base] in Hbuf.
      destruct Hbuf as (_ & _ & Hb). by eapply lookup_lt_Some. }
    exists front, cap.
    eapply (holds_block _ _ _ _ b); cbn [heap vecs]; try lia.
    + apply list_lookup_insert_eq. by eapply lookup_lt_Some.
    + by apply list_lookup_insert_eq.
  - (* Erase *)
    intros k Hk.
    pose proof (Erase_spec throws debug w this vs cap k Hh Hk) as Hspec.
    destruct ((b <- begin this ;; Erase throws debug this (b +ₚ Z.of_nat k)) w)
      as [p w' | e w' | |]; try done.
    + destruct Hspec as (Hh' & _). by eexists _, _.
    + destruct Hspec as ((vs' & _ & Hh') & _). by eexists _, _.
  - (* copy assignment *)
    intros rhs (vs_r & cap_r & Hr) Hsep.
    destruct (decide (this = rhs)) as [<- | Hne].
    { unfold copy_assign. rewrite bool_decide_eq_true_2 by done. done. }
    destruct (Z.lt_ge_cases cap (Z.of_nat (length vs_r))) as [Hsmall | Hfit].
    + pose proof (copy_assign_realloc_spec throws debug w this rhs vs cap vs_r cap_r
                    Hne Hh Hr Hsep Hsmall) as Hspec. cbv zeta in Hspec.
      destruct (copy_assign throws debug this rhs w) as [[] w' | e w' | |]; try done.
      * destruct Hspec as (Ht' & Hr' & _). split; by eexists _, _.
      * destruct Hspec as (_ & Ht' & Hr'). split; by eexists _, _.
    + pose proof (copy_assign_in_place_spec throws debug w this rhs vs cap vs_r cap_r
                    Hne Hh Hr Hsep Hfit) as Hspec.
      destruct (copy_assign throws debug this rhs w) as [[] w' | e w' | |]; try done.
      * destruct Hspec as (Ht' & Hr' & _). split; by eexists _, _.
      * destruct Hspec as ((vs' & Ht' & _) & Hr' & _). split; by eexists _, _.
  - (* move assignment and Swap *)
    intros rhs (vs_r & cap_r & Hr).
    assert (Hswap : keeps_invariant this (Swap this rhs w) ∧
                    keeps_invariant rhs (Swap this rhs w)).
    { destruct (decide (this = rhs)) as [<- | Hne].
      - destruct Hh as (vt & Hvt & _ & Hot).
        rewrite (Swap_self w this vt Hvt) by (by eapply owns_null_is_empty).
        done.
      - pose proof Hh as (vt & Hvt & Hct & Hot).
        pose proof Hr as (vr & Hvr & Hcr & Hor).
        rewrite (Swap_spec w this rhs vt vr Hne Hvt Hvr)
          by (by eapply owns_null_is_empty).
        split.
        + exists vs_r, cap_r, vr. split; [| split; [done | by eapply owns_same_heap]].
          cbn [vecs]. rewrite list_lookup_insert_ne by done.
          apply list_lookup_insert_eq. by eapply lookup_lt_Some.
        + exists vs, cap, vt. split; [| split; [done | by eapply owns_same_heap]].
          cbn [vecs]. apply list_lookup_insert_eq. rewrite length_insert.
          by eapply lookup_lt_Some. }
    split; [| split]; [| | done].
    + unfold move_assign. case_bool_decide; [done | apply Hswap].
    + unfold move_assign. case_bool_decide; [subst; done | apply Hswap].
Qed.


(** X15.  [Emplace] on a full vector when the constructor of the new
    element is the one that throws: the exception propagates to the
    caller, the new block is released with no object in it, and the
    vector, the old block and its elements are as before. *)
Theorem Emplace_new_element_failure (w : World) this vs cap k args :
  holds w this vs cap → Z.of_nat (length vs) = cap → (k ≤ length vs)%nat →
  Z.max 1 (cap * 2) ≤ MAX_ELEMS →
  throws (trace w) (AAlloc (byte_size (Z.max 1 (cap * 2)))) = false →
  can_throw (ACtor args) = true →
  throws (trace w ++ [EvAlloc (byte_size (Z.max 1 (cap * 2))) (length (heap w))]) (ACtor args) = true →
  ∃ w',
    (b <- begin this ;; Emplace throws debug this (b +ₚ Z.of_nat k) args) w =
      Throw elem_exception w' ∧
    vecs w' = vecs w ∧ holds w' this vs cap ∧
    heap w' = heap w ++ [Freed (replicate (Z.to_nat (Z.max 1 (cap * 2))) Raw)] ∧
    trace w' = trace w ++
      [EvAlloc (byte_size (Z.max 1 (cap * 2))) (length (heap w)); EvThrow (ACtor args);
       EvDealloc (length (heap w))].
Proof.
  intros Hh Hfull Hk Hmax Halloc Hcan Hthrow.
  rewrite (Emplace_ctor_failure throws debug w this vs cap k args) by done.
  eexists. split; [reflexivity |]. cbn [heap vecs trace].
  split; [done |]. split; [| done].
  eapply holds_heap_app; [exact Hh | done | done].
Qed.

(** X16.  A [RawMemory] constructed for [n] elements and then destroyed:
    for [n = 0] it holds the null pointer and neither allocates nor
    releases anything; otherwise it asks [operator new] once, for
    [n * sizeof(T)] bytes cut to a [size_t], and releases that block in
    its destructor, and no constructor or destructor of an element runs
    in between.  The block has room for [n] objects when the byte count
    fits in a [size_t]; when it does not, the block has room for fewer
    objects than the capacity [n] that the [RawMemory] records.  The only
    exception is [bad_alloc], which leaves the heap as it was. *)
Theorem RawMemory_lifecycle (w : World) n :
  0 ≤ n →
  let bnew := length (heap w) in
  let size := size_t (byte_size n) in
  match (d <- RawMemory_new throws n ;; RawMemory_delete d ;; ret d) w with
  | Ok d w' =>
      capacity_ d = n ∧ vecs w' = vecs w ∧
      (if n =? 0 then d = RawMemory_default ∧ heap w' = heap w ∧ trace w' = trace w
       else buffer_ d = Ptr (Some bnew) 0 ∧
            heap w' = heap w ++ [Freed (replicate (Z.to_nat (size / sizeof_T)) Raw)] ∧
            trace w' = trace w ++ [EvAlloc size bnew; EvDealloc bnew] ∧
            (byte_size n < SIZE_MOD → size = byte_size n ∧ size / sizeof_T = n) ∧
            (SIZE_MOD ≤ byte_size n → size / sizeof_T < n))
  | Throw e w' =>
      e = bad_alloc ∧ 0 < n ∧ heap w' = heap w ∧ vecs w' = vecs w ∧
      trace w' = trace w ++ [EvThrow (AAlloc size)] ∧
      (PTRDIFF_MAX < size ∨ throws (trace w) (AAlloc size) = true)
  | _ => False
  end.
Proof.
  intros Hn bnew size.
  destruct (Z.eq_dec n 0) as [-> | Hne].
  - unfold bind. rewrite RawMemory_new_zero.
    unfold RawMemory_default at 1. rewrite RawMemory_delete_null. by simpl.
  - rewrite (proj2 (Z.eqb_neq _ _)) by done.
    unfold bind at 1. rewrite RawMemory_new_any by done. fold size.
    destruct (PTRDIFF_MAX <? size) eqn:Emax.
    { simpl. apply Z.ltb_lt in Emax. repeat split; try done; try lia. }
    destruct (throws (trace w) (AAlloc size)) eqn:Ealloc.
    { simpl. repeat split; try done; try lia. }
    simpl orb. cbv iota. fold bnew. unfold bind at 1.
    erewrite RawMemory_delete_block
      by (cbn [heap]; apply (list_lookup_middle _ [] _ bnew eq_refl)).
    unfold ret. cbn [heap vecs trace capacity_ buffer_].
    split; [done |]. split; [done |]. split; [done |].
    split; [| split; [| split]].
    + subst bnew. rewrite (insert_app_r_alt _ _ (length (heap w))) by lia.
      by rewrite Nat.sub_diag.
    + by rewrite <- app_assoc.
    + intros Hfit.
      assert (Hsize : size = byte_size n)
        by (apply size_t_id; split; [apply byte_size_nonneg; lia | done]).
      split; [done |]. rewrite Hsize. apply byte_size_cells.
    + intros Hcut. pose proof sizeof_T_bounds as [Hpos _].
      apply Z.div_lt_upper_bound; [done |].
      assert (size < SIZE_MOD) by (apply Z.mod_pos_bound; by vm_compute).
      unfold byte_size in Hcut. lia.
Qed.

(** X23.  [Reserve] beyond the capacity when the byte count
    [n * sizeof(T)] does not fit in a [size_t]: the block that
    [operator new] is asked for is too small for [n] objects, and nothing
    in [Reserve] notices.  A run that returns has recorded the capacity
    [n] over a block with fewer cells, so that the vector is no longer
    valid; a run that throws leaves the vector object as it was; a run
    is undefined only when the block is too small even for the elements
    there are. *)
Theorem Reserve_cut_byte_count (w : World) this vs cap n :
  holds w this vs cap → cap < n → SIZE_MOD ≤ byte_size n →
  let cells := size_t (byte_size n) / sizeof_T in
  cells < n ∧
  match Reserve throws this n w with
  | Ok _ w' =>
      Z.of_nat (length vs) ≤ cells ∧
      (∃ v', vecs w' !! this = Some v' ∧
             data_ v' = {| buffer_ := Ptr (Some (length (heap w))) 0;
                           capacity_ := n |} ∧
             heap w' !! length (heap w) =
               Some (Block ((Live <$> vs) ++
                            replicate (Z.to_nat cells - length vs) Raw))) ∧
      ¬ invariant w' this
  | Throw e w' => vecs w' = vecs w
  | Undefined => cells < Z.of_nat (length vs)
  | AssertFail => False
  end.
Proof.
  intros Hh Hn Hcut cells.
  pose proof sizeof_T_bounds as [Hpos _].
  assert (Hsize : 0 ≤ size_t (byte_size n) < SIZE_MOD)
    by (apply Z.mod_pos_bound; by vm_compute).
  assert (Hcells : 0 ≤ cells < n).
  { split; [apply Z.div_pos; lia |].
    apply Z.div_lt_upper_bound; [done |]. unfold byte_size in Hcut. lia. }
  split; [lia |].
  destruct (le_lt_dec (length vs) (Z.to_nat cells)) as [Hroom | Hshort].
  - pose proof (Reserve_grow_any throws w this vs cap n Hh Hn Hroom) as Hspec.
    cbv zeta in Hspec. fold cells in Hspec.
    destruct (Reserve throws this n w) as [[] w' | e w' | |]; try done.
    + destruct Hspec as (_ & _ & v & Hv & Hvecs & Hheap & _).
      split; [lia |]. split.
      * eexists. split.
        { rewrite Hvecs. apply list_lookup_insert_eq. by eapply lookup_lt_Some. }
        split; [reflexivity | exact Hheap].
      * intros (vs' & cap' & v' & Hv' & _ & _ & Hbd & _).
        rewrite Hvecs in Hv'.
        rewrite list_lookup_insert_eq in Hv' by (by eapply lookup_lt_Some).
        injection Hv' as <-. cbn [data_ capacity_] in Hbd.
        pose proof (proj1 (MAX_ELEMS_spec n) (proj2 Hbd)) as Hfit.
        assert (PTRDIFF_MAX < SIZE_MOD) by (by vm_compute). lia.
    + by destruct Hspec as [Hvecs _].
  - pose proof (Reserve_short_block throws w this vs cap n Hh Hn Hshort) as Hspec.
    cbv zeta in Hspec.
    destruct (Reserve throws this n w) as [[] w' | e w' | |]; try done; [| lia].
    by destruct Hspec as [Hvecs _].
Qed.

(** ** When nothing throws *)

Section QuietContracts.

Hypothesis never_throws : ∀ tr a, throws tr a = false.

(** [Emplace] on each of its three paths: a full vector, an empty one
    with a block, and one with spare capacity whose element type has
    implicit lifetime. *)
Lemma Emplace_quiet (w : World) this vs cap k args :
  holds w this vs cap → (k ≤ length vs)%nat →
  Z.of_nat (length vs) = cap ∨ vs = [] ∨
    (is_implicit_lifetime = true ∧ (k < length vs)%nat) →
  Z.max 1 (cap * 2) ≤ MAX_ELEMS →
  match (b <- begin this ;; Emplace throws debug this (b +ₚ Z.of_nat k) args) w with
  | Ok p w' =>
      holds w' this (take k vs ++ built args :: drop k vs)
        (if Z.of_nat (length vs) =? cap then Z.max 1 (cap * 2) else cap) ∧
      ∃ v', vecs w' !! this = Some v' ∧ p = buffer_ (data_ v') +ₚ Z.of_nat k
  | _ => False
  end.
Proof.
  intros Hh Hk Hcase Hmax.
  destruct (holds_inv w this vs cap Hh) as [Hbd _].
  destruct (Z.eq_dec (Z.of_nat (length vs)) cap) as [Hfull | Hspare].
  - rewrite (proj2 (Z.eqb_eq _ _)) by done.
    by apply Emplace_full_ok.
  - rewrite (proj2 (Z.eqb_neq _ _)) by done.
    destruct Hcase as [? | [-> | [Himp Hlt]]]; [done | |].
    + simpl in Hk. assert (k = 0%nat) as -> by lia. simpl in *.
      apply Emplace_empty_ok; [done | done | lia].
    + destruct (lookup_lt_is_Some_2 vs (length vs - 1)) as [lst Hlst]; [lia |].
      assert (Hsplit : vs = take k vs ++ drop k (take (length vs - 1) vs) ++ [lst]).
      { rewrite <- (take_drop k vs) at 1. f_equal.
        rewrite <- (take_drop_middle _ _ _ Hlst) at 1.
        rewrite drop_app_le by (rewrite length_take; lia).
        f_equal. replace (S (length vs - 1)) with (length vs) by lia.
        by rewrite drop_all. }
      assert (Hk' : length (take k vs) = k) by (rewrite length_take; lia).
      pose proof (Emplace_spare_core throws debug never_throws w this (take k vs)
                    (drop k (take (length vs - 1) vs)) lst cap args Himp) as Hcore.
      rewrite <- Hsplit, Hk' in Hcore. specialize (Hcore Hh ltac:(lia)).
      destruct ((b <- begin this ;; Emplace throws debug this (b +ₚ Z.of_nat k) args) w)
        as [p w' | | |]; try done.
      destruct Hcore as (Hh' & Hp & _). split; [| done].
      replace (drop k vs) with (drop k (take (length vs - 1) vs) ++ [lst]); [done |].
      rewrite Hsplit at 3. rewrite drop_app_length'; done.
Qed.

(** X17.  [PushBack] of the elements of a list, one after the other, on
    an empty vector that owns no block: the vector ends up holding them
    in the order of insertion, and its capacity is the power of two that
    is at least its size and less than twice its size. *)
Theorem PushBack_keeps_insertion_order (w : World) this xs :
  holds w this [] 0 →
  2 * Z.of_nat (length xs) ≤ MAX_ELEMS →
  ∃ w' cap',
    foldr (λ x k, PushBack throws debug this x ;; k) (ret tt) xs w = Ok tt w' ∧
    holds w' this xs cap' ∧
    ((xs = [] ∧ cap' = 0) ∨
     (∃ e, 0 ≤ e ∧ cap' = 2 ^ e ∧
           Z.of_nat (length xs) ≤ cap' < 2 * Z.of_nat (length xs))).
Proof.
  intros Hh Hmax.
  apply (PushBack_each throws debug never_throws xs w this [] 0 Hh); [by left | done].
Qed.

(** X18.  [PushBack] followed by [PopBack] gives the elements back as
    they were; the capacity is the old one if there was room and the
    doubled one if the vector was full. *)
Theorem PushBack_then_PopBack (w : World) this vs cap x :
  holds w this vs cap →
  (Z.of_nat (length vs) = cap → Z.max 1 (cap * 2) ≤ MAX_ELEMS) →
  ∃ w', (PushBack throws debug this x ;; PopBack debug this) w = Ok tt w' ∧
        holds w' this vs
          (if Z.of_nat (length vs) =? cap then Z.max 1 (cap * 2) else cap).
Proof.
  intros Hh Hmax.
  pose proof (EmplaceBack_quiet throws debug never_throws w this vs cap (CopyCtor x)
                Hh Hmax) as Hpush.
  unfold bind at 1. unfold PushBack, bind.
  destruct (EmplaceBack throws debug this (CopyCtor x) w) as [p w1 | | |]; try done.
  destruct Hpush as [Hh1 _]. cbn [built] in Hh1. unfold ret.
  set (cap' := if Z.of_nat (length vs) =? cap then _ else _) in *.
  destruct (holds_inv w1 this _ cap' Hh1) as [Hbd1 _].
  rewrite length_app in Hbd1. simpl in Hbd1.
  destruct (PopBack_spec debug w1 this vs x cap' Hh1) as (b & Hv & ->).
  assert (Hlb : (b < length (heap w1))%nat).
  { destruct Hh1 as (v' & Hv' & _ & _ & _ & Hbuf).
    rewrite Hv in Hv'. injection Hv' as <-. cbn [data_ buffer_ base] in Hbuf.
    destruct Hbuf as (_ & _ & Hb). by eapply lookup_lt_Some. }
  eexists. split; [reflexivity |].
  eapply (holds_block _ _ _ _ b); cbn [heap vecs]; try lia.
  - apply list_lookup_insert_eq. by eapply lookup_lt_Some.
  - by apply list_lookup_insert_eq.
Qed.

(** X19.  [Emplace] when the vector is full, when it is empty, or when it
    has spare capacity, the element type has implicit lifetime and the
    position is in front of [end()]: the new element stands at the
    position given, the former elements keep their order around it, the
    iterator returned is that position, and the capacity is doubled if
    the vector was full and unchanged otherwise. *)
Theorem Emplace_inserts_at_position (w : World) this vs cap k args :
  holds w this vs cap → (k ≤ length vs)%nat →
  Z.of_nat (length vs) = cap ∨ vs = [] ∨
    (is_implicit_lifetime = true ∧ (k < length vs)%nat) →
  Z.max 1 (cap * 2) ≤ MAX_ELEMS →
  match (b <- begin this ;; Emplace throws debug this (b +ₚ Z.of_nat k) args) w with
  | Ok p w' =>
      holds w' this (take k vs ++ built args :: drop k vs)
        (if Z.of_nat (length vs) =? cap then Z.max 1 (cap * 2) else cap) ∧
      (∃ v', vecs w' !! this = Some v' ∧ p = buffer_ (data_ v') +ₚ Z.of_nat k) ∧
      load p w' = Ok (built args) w'
  | _ => False
  end.
Proof.
  intros Hh Hk Hcase Hmax.
  pose proof (Emplace_quiet w this vs cap k args Hh Hk Hcase Hmax) as Hspec.
  destruct ((b <- begin this ;; Emplace throws debug this (b +ₚ Z.of_nat k) args) w)
    as [p w' | | |]; try done.
  destruct Hspec as (Hh' & v' & Hv' & ->). split; [done |]. split; [by exists v' |].
  assert (Hx : (take k vs ++ built args :: drop k vs) !! k = Some (built args)).
  { apply list_lookup_middle. rewrite length_take. lia. }
  destruct (index_spec debug _ _ _ _ _ _ Hh' Hx) as (v & Hv & _ & Hload).
  rewrite Hv' in Hv. by injection Hv as <-.
Qed.

(** X20.  [Emplace] at [end()] of a vector that is neither empty nor full
    is undefined behaviour for every element type: for a class type the
    last element is move-assigned to a raw slot, and for a type with
    implicit lifetime the range handed to [std::move_backward] or
    [std::copy_backward] ends in front of its start. *)
Theorem Emplace_at_end_with_spare_capacity (w : World) this vs cap args :
  holds w this vs cap → (0 < length vs)%nat → Z.of_nat (length vs) < cap →
  (e <- end_ debug this ;; Emplace throws debug this e args) w = Undefined.
Proof. by apply Emplace_spare_end_undefined. Qed.

(** X21.  [Insert] followed by [Erase] at the iterator that [Insert]
    returned gives the former elements back, when the vector was full or
    empty, or had spare capacity with an element type of implicit
    lifetime and a position in front of [end()]. *)
Theorem Insert_then_Erase_round_trip (w : World) this vs cap k x :
  holds w this vs cap → (k ≤ length vs)%nat →
  Z.of_nat (length vs) = cap ∨ vs = [] ∨
    (is_implicit_lifetime = true ∧ (k < length vs)%nat) →
  Z.max 1 (cap * 2) ≤ MAX_ELEMS →
  match (b <- begin this ;;
         p <- Insert throws debug this (b +ₚ Z.of_nat k) x ;;
         Erase throws debug this p) w with
  | Ok _ w' =>
      holds w' this vs
        (if Z.of_nat (length vs) =? cap then Z.max 1 (cap * 2) else cap)
  | _ => False
  end.
Proof.
  intros Hh Hk Hcase Hmax.
  pose proof (Emplace_quiet w this vs cap k (CopyCtor x) Hh Hk Hcase Hmax) as Hins.
  unfold Insert. unfold bind at 1. unfold bind at 1 in Hins.
  destruct (begin this w) as [b w0 | | |]; try done.
  unfold bind at 1.
  destruct (Emplace throws debug this (b +ₚ Z.of_nat k) (CopyCtor x) w0)
    as [p w1 | | |]; try done.
  destruct Hins as (Hh1 & v' & Hv' & ->). cbn [built] in Hh1.
  set (cap' := if Z.of_nat (length vs) =? cap then _ else _) in *.
  pose proof (Erase_spec throws debug w1 this _ cap' k Hh1) as Hera.
  specialize (Hera ltac:(rewrite length_app, length_take; simpl; lia)).
  unfold bind at 1 in Hera. rewrite (begin_spec _ _ _ Hv') in Hera.
  destruct (Erase throws debug this _ w1) as [q w2 | e w2 | |] eqn:E; try done.
  - destruct Hera as (Hh2 & _).
    assert (Htake : length (take k vs) = k) by (rewrite length_take; lia).
    rewrite take_app_length' in Hh2 by done.
    replace (S k) with (length (take k vs) + 1)%nat in Hh2 by lia.
    rewrite drop_app_add in Hh2. simpl in Hh2. rewrite drop_0 in Hh2.
    by rewrite take_drop in Hh2.
  - (* no assignment throws *)
    pose proof (Erase_ok throws debug never_throws w1 this _ cap' k Hh1
                  ltac:(rewrite length_app, length_take; simpl; lia)) as Hok.
    unfold bind at 1 in Hok. rewrite (begin_spec _ _ _ Hv') in Hok.
    by rewrite E in Hok.
Qed.

(** X22.  [Resize] to a larger size and then back to the old size gives
    the former elements back, in a block that is large enough for the
    larger size. *)
Theorem Resize_up_and_back (w : World) this vs cap n :
  holds w this vs cap → Z.of_nat (length vs) ≤ n ≤ MAX_ELEMS →
  ∃ w', (Resize throws debug this n ;;
         Resize throws debug this (Z.of_nat (length vs))) w = Ok tt w' ∧
        holds w' this vs (Z.max cap n).
Proof.
  intros Hh Hn.
  destruct (holds_inv w this vs cap Hh) as [Hbd _].
  assert (Hfit : byte_size n < SIZE_MOD) by solve_fits.
  assert (Hfit0 : byte_size (Z.of_nat (length vs)) < SIZE_MOD) by solve_fits.
  pose proof (Resize_grow_spec throws debug w this vs cap n Hh ltac:(lia) Hfit) as Hup.
  unfold bind.
  destruct (Resize throws debug this n w) as [[] w1 | e w1 | |]; try done; cycle 1.
  { destruct Hup as ([? | (tr & a & Ha)] & _); [lia |]. by rewrite never_throws in Ha. }
  destruct Hup as (Hh1 & _).
  set (vs1 := vs ++ replicate (Z.to_nat (n - Z.of_nat (length vs))) value_init) in *.
  destruct (Z.eq_dec n (Z.of_nat (length vs))) as [-> | Hne].
  - (* the size does not change *)
    assert (vs1 = vs) as Heq.
    { subst vs1. rewrite Z.sub_diag. simpl. by rewrite app_nil_r. }
    rewrite Heq in Hh1.
    pose proof (Resize_grow_spec throws debug w1 this vs (Z.max cap (Z.of_nat (length vs)))
                  (Z.of_nat (length vs)) Hh1 ltac:(lia) Hfit0) as Hagain.
    destruct (Resize throws debug this _ w1) as [[] w2 | e w2 | |]; try done; cycle 1.
    { destruct Hagain as ([? | (tr & a & Ha)] & _); [lia |]. by rewrite never_throws in Ha. }
    destruct Hagain as (Hh2 & _). exists w2. split; [done |].
    rewrite Z.sub_diag in Hh2. simpl in Hh2. rewrite app_nil_r in Hh2.
    by replace (Z.max (Z.max cap (Z.of_nat (length vs))) (Z.of_nat (length vs)))
      with (Z.max cap (Z.of_nat (length vs))) in Hh2 by lia.
  - destruct (Resize_shrink_spec throws debug w1 this vs1 (Z.max cap n)
                (Z.of_nat (length vs)) Hh1) as (w2 & v & -> & _ & Hh2 & _).
    { subst vs1. rewrite length_app, length_replicate. lia. }
    exists w2. split; [done |].
    rewrite Nat2Z.id in Hh2. subst vs1.
    by rewrite take_app_length in Hh2.
Qed.

End QuietContracts.

End Contracts.


(** * Instances for the other member functions *)

Lemma two_vectors_separate : separate two_vectors 0 1.
Proof.
  intros va vb Ha Hb. vm_compute in Ha, Hb.
  injection Ha as <-. injection Hb as <-. simpl. discriminate.
Qed.

Lemma Vector_sized_contract_witness :
  ∃ w', Vector_sized (H := int_traits) never 2 one_empty = Ok 1%nat w' ∧
        holds (H := int_traits) w' 1 [0; 0] 2 ∧
        holds (H := int_traits) w' 0 [] 0.
Proof.
  pose proof (Vector_sized_contract (H := int_traits) never one_empty 2
                ltac:(lia) ltac:(by vm_compute)) as Hthm.
  cbv zeta in Hthm.
  destruct (Vector_sized _ _ _) as [this w' | e w' | |] eqn:E; vm_compute in E; try done.
  injection E as <- <-.
  destruct Hthm as (_ & Hh & Hothers & _).
  eexists. split; [reflexivity |]. split; [exact Hh |].
  apply Hothers, one_empty_holds.
Defined.

Lemma Vector_copy_contract_witness :
  ∃ w', Vector_copy (H := int_traits) never 0 full3 = Ok 1%nat w' ∧
        holds (H := int_traits) w' 1 [1; 2; 3] 3 ∧
        holds (H := int_traits) w' 0 [1; 2; 3] 3 ∧ separate w' 1 0.
Proof.
  pose proof (Vector_copy_contract (H := int_traits) never full3 0 [1; 2; 3] 3
                full3_holds) as Hthm.
  cbv zeta in Hthm.
  destruct (Vector_copy _ _ _) as [this w' | e w' | |] eqn:E; vm_compute in E; try done.
  injection E as <- <-.
  destruct Hthm as (_ & Hh & Hothers & Hsep & _).
  eexists. split; [reflexivity |]. split; [exact Hh |].
  split; [apply Hothers, full3_holds | exact Hsep].
Defined.

Lemma Vector_destroy_contract_witness :
  ∃ w', Vector_destroy 0 full3 = Ok tt w' ∧
        heap w' !! 0%nat = Some (Freed [Raw; Raw; Raw]) ∧
        trace w' = [EvDtor (Ptr (Some 0%nat) 0); EvDtor (Ptr (Some 0%nat) 1);
                    EvDtor (Ptr (Some 0%nat) 2); EvDealloc 0].
Proof.
  destruct (Vector_destroy_contract (H := int_traits) full3 0 [1; 2; 3] 3 full3_holds)
    as (v & w' & Hv & Hrun & _ & Htr & Hheap).
  vm_compute in Hv. injection Hv as <-. simpl in Hheap, Htr.
  exists w'. split; [exact Hrun |]. split; [exact (proj1 Hheap) | exact Htr].
Defined.

Lemma copy_assign_contract_witness :
  ∃ w', copy_assign (H := int_traits) never true 0 1 two_vectors = Ok tt w' ∧
        holds (H := int_traits) w' 0 [1; 2] 2 ∧
        holds (H := int_traits) w' 1 [1; 2] 2.
Proof.
  pose proof (copy_assign_contract (H := int_traits) never true two_vectors 0 1
                [7] 1 [1; 2] 2 ltac:(lia) (proj1 two_vectors_holds)
                (proj2 two_vectors_holds) two_vectors_separate) as Hthm.
  destruct (copy_assign _ _ _ _ _) as [[] w' | e w' | |] eqn:E; vm_compute in E; try done.
  destruct Hthm as (Ht & Hr & _).
  exists w'. split; [reflexivity |]. split; [exact Ht | exact Hr].
Defined.

Lemma PopBack_removes_last_witness :
  ∃ w', PopBack true 0 full3 = Ok tt w' ∧ holds (H := int_traits) w' 0 [1; 2] 3 ∧
        trace w' = [EvDtor (Ptr (Some 0%nat) 2)].
Proof.
  destruct (PopBack_removes_last true full3 0 [1; 2] 3 3 full3_holds)
    as (v & w' & Hv & Hrun & Hh & _ & _ & Htr).
  vm_compute in Hv. injection Hv as <-.
  exists w'. split; [exact Hrun |]. split; [exact Hh | exact Htr].
Defined.

Lemma EmplaceBack_with_spare_capacity_witness :
  ∃ p w', EmplaceBack (H := int_traits) never true 0 (ArgsCtor 9) spare1 = Ok p w' ∧
          holds (H := int_traits) w' 0 [1; 9] 2 ∧ load p w' = Ok 9 w' ∧
          length (heap w') = 1%nat.
Proof.
  destruct (EmplaceBack_with_spare_capacity (H := int_traits) never true spare1 0 [1] 2
              (ArgsCtor 9) spare1_holds ltac:(simpl; lia)) as (v & Hv & Hthm).
  destruct (EmplaceBack _ _ _ _ _) as [p w' | e w' | |] eqn:E; vm_compute in E; try done.
  destruct Hthm as (Hh & _ & _ & Hload & Hlen & _).
  exists p, w'. split; [reflexivity |]. split; [exact Hh |]. split; [exact Hload | exact Hlen].
Defined.

Lemma EmplaceBack_at_capacity_contract_witness :
  ∃ w', EmplaceBack (H := thrower_traits) (copy_throws_at 1) true 0 (CopyCtor 9) full2
          = Throw elem_exception w' ∧
        holds (H := thrower_traits) w' 0 [1; 2] 2 ∧
        heap w' = [Block [Live 1; Live 2]; Freed [Raw; Raw; Live 9; Raw]].
Proof.
  pose proof (EmplaceBack_at_capacity_contract (H := thrower_traits) (copy_throws_at 1)
                true full2 0 [1; 2] 2 (CopyCtor 9) full2_holds eq_refl eq_refl) as Hthm.
  cbv zeta in Hthm.
  destruct (EmplaceBack _ _ _ _ _) as [p w' | e w' | |] eqn:E; vm_compute in E; try done.
  injection E as <- <-.
  destruct Hthm as (_ & Hh & _).
  eexists. split; [reflexivity |]. split; [exact Hh | reflexivity].
Defined.

Lemma Erase_contract_witness :
  ∃ p w', (b <- begin 0 ;; Erase (H := int_traits) never true 0 (b +ₚ 1)) full3
            = Ok p w' ∧
          holds (H := int_traits) w' 0 [1; 3] 3 ∧ p = Ptr (Some 0%nat) 1.
Proof.
  destruct (Erase_contract (H := int_traits) never true full3 0 [1; 2; 3] 3 1
              full3_holds ltac:(simpl; lia)) as (v & Hv & Hthm).
  destruct (bind _ _ full3) as [p w' | e w' | |] eqn:E; vm_compute in E; try done.
  injection E as <- <-.
  destruct Hthm as (Hh & _ & _).
  eexists _, _. split; [reflexivity |]. split; [exact Hh | reflexivity].
Defined.

Lemma Erase_at_end_is_undefined_witness :
  (e <- end_ true 0 ;; Erase (H := int_traits) never true 0 e) full3 = Undefined ∧
  (e <- end_ true 0 ;; Erase (H := int_traits) never true 0 e) one_empty = Undefined.
Proof.
  split.
  - exact (Erase_at_end_is_undefined (H := int_traits) never true full3 0 [1; 2; 3] 3
             full3_holds).
  - exact (Erase_at_end_is_undefined (H := int_traits) never true one_empty 0 [] 0
             one_empty_holds).
Defined.

Lemma element_access_witness :
  Size 0 full3 = Ok 3 full3 ∧
  ∃ p, index true 0 1 full3 = Ok p full3 ∧ load p full3 = Ok 2 full3.
Proof.
  destruct (element_access true full3 0 [1; 2; 3] 3 full3_holds)
    as (v & Hv & Hsize & _ & _ & _ & Hidx).
  split; [exact Hsize |].
  destruct (Hidx 1%nat 2 eq_refl) as [Hi Hl].
  eexists. split; [exact Hi | exact Hl].
Defined.

Lemma Swap_is_an_involution_witness :
  Swap 0 0 two_vectors = Ok tt two_vectors ∧
  (Swap 0 1 ;; Swap 0 1) two_vectors = Ok tt two_vectors.
Proof.
  destruct (Swap_is_an_involution two_vectors 0 1 [7] 1 [1; 2] 2
              (proj1 two_vectors_holds) (proj2 two_vectors_holds)) as [Hself Htwice].
  split; [exact Hself | apply Htwice; lia].
Defined.

Lemma Reserve_with_noexcept_move_witness :
  ∃ w', Reserve (H := int_traits) never 0 10 full3 = Ok tt w' ∧
        holds (H := int_traits) w' 0 [1; 2; 3] 10.
Proof.
  pose proof (Reserve_with_noexcept_move (H := int_traits) never full3 0 [1; 2; 3] 3 10
                eq_refl full3_holds ltac:(lia) ltac:(by vm_compute)) as Hthm.
  destruct (Reserve _ _ _ _) as [[] w' | e w' | |] eqn:E; vm_compute in E; try done.
  exists w'. split; [reflexivity | exact (proj1 Hthm)].
Defined.

Lemma Reserve_by_throwing_move_witness :
  ∃ w', Reserve (H := move_only_traits) (move_throws_on (Z.eqb 2)) 0 10 full3
          = Throw elem_exception w' ∧
        holds (H := move_only_traits) w' 0 [0; 2; 3] 3.
Proof.
  pose proof (Reserve_by_throwing_move (H := move_only_traits) (move_throws_on (Z.eqb 2))
                full3 0 [1; 2; 3] 3 10 eq_refl full3_holds ltac:(lia)
                ltac:(by vm_compute)) as Hthm.
  destruct (Reserve _ _ _ _) as [[] w' | e w' | |] eqn:E; vm_compute in E; try done.
  injection E as <- <-.
  destruct Hthm as (_ & [(? & _) | (_ & t1 & v & t2 & Hvs & Hh & _)]); [done |].
  eexists. split; [reflexivity |].
  destruct t1 as [|a [|b [|c t1]]]; simplify_eq/=;
    first [ exact Hh
          | exfalso; destruct Hh as (v0 & Hv0 & _ & _ & _ & Hbuf);
            vm_compute in Hv0; injection Hv0 as <-; vm_compute in Hbuf;
            destruct Hbuf as (_ & _ & Hb); discriminate Hb
          | by destruct t1 ].
Defined.

Lemma invariant_is_kept_witness :
  keeps_invariant (H := thrower_traits) 0
    (PushBack (H := thrower_traits) (copy_throws_at 1) true 0 9 full3) ∧
  keeps_invariant (H := thrower_traits) 0 (PopBack (T := Z) true 0 full3) ∧
  keeps_invariant (H := thrower_traits) 0
    (copy_assign (H := thrower_traits) (copy_throws_at 1) true 0 1 two_vectors).
Proof.
  destruct (invariant_is_kept (H := thrower_traits) (copy_throws_at 1) true full3 0
              [1; 2; 3] 3 full3_holds) as (_ & _ & _ & Hpush & _ & Hpop & _).
  destruct (invariant_is_kept (H := thrower_traits) (copy_throws_at 1) true two_vectors 0
              [7] 1 (proj1 two_vectors_holds)) as (_ & _ & _ & _ & _ & _ & _ & Hcopy & _).
  split; [apply Hpush |]. split; [by apply Hpop |].
  apply (Hcopy 1%nat); [| exact two_vectors_separate].
  exists [1; 2], 2. exact (proj2 two_vectors_holds).
Defined.

Lemma PushBack_keeps_insertion_order_witness :
  ∃ w' cap',
    foldr (λ x k, PushBack (H := int_traits) never true 0 x ;; k) (ret tt) [1; 2; 3]
      one_empty = Ok tt w' ∧
    holds (H := int_traits) w' 0 [1; 2; 3] cap'.
Proof.
  destruct (PushBack_keeps_insertion_order (H := int_traits) never true never_is_quiet
              one_empty 0 [1; 2; 3] one_empty_holds ltac:(by vm_compute))
    as (w' & cap' & Hrun & Hh & _).
  exists w', cap'. split; [exact Hrun | exact Hh].
Defined.

Lemma PushBack_then_PopBack_witness :
  ∃ w', (PushBack (H := int_traits) never true 0 9 ;; PopBack true 0) full3 = Ok tt w' ∧
        holds (H := int_traits) w' 0 [1; 2; 3] 6.
Proof.
  destruct (PushBack_then_PopBack (H := int_traits) never true never_is_quiet
              full3 0 [1; 2; 3] 3 9 full3_holds ltac:(intros _; by vm_compute))
    as (w' & Hrun & Hh).
  exists w'. split; [exact Hrun | exact Hh].
Defined.

Lemma Emplace_inserts_at_position_witness :
  ∃ p w',
    (b <- begin 0 ;; Emplace (H := int_traits) never true 0 (b +ₚ 0) (ArgsCtor 99)) spare1
      = Ok p w' ∧
    holds (H := int_traits) w' 0 [99; 1] 2 ∧ load p w' = Ok 99 w'.
Proof.
  pose proof (Emplace_inserts_at_position (H := int_traits) never true never_is_quiet
                spare1 0 [1] 2 0 (ArgsCtor 99) spare1_holds ltac:(simpl; lia)
                ltac:(right; right; split; [reflexivity | simpl; lia])
                ltac:(by vm_compute)) as Hthm.
  destruct (bind _ _ spare1) as [p w' | e w' | |] eqn:E; vm_compute in E; try done.
  destruct Hthm as (Hh & _ & Hload).
  exists p, w'. split; [reflexivity |]. split; [exact Hh | exact Hload].
Defined.

Lemma Emplace_at_end_with_spare_capacity_witness :
  (e <- end_ true 0 ;; Emplace (H := int_traits) never true 0 e (ArgsCtor 99)) spare1
    = Undefined.
Proof.
  exact (Emplace_at_end_with_spare_capacity (H := int_traits) never true never_is_quiet
           spare1 0 [1] 2 (ArgsCtor 99) spare1_holds ltac:(simpl; lia) ltac:(simpl; lia)).
Defined.

Lemma Insert_then_Erase_round_trip_witness :
  (∃ q w', (b <- begin 0 ;;
            p <- Insert (H := int_traits) never true 0 (b +ₚ 1) 99 ;;
            Erase (H := int_traits) never true 0 p) full3 = Ok q w' ∧
           holds (H := int_traits) w' 0 [1; 2; 3] 6) ∧
  (∃ q w', (b <- begin 0 ;;
            p <- Insert (H := int_traits) never true 0 (b +ₚ 0) 99 ;;
            Erase (H := int_traits) never true 0 p) spare1 = Ok q w' ∧
           holds (H := int_traits) w' 0 [1] 2).
Proof.
  split.
  - pose proof (Insert_then_Erase_round_trip (H := int_traits) never true never_is_quiet
                  full3 0 [1; 2; 3] 3 1 99 full3_holds ltac:(simpl; lia)
                  ltac:(by left) ltac:(by vm_compute)) as Hthm.
    destruct (bind _ _ full3) as [q w' | e w' | |] eqn:E; vm_compute in E; try done.
    exists q, w'. split; [reflexivity | exact Hthm].
  - pose proof (Insert_then_Erase_round_trip (H := int_traits) never true never_is_quiet
                  spare1 0 [1] 2 0 99 spare1_holds ltac:(simpl; lia)
                  ltac:(right; right; split; [reflexivity | simpl; lia])
                  ltac:(by vm_compute)) as Hthm.
    destruct (bind _ _ spare1) as [q w' | e w' | |] eqn:E; vm_compute in E; try done.
    exists q, w'. split; [reflexivity | exact Hthm].
Defined.

Lemma Resize_up_and_back_witness :
  ∃ w', (Resize (H := int_traits) never true 0 5 ;;
         Resize (H := int_traits) never true 0 3) full3 = Ok tt w' ∧
        holds (H := int_traits) w' 0 [1; 2; 3] 5.
Proof.
  destruct (Resize_up_and_back (H := int_traits) never true never_is_quiet
              full3 0 [1; 2; 3] 3 5 full3_holds ltac:(split; by vm_compute))
    as (w' & Hrun & Hh).
  exists w'. split; [exact Hrun | exact Hh].
Defined.

Lemma Emplace_new_element_failure_witness :
  ∃ w', (b <- begin 0 ;;
         Emplace (H := thrower_traits) (copy_throws_at 0) true 0 (b +ₚ 1) (CopyCtor 99))
          full2 = Throw elem_exception w' ∧
        holds (H := thrower_traits) w' 0 [1; 2] 2 ∧
        heap w' = [Block [Live 1; Live 2]; Freed [Raw; Raw; Raw; Raw]].
Proof.
  destruct (Emplace_new_element_failure (H := thrower_traits) (copy_throws_at 0) true
              full2 0 [1; 2] 2 1 (CopyCtor 99) full2_holds eq_refl ltac:(simpl; lia)
              ltac:(by vm_compute) eq_refl eq_refl eq_refl)
    as (w' & Hrun & _ & Hh & Hheap & _).
  exists w'. split; [exact Hrun |]. split; [exact Hh | exact Hheap].
Defined.

Lemma RawMemory_lifecycle_witness :
  ∃ d w', (d <- RawMemory_new (H := int_traits) never 3 ;;
           RawMemory_delete d ;; ret d) empty_world = Ok d w' ∧
          capacity_ d = 3 ∧ heap w' = [Freed [Raw; Raw; Raw]] ∧
          trace w' = [EvAlloc 12 0; EvDealloc 0].
Proof.
  pose proof (RawMemory_lifecycle (H := int_traits) never empty_world 3 ltac:(lia))
    as Hthm.
  cbv zeta in Hthm.
  destruct (bind _ _ empty_world) as [d w' | e w' | |] eqn:E; vm_compute in E; try done.
  injection E as <- <-.
  destruct Hthm as (Hcap & _ & Hrest).
  change (3 =? 0) with false in Hrest. cbv iota in Hrest.
  destruct Hrest as (_ & Hheap & Htr & _).
  eexists _, _. split; [reflexivity |]. split; [exact Hcap |].
  split; [exact Hheap | exact Htr].
Defined.

Lemma Reserve_cut_byte_count_witness :
  ∃ w', Reserve (H := int_traits) never 0 (2 ^ 62 + 1) one_empty = Ok tt w' ∧
        vecs w' = [{| data_ := {| buffer_ := Ptr (Some 0%nat) 0;
                                  capacity_ := 2 ^ 62 + 1 |};
                      size_ := 0 |}] ∧
        heap w' = [Block [Raw]] ∧
        ¬ invariant (H := int_traits) w' 0.
Proof.
  destruct (Reserve_cut_byte_count (H := int_traits) never one_empty 0 [] 0
              (2 ^ 62 + 1) one_empty_holds ltac:(by vm_compute) ltac:(by vm_compute))
    as (_ & Hthm).
  destruct (Reserve _ _ _ _) as [[] w' | e w' | |] eqn:E; vm_compute in E; try done.
  injection E as <-.
  destruct Hthm as (_ & _ & Hinv).
  eexists. split; [reflexivity |]. split; [reflexivity |]. split; [reflexivity |].
  exact Hinv.
Defined.
